(** * RayFall: raycasting renderer, hit resolution and match server

    A shallow embedding of
    - [src/engine/Raycaster.ts]   ([castFloorAndCeiling], [castWalls],
                                  [castSprites], and the NetworkManager),
    - the Game component          ([shoot], [hasLineOfSight], the input
                                  listeners, [reload], [spawnEnemy],
                                  [updateAI], [tick], [updatePhysics]),
    - [server/index.js]           (rooms, hits, items, respawn, countdown),
    together with the properties of the specification that they decide
    and further properties of the code (X1, X2, ...).

    Numbers.  JavaScript numbers are modelled as exact rationals extended
    with the two infinities and NaN ([JsNum.num]); rounding of IEEE doubles
    and the sign of zero are not modelled.  Values that the program only
    ever reads from finite inputs and combines without division are kept
    in [Q] directly. *)

From Stdlib Require Import ZArith QArith Qround Qabs Lia Lqa Sorted.
From stdpp Require Import gmap strings list pretty.

Local Open Scope Z_scope.

(** ** JavaScript numbers *)

Module JsNum.

Inductive num := Fin (q : Q) | PInf | NInf | NaN.

Definition qlt (a b : Q) : bool :=
  match (a ?= b)%Q with Lt => true | _ => false end.

Definition qle (a b : Q) : bool :=
  match (a ?= b)%Q with Gt => false | _ => true end.

Definition qeq (a b : Q) : bool :=
  match (a ?= b)%Q with Eq => true | _ => false end.

Definition nneg (a : num) : num :=
  match a with
  | Fin q => Fin (- q)
  | PInf => NInf
  | NInf => PInf
  | NaN => NaN
  end.

Definition nabs (a : num) : num :=
  match a with
  | Fin q => Fin (Qabs q)
  | PInf | NInf => PInf
  | NaN => NaN
  end.

Definition nadd (a b : num) : num :=
  match a, b with
  | NaN, _ | _, NaN => NaN
  | Fin x, Fin y => Fin (x + y)
  | PInf, NInf | NInf, PInf => NaN
  | PInf, _ | _, PInf => PInf
  | NInf, _ | _, NInf => NInf
  end.

Definition nsub (a b : num) : num := nadd a (nneg b).

(** [inf_signed q] is [q * Infinity]. *)
Definition inf_signed (q : Q) : num :=
  match (q ?= 0)%Q with
  | Gt => PInf
  | Lt => NInf
  | Eq => NaN
  end.

Definition nmul (a b : num) : num :=
  match a, b with
  | NaN, _ | _, NaN => NaN
  | Fin x, Fin y => Fin (x * y)
  | Fin x, PInf | PInf, Fin x => inf_signed x
  | Fin x, NInf | NInf, Fin x => inf_signed (- x)
  | PInf, PInf | NInf, NInf => PInf
  | PInf, NInf | NInf, PInf => NInf
  end.

(** Division; a zero divisor is the positive zero. *)
Definition ndiv (a b : num) : num :=
  match a, b with
  | NaN, _ | _, NaN => NaN
  | Fin x, Fin y => if qeq y 0 then inf_signed x else Fin (x / y)
  | Fin _, (PInf | NInf) => Fin 0
  | (PInf | NInf), (PInf | NInf) => NaN
  | PInf, Fin y => if qlt y 0 then NInf else PInf
  | NInf, Fin y => if qlt y 0 then PInf else NInf
  end.

Definition nfloor (a : num) : num :=
  match a with
  | Fin q => Fin (inject_Z (Qfloor q))
  | _ => a
  end.

(** [a < b]; every comparison with NaN is false. *)
Definition nlt (a b : num) : bool :=
  match a, b with
  | NaN, _ | _, NaN => false
  | Fin x, Fin y => qlt x y
  | _, NInf => false
  | NInf, _ => true
  | PInf, _ => false
  | Fin _, PInf => true
  end.

Definition ngt (a b : num) : bool := nlt b a.

Definition nle (a b : num) : bool :=
  match a, b with
  | NaN, _ | _, NaN => false
  | Fin x, Fin y => qle x y
  | NInf, _ => true
  | _, PInf => true
  | _, NInf => false
  | PInf, _ => false
  end.

Definition nge (a b : num) : bool := nle b a.

(** [Math.max] and [Math.min]: NaN if either argument is NaN. *)
Definition nmax (a b : num) : num :=
  match a, b with
  | NaN, _ | _, NaN => NaN
  | _, _ => if nlt a b then b else a
  end.

Definition nmin (a b : num) : num :=
  match a, b with
  | NaN, _ | _, NaN => NaN
  | _, _ => if nlt b a then b else a
  end.

Definition ofZ (z : Z) : num := Fin (inject_Z z).

End JsNum.

Import JsNum.

(** ** The grid *)

Module Grid.

(** [number[][]]: a list of rows.  [m[x]] is [undefined] for an index that
    is negative or past the end, and so is [m[x][y]]. *)
Definition row (m : list (list Z)) (x : Z) : option (list Z) :=
  if x <? 0 then None else m !! Z.to_nat x.

Definition cell (m : list (list Z)) (x y : Z) : option Z :=
  match row m x with
  | Some r => if y <? 0 then None else r !! Z.to_nat y
  | None => None
  end.

(** [map[x] && map[x][y] > 0] *)
Definition is_wall (m : list (list Z)) (x y : Z) : bool :=
  match cell m x y with
  | Some c => c >? 0
  | None => false
  end.

(** [map[x] && map[x][y] === 0] *)
Definition is_open (m : list (list Z)) (x y : Z) : bool :=
  match cell m x y with
  | Some c => c =? 0
  | None => false
  end.

(** [map[x]?.[y] > 0] *)
Definition is_blocking (m : list (list Z)) (x y : Z) : bool :=
  match cell m x y with
  | Some c => c >? 0
  | None => false
  end.

(** A rectangular [rows] x [cols] grid whose outer ring is all walls. *)
Definition rectangular (m : list (list Z)) (rows cols : Z) : Prop :=
  Z.of_nat (length m) = rows /\
  forall r, r ∈ m -> Z.of_nat (length r) = cols.

Definition closed_border (m : list (list Z)) (rows cols : Z) : Prop :=
  forall x y, 0 <= x < rows -> 0 <= y < cols ->
    x = 0 \/ x = rows - 1 \/ y = 0 \/ y = cols - 1 ->
    is_wall m x y = true.

End Grid.

Import Grid.

(** ** Shared game types (from [types], as the code uses them) *)

Record Vector2 := { vx : Q; vy : Q }.

Record Player := {
  pos : Vector2;
  dir : Vector2;
  plane : Vector2;
  p_health : Q;
  ammo : Z;
  ammoReserve : Z;
  p_z : Q;
  p_vz : Q;
  pitch : Q;
  weaponIndex : Z
}.

Record Texture := { t_width : Z; t_height : Z }.

(** ** Raycaster.ts *)

Module Raycaster.

(** The state of the DDA loop of one column. *)
Record ray := {
  sideDistX : num;
  sideDistY : num;
  mapX : Z;
  mapY : Z;
  side : Z
}.

Record ray_setup := {
  rayDirX : Q;
  rayDirY : Q;
  deltaDistX : num;
  deltaDistY : num;
  stepX : Z;
  stepY : Z;
  start : ray
}.

(** The DDA set-up for a ray from [p] in direction [(rdx, rdy)]: lines
    131-153 of [castWalls], and lines 563-571 of [shoot]. *)
Definition ray_towards (p : Vector2) (rdx rdy : Q) : ray_setup :=
  let mx := Qfloor (vx p) in
  let my := Qfloor (vy p) in
  let ddx := nabs (ndiv (Fin 1) (Fin rdx)) in
  let ddy := nabs (ndiv (Fin 1) (Fin rdy)) in
  let '(sx, sdx) :=
    if qlt rdx 0
    then (-1, nmul (Fin (vx p - inject_Z mx)) ddx)
    else (1, nmul (Fin (inject_Z mx + 1 - vx p)) ddx) in
  let '(sy, sdy) :=
    if qlt rdy 0
    then (-1, nmul (Fin (vy p - inject_Z my)) ddy)
    else (1, nmul (Fin (inject_Z my + 1 - vy p)) ddy) in
  {| rayDirX := rdx; rayDirY := rdy;
     deltaDistX := ddx; deltaDistY := ddy;
     stepX := sx; stepY := sy;
     start := {| sideDistX := sdx; sideDistY := sdy;
                 mapX := mx; mapY := my; side := 0 |} |}.

(** Lines 127-129 of [castWalls]: the ray of screen column [x]. *)
Definition setup_ray (player : Player) (w x : Z) : ray_setup :=
  let cameraX := (2 * inject_Z x / inject_Z w - 1)%Q in
  ray_towards (pos player)
    (vx (dir player) + vx (plane player) * cameraX)%Q
    (vy (dir player) + vy (plane player) * cameraX)%Q.

(** One turn of the [while (hit === 0)] body, before the wall test. *)
Definition dda_step (s : ray_setup) (r : ray) : ray :=
  if nlt (sideDistX r) (sideDistY r)
  then {| sideDistX := nadd (sideDistX r) (deltaDistX s);
          sideDistY := sideDistY r;
          mapX := mapX r + stepX s; mapY := mapY r; side := 0 |}
  else {| sideDistX := sideDistX r;
          sideDistY := nadd (sideDistY r) (deltaDistY s);
          mapX := mapX r; mapY := mapY r + stepY s; side := 1 |}.

(** The loop; [None] when the fuel runs out before a wall is hit.  The
    result carries the ray at the hit and [wallType]. *)
Fixpoint dda_loop (fuel : nat) (m : list (list Z)) (s : ray_setup) (r : ray)
  : option (ray * Z) :=
  match fuel with
  | O => None
  | S fuel' =>
    let r' := dda_step s r in
    if is_wall m (mapX r') (mapY r')
    then Some (r', default 0 (cell m (mapX r') (mapY r')))
    else dda_loop fuel' m s r'
  end.

Definition perpWallDist (s : ray_setup) (r : ray) : num :=
  if side r =? 0
  then nsub (sideDistX r) (deltaDistX s)
  else nsub (sideDistY r) (deltaDistY s).

(** [wallX] after [wallX -= Math.floor(wallX)]. *)
Definition wallX_of (player : Player) (s : ray_setup) (r : ray) : num :=
  let d := perpWallDist s r in
  let wx :=
    if side r =? 0
    then nadd (Fin (vy (pos player))) (nmul d (Fin (rayDirY s)))
    else nadd (Fin (vx (pos player))) (nmul d (Fin (rayDirX s))) in
  nsub wx (nfloor wx).

(** [texture.width - texX - 1] *)
Definition mirror (width : Z) (texX : num) : num :=
  nsub (nsub (ofZ width) texX) (Fin 1).

(** Lines 194-196. *)
Definition texX_of (width : Z) (sd : Z) (rdx rdy : Q) (wallX : num) : num :=
  let t0 := nfloor (nmul wallX (ofZ width)) in
  let t1 := if (sd =? 0) && qlt 0 rdx then mirror width t0 else t0 in
  if (sd =? 1) && qlt rdy 0 then mirror width t1 else t1.

(** [textures[wallType] || textures[1]], then the animation frame.  The
    remainder [%] takes the sign of [time]; an index that names no frame
    gives no texture, and reading the width of none throws. *)
Definition wall_texture (textures : gmap Z (list Texture)) (wallType : Z)
    (time : Q) : option Texture :=
  match (match textures !! wallType with
         | Some fs => Some fs
         | None => textures !! 1
         end) with
  | Some texFrames =>
    let n := Z.of_nat (length texFrames) in
    let frameIdx := if n >? 1 then Z.rem (Qfloor (time / 200)) n else 0 in
    if frameIdx <? 0 then None else texFrames !! Z.to_nat frameIdx
  | None => None
  end.

(** What [castWalls] computes for one column before it draws; [None]
    when the loop is still running as the fuel ends, or when there is no
    texture to read. *)
Record wall_slice := {
  ws_ray : ray;
  ws_wallType : Z;
  ws_perpWallDist : num;
  ws_wallX : num;
  ws_texX : num;
  ws_drawStart : num;
  ws_drawEnd : num
}.

Definition castWalls_column (fuel : nat) (player : Player)
    (m : list (list Z)) (textures : gmap Z (list Texture))
    (w h : Z) (time zoom : Q) (x : Z) : option wall_slice :=
  let s := setup_ray player w x in
  match dda_loop fuel m s (start s) with
  | None => None
  | Some (r, wallType) =>
    match wall_texture textures wallType time with
    | None => None
    | Some texture =>
      let camHeight := ((1 # 2) + p_z player)%Q in
      let d := perpWallDist s r in
      let scale := nmul (ndiv (ofZ h) d) (Fin zoom) in
      let half := Fin (inject_Z h / 2 + pitch player)%Q in
      let wx := wallX_of player s r in
      Some {| ws_ray := r; ws_wallType := wallType;
              ws_perpWallDist := d;
              ws_wallX := wx;
              ws_texX := texX_of (t_width texture) (side r)
                           (rayDirX s) (rayDirY s) wx;
              ws_drawStart := nsub half (nmul (Fin (1 - camHeight)%Q) scale);
              ws_drawEnd := nadd half (nmul (Fin camHeight) scale) |}
    end
  end.

(** *** [castSprites] *)

(** What [castSprites] reads of an enemy, item or particle. *)
Record Sprite := { s_pos : Vector2; s_textureId : Z }.

(** One [ctx.drawImage] call: a one-pixel-wide stripe of a sprite. *)
Record stripe_draw := {
  d_textureId : Z;
  d_texX : num;
  d_stripe : Z;
  d_top : num;
  d_height : num
}.

Definition sprite_dist (player : Player) (sp : Sprite) : Q :=
  ((vx (pos player) - vx (s_pos sp)) ^ 2 +
   (vy (pos player) - vy (s_pos sp)) ^ 2)%Q.

(** [sort((a, b) => b.dist - a.dist)]: far to near, stable. *)
Fixpoint insert_far (player : Player) (sp : Sprite) (l : list Sprite)
  : list Sprite :=
  match l with
  | [] => [sp]
  | y :: l' =>
    if qlt (sprite_dist player sp) (sprite_dist player y)
    then y :: insert_far player sp l'
    else sp :: l
  end.

Definition spriteOrder (player : Player) (sprites : list Sprite)
  : list Sprite :=
  foldr (insert_far player) [] sprites.

(** The camera-space depth [transformY] of a sprite. *)
Definition invDet (player : Player) : num :=
  ndiv (Fin 1)
    (Fin (vx (plane player) * vy (dir player)
          - vx (dir player) * vy (plane player))%Q).

Definition transformX (player : Player) (sp : Sprite) : num :=
  let spriteX := (vx (s_pos sp) - vx (pos player))%Q in
  let spriteY := (vy (s_pos sp) - vy (pos player))%Q in
  nmul (invDet player)
    (Fin (vy (dir player) * spriteX - vx (dir player) * spriteY)%Q).

Definition transformY (player : Player) (sp : Sprite) : num :=
  let spriteX := (vx (s_pos sp) - vx (pos player))%Q in
  let spriteY := (vy (s_pos sp) - vy (pos player))%Q in
  nmul (invDet player)
    (Fin (- vy (plane player) * spriteX + vx (plane player) * spriteY)%Q).

Definition spriteScreenX (player : Player) (w : Z) (sp : Sprite) : num :=
  nfloor (nmul (Fin (inject_Z w / 2)%Q)
            (nadd (Fin 1) (ndiv (transformX player sp) (transformY player sp)))).

(** [spriteHeight], and [spriteWidth], which is the same number. *)
Definition spriteSize (player : Player) (h : Z) (zoom : Q) (sp : Sprite)
  : num :=
  nmul (nabs (nfloor (ndiv (ofZ h) (transformY player sp)))) (Fin zoom).

Definition drawStartY (player : Player) (h : Z) (zoom : Q) (sp : Sprite)
  : num :=
  let vOffset :=
    nadd (Fin (pitch player))
      (ndiv (Fin (p_z player * inject_Z h * zoom)%Q) (transformY player sp)) in
  nadd (nadd (ndiv (nneg (spriteSize player h zoom sp)) (Fin 2))
             (Fin (inject_Z h / 2)%Q)) vOffset.

Definition drawEndY (player : Player) (h : Z) (zoom : Q) (sp : Sprite)
  : num :=
  let vOffset :=
    nadd (Fin (pitch player))
      (ndiv (Fin (p_z player * inject_Z h * zoom)%Q) (transformY player sp)) in
  nadd (nadd (ndiv (spriteSize player h zoom sp) (Fin 2))
             (Fin (inject_Z h / 2)%Q)) vOffset.

(** [-spriteWidth / 2 + spriteScreenX], the left edge of the projection. *)
Definition spriteLeft (player : Player) (w h : Z) (zoom : Q) (sp : Sprite)
  : num :=
  nadd (ndiv (nneg (spriteSize player h zoom sp)) (Fin 2))
       (spriteScreenX player w sp).

Definition drawStartX (player : Player) (w h : Z) (zoom : Q) (sp : Sprite)
  : num :=
  nmax (Fin 0) (spriteLeft player w h zoom sp).

Definition drawEndX (player : Player) (w h : Z) (zoom : Q) (sp : Sprite)
  : num :=
  nmin (ofZ (w - 1))
       (nadd (ndiv (spriteSize player h zoom sp) (Fin 2))
             (spriteScreenX player w sp)).

(** The values taken by [stripe] in
    [for (stripe = floor(drawStartX); stripe < floor(drawEndX); stripe++)].
    With a bound that is NaN or infinite the loop has no turn: [drawStartX]
    is never [-Infinity] and [drawEndX] never [+Infinity]. *)
Definition stripes (player : Player) (w h : Z) (zoom : Q) (sp : Sprite)
  : list Z :=
  match drawStartX player w h zoom sp, drawEndX player w h zoom sp with
  | Fin a, Fin b => seqZ (Qfloor a) (Qfloor b - Qfloor a)
  | _, _ => []
  end.

(** [textures[sprite.textureId]?.[0]] *)
Definition sprite_texture (textures : gmap Z (list Texture)) (sp : Sprite)
  : option Texture :=
  match textures !! s_textureId sp with
  | Some fs => head fs
  | None => None
  end.

Definition clippedYStart (player : Player) (h : Z) (zoom : Q) (sp : Sprite)
  : num := nmax (Fin 0) (drawStartY player h zoom sp).

Definition clippedYEnd (player : Player) (h : Z) (zoom : Q) (sp : Sprite)
  : num := nmin (ofZ (h - 1)) (drawEndY player h zoom sp).

(** The two nested tests of the loop body, lines 276 and 280. *)
Definition stripe_visible (zBuffer : list num) (player : Player)
    (w h : Z) (zoom : Q) (sp : Sprite) (stripe : Z) : bool :=
  ngt (transformY player sp) (Fin 0) && (stripe >? 0) && (stripe <? w) &&
  match zBuffer !! Z.to_nat stripe with
  | Some z => nlt (transformY player sp) z
  | None => false
  end &&
  ngt (clippedYEnd player h zoom sp) (clippedYStart player h zoom sp).

(** The body of [for (const item of spriteOrder)] for one sprite. *)
Definition sprite_draws (zBuffer : list num) (player : Player)
    (textures : gmap Z (list Texture)) (w h : Z) (zoom : Q) (sp : Sprite)
  : list stripe_draw :=
  if nle (transformY player sp) (Fin 0) then []
  else
    match sprite_texture textures sp with
    | None => []
    | Some texture =>
      omap (fun stripe =>
              if stripe_visible zBuffer player w h zoom sp stripe
              then Some
                {| d_textureId := s_textureId sp;
                   d_texX :=
                     nfloor (ndiv (nmul (nsub (ofZ stripe)
                                           (spriteLeft player w h zoom sp))
                                        (ofZ (t_width texture)))
                                  (spriteSize player h zoom sp));
                   d_stripe := stripe;
                   d_top := clippedYStart player h zoom sp;
                   d_height := nsub (clippedYEnd player h zoom sp)
                                    (clippedYStart player h zoom sp) |}
              else None)
           (stripes player w h zoom sp)
    end.

(** [castSprites]: the [drawImage] calls, in order. *)
Definition castSprites (zBuffer : list num) (player : Player)
    (sprites : list Sprite) (textures : gmap Z (list Texture))
    (w h : Z) (zoom : Q) : list stripe_draw :=
  flat_map (sprite_draws zBuffer player textures w h zoom)
           (spriteOrder player sprites).

(** Predicates used to reason about the loop. *)

(** The ray's cell is strictly inside a [rows] x [cols] grid. *)
Definition interior (rows cols : Z) (r : ray) : Prop :=
  1 <= mapX r <= rows - 2 /\ 1 <= mapY r <= cols - 2.

(** Cells left to the outer ring, along the two directions of travel. *)
Definition travel (rows cols : Z) (s : ray_setup) (r : ray) : Z :=
  (if stepX s =? 1 then rows - 1 - mapX r else mapX r) +
  (if stepY s =? 1 then cols - 1 - mapY r else mapY r).

(** An accumulator of the loop: infinite together with its increment, or
    finite, with a positive increment, and never below [init]. *)
Definition axis_ok (delta sd : num) (init : Q) : Prop :=
  (delta = PInf /\ sd = PInf) \/
  (exists d a, delta = Fin d /\ sd = Fin a /\ (0 < d)%Q /\ (init <= a)%Q).

(** After a turn of the loop, the accumulator of the axis just stepped is
    finite and one increment above a value that is at least [init]. *)
Definition last_ok (s : ray_setup) (r : ray) (ix iy : Q) : Prop :=
  (side r = 0 ->
     exists d a, deltaDistX s = Fin d /\ sideDistX r = Fin a /\
                 (ix <= a - d)%Q) /\
  (side r <> 0 ->
     exists d b, deltaDistY s = Fin d /\ sideDistY r = Fin b /\
                 (iy <= b - d)%Q).

(** The camera is on no grid line. *)
Definition off_grid_lines (player : Player) : Prop :=
  ~ (vx (pos player) == inject_Z (Qfloor (vx (pos player))))%Q /\
  ~ (vy (pos player) == inject_Z (Qfloor (vy (pos player))))%Q.

End Raycaster.

(** ** The Game component: [shoot] and [hasLineOfSight] *)

Module Game.

Import Raycaster.

(** What [shoot] reads of the constants module is a parameter, and so is
    [Math.sqrt], which has no exact counterpart on rationals. *)
Record constants := {
  SCREEN_HEIGHT : Q;
  FOV : Q;
  sqrt : Q -> Q
}.

Record Weapon := {
  damage : Q;
  headshotMultiplier : Q;
  fireRate : Q;
  isAuto : bool;
  recoil : Q
}.

Inductive EnemyState := IDLE | CHASE | ATTACK | DYING | DEAD.

Record Enemy := {
  e_id : Z;
  e_pos : Vector2;
  e_state : EnemyState;
  e_health : Q;
  e_textureId : Z;
  e_networkId : option string
}.

Record Decal := {
  dc_mapX : Z;
  dc_mapY : Z;
  dc_side : Z;
  dc_wallX : num;
  dc_wallY : Q;
  dc_life : Q
}.

(** What [shoot] reads: the game state, the selected weapon, the clock, the
    refs and flags of the component, and one draw of [Math.random]. *)
Record shoot_env := {
  player : Player;
  enemies : list Enemy;
  map : list (list Z);
  weapon : Weapon;
  now : Q;
  lastShotTime : Q;
  lastDryFireTime : Q;
  isReloading : bool;
  isInfiniteAmmo : bool;
  isMultiplayer : bool;
  currentFovScale : Q;
  random : Q
}.

(** [hasLineOfSight]: 25 samples along the segment. *)
Fixpoint los_loop (n : nat) (m : list (list Z)) (dx dy cx cy : Q) : bool :=
  match n with
  | O => true
  | S n' =>
    let cx' := (cx + dx)%Q in
    let cy' := (cy + dy)%Q in
    if is_blocking m (Qfloor cx') (Qfloor cy') then false
    else los_loop n' m dx dy cx' cy'
  end.

Definition hasLineOfSight (p1 p2 : Vector2) (m : list (list Z)) : bool :=
  let dx := ((vx p2 - vx p1) / 25)%Q in
  let dy := ((vy p2 - vy p1) / 25)%Q in
  los_loop 25 m dx dy (vx p1) (vy p1).

(** [while (map[mapX] && map[mapX][mapY] === 0)]: the walk to the first
    cell that is not an open cell of the map. *)
Fixpoint wall_walk (fuel : nat) (m : list (list Z)) (s : ray_setup) (r : ray)
  : option ray :=
  match fuel with
  | O => None
  | S fuel' =>
    if is_open m (mapX r) (mapY r)
    then wall_walk fuel' m s (dda_step s r)
    else Some r
  end.


(** The quantities of the [enemies.forEach] body. *)
Definition enemy_dist (k : constants) (env : shoot_env) (enemy : Enemy) : Q :=
  let dx := (vx (e_pos enemy) - vx (pos (player env)))%Q in
  let dy := (vy (e_pos enemy) - vy (pos (player env)))%Q in
  sqrt k (dx * dx + dy * dy)%Q.

Definition enemy_dot (env : shoot_env) (enemy : Enemy) : Q :=
  let dx := (vx (e_pos enemy) - vx (pos (player env)))%Q in
  let dy := (vy (e_pos enemy) - vy (pos (player env)))%Q in
  (dx * vx (dir (player env)) + dy * vy (dir (player env)))%Q.

Definition enemy_perpDist (env : shoot_env) (enemy : Enemy) : Q :=
  let dx := (vx (e_pos enemy) - vx (pos (player env)))%Q in
  let dy := (vy (e_pos enemy) - vy (pos (player env)))%Q in
  Qabs (dx * vy (dir (player env)) - dy * vx (dir (player env)))%Q.

Definition zoom (k : constants) (env : shoot_env) : num :=
  ndiv (Fin (FOV k)) (Fin (currentFovScale env)).

Definition enemy_drawStartY (k : constants) (env : shoot_env) (enemy : Enemy)
  : num :=
  let transformY := Fin (enemy_dist k env enemy) in
  let vOffset :=
    nadd (Fin (pitch (player env)))
      (ndiv (nmul (Fin (p_z (player env) * SCREEN_HEIGHT k)%Q) (zoom k env))
            transformY) in
  let spriteHeight :=
    nmul (ndiv (Fin (SCREEN_HEIGHT k)) transformY) (zoom k env) in
  nadd (nadd (ndiv (nneg spriteHeight) (Fin 2))
             (Fin (SCREEN_HEIGHT k / 2)%Q)) vOffset.

Definition enemy_drawEndY (k : constants) (env : shoot_env) (enemy : Enemy)
  : num :=
  let transformY := Fin (enemy_dist k env enemy) in
  let vOffset :=
    nadd (Fin (pitch (player env)))
      (ndiv (nmul (Fin (p_z (player env) * SCREEN_HEIGHT k)%Q) (zoom k env))
            transformY) in
  let spriteHeight :=
    nmul (ndiv (Fin (SCREEN_HEIGHT k)) transformY) (zoom k env) in
  nadd (nadd (ndiv spriteHeight (Fin 2))
             (Fin (SCREEN_HEIGHT k / 2)%Q)) vOffset.

Definition crosshairY (k : constants) : num := Fin (SCREEN_HEIGHT k / 2)%Q.

(** [(crosshairY - drawStartY) / (drawEndY - drawStartY)] *)
Definition enemy_relativeY (k : constants) (env : shoot_env) (enemy : Enemy)
  : num :=
  ndiv (nsub (crosshairY k) (enemy_drawStartY k env enemy))
       (nsub (enemy_drawEndY k env enemy) (enemy_drawStartY k env enemy)).

(** The nested tests of lines 588-604, in their order. *)
Definition candidate (k : constants) (env : shoot_env) (wallDist : num)
    (enemy : Enemy) : bool :=
  negb (qle (e_health enemy) 0) &&
  (qlt 0 (enemy_dot env enemy) &&
   nlt (Fin (enemy_dist k env enemy)) wallDist) &&
  (qlt (enemy_perpDist env enemy) (1 # 2) &&
   hasLineOfSight (pos (player env)) (e_pos enemy) (map env)) &&
  (nge (crosshairY k) (enemy_drawStartY k env enemy) &&
   nle (crosshairY k) (enemy_drawEndY k env enemy)).

(** [closestEnemy], [closestDist], [hitRelativeY]. *)
Record aim := {
  closestEnemy : option Enemy;
  closestDist : num;
  hitRelativeY : num
}.

Definition aim_start : aim :=
  {| closestEnemy := None; closestDist := PInf; hitRelativeY := Fin 0 |}.

(** One call of the [forEach] callback. *)
Definition consider (k : constants) (env : shoot_env) (wallDist : num)
    (a : aim) (enemy : Enemy) : aim :=
  if candidate k env wallDist enemy
  then if nlt (Fin (enemy_dist k env enemy)) (closestDist a)
       then {| closestEnemy := Some enemy;
               closestDist := Fin (enemy_dist k env enemy);
               hitRelativeY := enemy_relativeY k env enemy |}
       else a
  else a.

Definition take_aim (k : constants) (env : shoot_env) (wallDist : num) : aim :=
  fold_left (consider k env wallDist) (enemies env) aim_start.

(** What the hit does: a claim sent to the server, or local damage. *)
Inductive hit_effect :=
  | SendHit (networkId : string) (dmg : Q)
  | LocalDamage (health' : Q) (killed : bool).

Record hit := {
  target : Enemy;
  isHead : bool;
  dmg : Q;
  effect : hit_effect
}.

Definition resolve_hit (env : shoot_env) (a : aim) : option hit :=
  match closestEnemy a with
  | None => None
  | Some tg =>
    let head := nlt (hitRelativeY a) (Fin (1 # 4)) in
    let d := if head
             then (damage (weapon env) * headshotMultiplier (weapon env))%Q
             else damage (weapon env) in
    let eff :=
      match (if isMultiplayer env then e_networkId tg else None) with
      | Some nid =>
        if String.eqb nid EmptyString then
          LocalDamage (e_health tg - d) (qle (e_health tg - d) 0)
        else SendHit nid d
      | None => LocalDamage (e_health tg - d) (qle (e_health tg - d) 0)
      end in
    Some {| target := tg; isHead := head; dmg := d; effect := eff |}
  end.

Inductive shoot_result :=
  | NoShot
  | Shot (ammo' : Z) (decal : Decal) (h : option hit).

(** [shoot]; [None] only when the fuel of the wall walk runs out. *)
Definition shoot (fuel : nat) (k : constants) (env : shoot_env)
  : option shoot_result :=
  let p := player env in
  if qle (p_health p) 0 || isReloading env then Some NoShot
  else if qlt (now env - lastShotTime env) (fireRate (weapon env))
  then Some NoShot
  else if negb (isInfiniteAmmo env) && (ammo p <=? 0) then Some NoShot
  else
    let ammo' := if isInfiniteAmmo env then ammo p else ammo p - 1 in
    let s := ray_towards (pos p) (vx (dir p)) (vy (dir p)) in
    match wall_walk fuel (map env) s (start s) with
    | None => None
    | Some r =>
      let wallDist := perpWallDist s r in
      let decal :=
        {| dc_mapX := mapX r; dc_mapY := mapY r; dc_side := side r;
           dc_wallX := wallX_of p s r;
           dc_wallY := ((1 # 2) + (random env - (1 # 2)) * (1 # 10))%Q;
           dc_life := 1 |} in
      Some (Shot ammo' decal (resolve_hit env (take_aim k env wallDist)))
    end.

(** What the aim is after the enemies of [l] have been considered. *)
Definition aim_of (k : constants) (env : shoot_env) (wallDist : num)
    (l : list Enemy) (a : aim) : Prop :=
  match closestEnemy a with
  | None =>
    closestDist a = PInf /\
    forall e, e ∈ l -> candidate k env wallDist e = false
  | Some e =>
    e ∈ l /\ candidate k env wallDist e = true /\
    closestDist a = Fin (enemy_dist k env e) /\
    hitRelativeY a = enemy_relativeY k env e /\
    forall e', e' ∈ l -> candidate k env wallDist e' = true ->
               (enemy_dist k env e <= enemy_dist k env e')%Q
  end.

End Game.

(** ** server/index.js *)

Module Server.

(** JavaScript objects used as dictionaries.  [scores] and [rooms] are
    enumerated by the program ([Object.entries], [for ... in],
    [Object.values]) and are kept as association lists in the order of
    the enumeration: the keys that are array indices first, by their
    value, then the other keys as they were added.  [players] and [items]
    are only looked up, counted and sent, and are finite maps.  Keys are
    socket, room and item ids.

    A lookup [o[k]] also finds what [o] inherits from [Object.prototype].
    The maps below hold the own properties only; [prototype_member] and
    [inherited] say which keys name an inherited property, and the
    handlers are modelled for the other keys, with the exception of
    [pickupItem], whose test of an item id is modelled for every key. *)

Fixpoint alist_get {V} (k : string) (l : list (string * V)) : option V :=
  match l with
  | [] => None
  | (k', v) :: l' => if String.eqb k' k then Some v else alist_get k l'
  end.

(** The value of a decimal digit. *)
Definition digit (c : Ascii.ascii) : option Z :=
  let n := Z.of_nat (Ascii.nat_of_ascii c) in
  if (48 <=? n) && (n <=? 57) then Some (n - 48) else None.

Fixpoint decimal (s : string) (acc : Z) : option Z :=
  match s with
  | EmptyString => Some acc
  | String c s' =>
    match digit c with
    | Some d => decimal s' (acc * 10 + d)
    | None => None
    end
  end.

(** A key that is an array index: the decimal form, with no leading
    zero, of a whole number below [2^32 - 1]. *)
Definition array_index (k : string) : option Z :=
  match k with
  | EmptyString => None
  | String c rest =>
    if (Ascii.nat_of_ascii c =? 48)%nat && negb (String.eqb rest EmptyString)
    then None
    else
      match decimal k 0 with
      | Some n => if n <? 4294967295 then Some n else None
      | None => None
      end
  end.

(** Whether a new key [k] is enumerated before the key [k'] that the
    object has: an array index comes before a greater one and before
    every other key. *)
Definition enumerated_before (k k' : string) : bool :=
  match array_index k with
  | Some n =>
    match array_index k' with
    | Some n' => n <? n'
    | None => true
    end
  | None => false
  end.

(** A new property, at its place in the enumeration. *)
Fixpoint alist_add {V} (k : string) (v : V) (l : list (string * V))
  : list (string * V) :=
  match l with
  | [] => [(k, v)]
  | (k', v') :: l' =>
    if enumerated_before k k' then (k, v) :: (k', v') :: l'
    else (k', v') :: alist_add k v l'
  end.

(** A new value for a property that is there, in place. *)
Fixpoint alist_put {V} (k : string) (v : V) (l : list (string * V))
  : list (string * V) :=
  match l with
  | [] => []
  | (k', v') :: l' =>
    if String.eqb k' k then (k, v) :: l' else (k', v') :: alist_put k v l'
  end.

(** [o[k] = v] *)
Definition alist_set {V} (k : string) (v : V) (l : list (string * V))
  : list (string * V) :=
  match alist_get k l with
  | Some _ => alist_put k v l
  | None => alist_add k v l
  end.

(** [delete o[k]] *)
Fixpoint alist_del {V} (k : string) (l : list (string * V))
  : list (string * V) :=
  match l with
  | [] => []
  | (k', v') :: l' =>
    if String.eqb k' k then l' else (k', v') :: alist_del k l'
  end.

(** The names of the members of [Object.prototype], those of Annex B
    included: what [o[k]] finds for such a key on an object that has no
    property [k] of its own is a function, or the prototype itself. *)
Definition prototype_members : list string :=
  [ "constructor"; "hasOwnProperty"; "isPrototypeOf"; "propertyIsEnumerable";
    "toLocaleString"; "toString"; "valueOf"; "__proto__";
    "__defineGetter__"; "__defineSetter__"; "__lookupGetter__";
    "__lookupSetter__" ]%string.

Definition prototype_member (k : string) : bool :=
  existsb (String.eqb k) prototype_members.

(** The property names that an object of the program may inherit: the
    members of [Object.prototype], and [health], which a [playerHit]
    whose victim id is [__proto__] writes to [Object.prototype] (line
    168; the value is then NaN). *)
Definition inherited (k : string) : bool :=
  prototype_member k || String.eqb k "health".

(** Characters of ASCII only. *)
Fixpoint ascii_only (s : string) : bool :=
  match s with
  | EmptyString => true
  | String c s' => (Ascii.nat_of_ascii c <? 128)%nat && ascii_only s'
  end.

(** [toUpperCase], for a string of ASCII characters. *)
Definition upper_char (c : Ascii.ascii) : Ascii.ascii :=
  let n := Ascii.nat_of_ascii c in
  if (97 <=? n)%nat && (n <=? 122)%nat
  then Ascii.ascii_of_nat (n - 32) else c.

Fixpoint toUpperCase (s : string) : string :=
  match s with
  | EmptyString => EmptyString
  | String c s' => String (upper_char c) (toUpperCase s')
  end.

Inductive Status := WAITING | PLAYING | FINISHED.

Definition is_playing (st : Status) : bool :=
  match st with PLAYING => true | _ => false end.

Definition is_waiting (st : Status) : bool :=
  match st with WAITING => true | _ => false end.

Record player := {
  p_x : Q;
  p_y : Q;
  p_angle : Q;
  health : Q;
  p_id : string;
  isDead : bool;
  p_name : string
}.

Record item := {
  i_id : string;
  i_x : Q;
  i_y : Q;
  i_type : Z
}.

(** A room object.  [timerInterval] holds the handle of [setInterval]. *)
Record room := {
  r_id : string;
  players : gmap string player;
  items : gmap string item;
  timeLeft : Z;
  status : Status;
  scores : list (string * Z);
  timerInterval : option nat
}.

Definition set_players (f : gmap string player -> gmap string player)
    (r : room) : room :=
  {| r_id := r_id r; players := f (players r); items := items r;
     timeLeft := timeLeft r; status := status r; scores := scores r;
     timerInterval := timerInterval r |}.

Definition set_items (f : gmap string item -> gmap string item)
    (r : room) : room :=
  {| r_id := r_id r; players := players r; items := f (items r);
     timeLeft := timeLeft r; status := status r; scores := scores r;
     timerInterval := timerInterval r |}.

Definition set_timeLeft (t : Z) (r : room) : room :=
  {| r_id := r_id r; players := players r; items := items r;
     timeLeft := t; status := status r; scores := scores r;
     timerInterval := timerInterval r |}.

Definition set_status (s : Status) (r : room) : room :=
  {| r_id := r_id r; players := players r; items := items r;
     timeLeft := timeLeft r; status := s; scores := scores r;
     timerInterval := timerInterval r |}.

Definition set_scores (sc : list (string * Z)) (r : room) : room :=
  {| r_id := r_id r; players := players r; items := items r;
     timeLeft := timeLeft r; status := status r; scores := sc;
     timerInterval := timerInterval r |}.

Definition set_timerInterval (t : option nat) (r : room) : room :=
  {| r_id := r_id r; players := players r; items := items r;
     timeLeft := timeLeft r; status := status r; scores := scores r;
     timerInterval := t |}.

(** *** Messages *)

Record room_summary := {
  rs_id : string;
  rs_count : nat;
  rs_status : Status;
  rs_timeLeft : Z
}.

Inductive event :=
  | roomListUpdate (l : list room_summary)
  | error (msg : string)
  | roomCreated (roomId : string)
  | playerJoined (id name : string) (currentPlayers : gmap string player)
      (tl : Z)
  | playerLeft (id : string)
  | playerMoved (id : string) (x y angle : Q)
  | otherPlayerShot (id : string)
  | healthUpdate (id : string) (hp : Q) (dead : option bool)
  | playerDied (victimId killerId : string) (sc : list (string * Z))
  | playerRespawn (x y : Q)
  | itemSpawn (it : item)
  | itemRemoved (itemId : string)
  | itemCollected (type : option Z)
  | timeUpdate (tl : Z)
  | gameOver (winnerId : option string) (winnerName : string)
      (sc : list (string * Z)).

(** Whom an [emit] addresses: [socket.emit], [io.to(name).emit],
    [socket.to(name).emit] and [io.emit].  Socket.io keeps for every socket
    a room named by the socket's id, with that socket alone in it. *)
Inductive target :=
  | ToSocket (socketId : string)
  | ToRoom (name : string)
  | ToRoomExcept (name socketId : string)
  | ToAll.

(** *** Timers and the server state *)

(** The closures handed to [setTimeout] and [setInterval], with what they
    capture: ids by value, room objects by reference. *)
Inductive callback :=
  | Respawn (roomId victimId : string)
  | ItemExpiry (roomRef : nat) (roomId itemId : string)
  | Tick (roomId : string) (room : nat).

Record timer := {
  t_id : nat;
  t_due : Z;
  t_every : option Z;
  t_cb : callback
}.

(** [rooms] maps a room id to a reference into [heap], where the room
    objects live: a room that was deleted from [rooms] is still reachable
    from the closures that captured it.  [now] is the clock ([Date.now()])
    and [emitted] the messages sent so far, oldest first. *)
Record state := {
  rooms : list (string * nat);
  heap : gmap nat room;
  next_ref : nat;
  timers : list timer;
  next_timer : nat;
  now : Z;
  emitted : list (target * event)
}.

Definition init : state :=
  {| rooms := []; heap := ∅; next_ref := 0; timers := []; next_timer := 0;
     now := 0; emitted := [] |}.

Definition set_rooms (rs : list (string * nat)) (st : state) : state :=
  {| rooms := rs; heap := heap st; next_ref := next_ref st;
     timers := timers st; next_timer := next_timer st; now := now st;
     emitted := emitted st |}.

Definition set_timers (ts : list timer) (st : state) : state :=
  {| rooms := rooms st; heap := heap st; next_ref := next_ref st;
     timers := ts; next_timer := next_timer st; now := now st;
     emitted := emitted st |}.

Definition set_now (t : Z) (st : state) : state :=
  {| rooms := rooms st; heap := heap st; next_ref := next_ref st;
     timers := timers st; next_timer := next_timer st; now := t;
     emitted := emitted st |}.

(** Write a room object back. *)
Definition store (l : nat) (r : room) (st : state) : state :=
  {| rooms := rooms st; heap := <[l := r]> (heap st);
     next_ref := next_ref st; timers := timers st;
     next_timer := next_timer st; now := now st; emitted := emitted st |}.

(** A new room object. *)
Definition alloc (r : room) (st : state) : nat * state :=
  (next_ref st,
   {| rooms := rooms st; heap := <[next_ref st := r]> (heap st);
      next_ref := S (next_ref st); timers := timers st;
      next_timer := next_timer st; now := now st; emitted := emitted st |}).

Definition emit (tg : target) (ev : event) (st : state) : state :=
  {| rooms := rooms st; heap := heap st; next_ref := next_ref st;
     timers := timers st; next_timer := next_timer st; now := now st;
     emitted := emitted st ++ [(tg, ev)] |}.

Definition add_timer (every : option Z) (cb : callback) (delay : Z)
    (st : state) : nat * state :=
  (next_timer st,
   {| rooms := rooms st; heap := heap st; next_ref := next_ref st;
      timers := timers st ++ [ {| t_id := next_timer st;
                                  t_due := now st + delay;
                                  t_every := every; t_cb := cb |} ];
      next_timer := S (next_timer st); now := now st;
      emitted := emitted st |}).

Definition setTimeout (cb : callback) (delay : Z) (st : state) : state :=
  snd (add_timer None cb delay st).

Definition setInterval (cb : callback) (period : Z) (st : state)
  : nat * state :=
  add_timer (Some period) cb period st.

(** [clearInterval(h)]; nothing happens for [null]. *)
Definition clearInterval (h : option nat) (st : state) : state :=
  match h with
  | Some tid =>
    set_timers (filter (fun t => t_id t <> tid) (timers st)) st
  | None => st
  end.

(** [rooms[roomId]], with the reference of the object. *)
Definition room_at (st : state) (roomId : string) : option (nat * room) :=
  match alist_get roomId (rooms st) with
  | Some l =>
    match heap st !! l with
    | Some r => Some (l, r)
    | None => None
    end
  | None => None
  end.

Definition getRoomList (st : state) : list room_summary :=
  omap (fun '(_, l) =>
          match heap st !! l with
          | Some r => Some {| rs_id := r_id r; rs_count := size (players r);
                              rs_status := status r;
                              rs_timeLeft := timeLeft r |}
          | None => None
          end)
       (rooms st).

(** *** Payloads of the client events *)

(** [createRoom]: an object [{customId, duration, username}], or the room
    id alone.  The duration is a number of whole minutes (the lobby offers
    2, 5 and 10). *)
Inductive create_data :=
  | CreateObj (customId : option string) (duration : option Z)
      (username : option string)
  | CreateId (requestedId : option string).

Inductive join_data :=
  | JoinObj (roomId : string) (username : option string)
  | JoinId (roomId : string).

Record move_data := {
  m_roomId : string;
  m_x : Q;
  m_y : Q;
  m_angle : Q
}.

Record hit_data := {
  h_roomId : string;
  h_damage : Q;
  h_shooterId : string;
  h_victimId : string
}.

Record pickup_data := {
  k_roomId : string;
  k_itemId : string
}.

(** A string that is there and not empty. *)
Definition truthy (o : option string) : option string :=
  match o with
  | Some s => if String.eqb s EmptyString then None else Some s
  | None => None
  end.

(** *** The countdown *)

(** The loop of [finishGame] over [Object.entries(room.scores)]. *)
Definition winner_step (ps : gmap string player)
    (acc : Z * option string * string) (e : string * Z)
  : Z * option string * string :=
  let '(maxScore, winnerId, winnerName) := acc in
  let '(pid, score) := e in
  if score >? maxScore
  then (score, Some pid,
        match ps !! pid with Some p => p_name p | None => winnerName end)
  else acc.

Definition winner (r : room) : Z * option string * string :=
  fold_left (winner_step (players r)) (scores r) (-1, None, "Unknown").

Definition finishGame (roomId : string) (st : state) : state :=
  match room_at st roomId with
  | None => st
  | Some (l, room) =>
    let room := set_status FINISHED room in
    let st := store l room st in
    let st := clearInterval (timerInterval room) st in
    let '(_, winnerId, winnerName) := winner room in
    emit (ToRoom roomId) (gameOver winnerId winnerName (scores room)) st
  end.

(** The callback of [setInterval] in [startGameLoop]; [l] is the room
    object it captured. *)
Definition tick (roomId : string) (l : nat) (st : state) : state :=
  match alist_get roomId (rooms st) with
  | None => st
  | Some _ =>
    match heap st !! l with
    | None => st
    | Some room =>
      let room := set_timeLeft (timeLeft room - 1) room in
      let st := store l room st in
      let st := emit (ToRoom roomId) (timeUpdate (timeLeft room)) st in
      if timeLeft room <=? 0 then finishGame roomId st else st
    end
  end.

Definition startGameLoop (roomId : string) (st : state) : state :=
  match room_at st roomId with
  | None => st
  | Some (l, room) =>
    match timerInterval room with
    | Some _ => st
    | None =>
      let '(tid, st) := setInterval (Tick roomId l) 1000 st in
      store l (set_timerInterval (Some tid) room) st
    end
  end.

(** *** Lobby events *)

Definition new_player (socketId username : string) : player :=
  {| p_x := 5 # 2; p_y := 5 # 2; p_angle := 0; health := 100;
     p_id := socketId; isDead := false; p_name := username |}.

(** [joinRoomInternal], for a room id that is not the name of a member of
    [Object.prototype]: for such a name [rooms[roomId]] is not falsy, and
    the assignment to [room.players[socket.id]] throws. *)
Definition joinRoomInternal (socketId roomId username : string) (st : state)
  : state :=
  match room_at st roomId with
  | None => emit (ToSocket socketId) (error "Room not found") st
  | Some (l, room) =>
    let room :=
      set_players (<[socketId := new_player socketId username]>) room in
    let room := set_scores (alist_set socketId 0 (scores room)) room in
    let st := store l room st in
    let st :=
      if is_waiting (status room)
      then startGameLoop roomId (store l (set_status PLAYING room) st)
      else st in
    let st :=
      match heap st !! l with
      | Some room =>
        emit (ToRoom roomId)
          (playerJoined socketId username (players room) (timeLeft room)) st
      | None => st
      end in
    emit ToAll (roomListUpdate (getRoomList st)) st
  end.

Definition new_room (roomId : string) (duration : Z) : room :=
  {| r_id := roomId; players := ∅; items := ∅; timeLeft := duration * 60;
     status := WAITING; scores := []; timerInterval := None |}.

(** Lines 61-77 of the [createRoom] handler: the room is made, announced
    and joined by its creator. *)
Definition create_and_join (socketId roomId : string) (duration : Z)
    (username : string) (st : state) : state :=
  let '(l, st) := alloc (new_room roomId duration) st in
  let st := set_rooms (alist_set roomId l (rooms st)) st in
  let st := emit (ToSocket socketId) (roomCreated roomId) st in
  let st := joinRoomInternal socketId roomId username st in
  emit ToAll (roomListUpdate (getRoomList st)) st.

(** [data.duration || 5] *)
Definition duration_of (data : create_data) : Z :=
  match data with
  | CreateObj _ (Some d) _ => if d =? 0 then 5 else d
  | _ => 5
  end.

(** [uuid1] and [uuid2] are the results of the two calls of [uuidv4()]
    that the handler may make. *)
Definition createRoom (socketId : string) (data : create_data)
    (uuid1 uuid2 : string) (st : state) : state :=
  let '(requestedId, username) :=
    match data with
    | CreateObj cid _ un => (truthy cid, default "Anonymous" (truthy un))
    | CreateId rid => (truthy rid, "Anonymous")
    end in
  let duration := duration_of data in
  let roomId :=
    match requestedId with
    | Some rid => String.substring 0 10 (toUpperCase rid)
    | None => toUpperCase (String.substring 0 6 uuid1)
    end in
  match alist_get roomId (rooms st), requestedId with
  | Some _, Some _ =>
    emit (ToSocket socketId) (error "Room ID already exists") st
  | Some _, None =>
    create_and_join socketId (toUpperCase (String.substring 0 6 uuid2))
      duration username st
  | None, _ => create_and_join socketId roomId duration username st
  end.

Definition joinRoom (socketId : string) (data : join_data) (st : state)
  : state :=
  match data with
  | JoinObj roomId un =>
    joinRoomInternal socketId roomId (default "Anonymous" (truthy un)) st
  | JoinId roomId => joinRoomInternal socketId roomId "Anonymous" st
  end.

(** *** Game events *)

Definition playerMove (socketId : string) (d : move_data) (st : state)
  : state :=
  match room_at st (m_roomId d) with
  | Some (l, room) =>
    if is_playing (status room) then
      match players room !! socketId with
      | Some p =>
        let p := {| p_x := m_x d; p_y := m_y d; p_angle := m_angle d;
                    health := health p; p_id := p_id p; isDead := isDead p;
                    p_name := p_name p |} in
        let st := store l (set_players (<[socketId := p]>) room) st in
        emit (ToRoomExcept (m_roomId d) socketId)
          (playerMoved socketId (m_x d) (m_y d) (m_angle d)) st
      | None => st
      end
    else st
  | None => st
  end.

Definition playerShoot (socketId roomId : string) (st : state) : state :=
  emit (ToRoomExcept roomId socketId) (otherPlayerShot socketId) st.

Definition SAFE_SPAWNS : list (Q * Q) :=
  [(5 # 2, 5 # 2); (43 # 2, 5 # 2); (5 # 2, 43 # 2); (43 # 2, 43 # 2);
   (12, 12)]%Q.

(** The callback of the [setTimeout] of line 184; [random] is the value of
    [Math.random()], a number in [0, 1). *)
Definition respawn (roomId victimId : string) (random : Q) (st : state)
  : state :=
  match room_at st roomId with
  | None => st
  | Some (l, roomRef) =>
    match players roomRef !! victimId with
    | None => st
    | Some victimRef =>
      let i := Qfloor (random * inject_Z (Z.of_nat (length SAFE_SPAWNS))) in
      match (if i <? 0 then None else SAFE_SPAWNS !! Z.to_nat i) with
      | None => st
      | Some (sx, sy) =>
        let v := {| p_x := sx; p_y := sy; p_angle := p_angle victimRef;
                    health := 100; p_id := p_id victimRef; isDead := false;
                    p_name := p_name victimRef |} in
        let st := store l (set_players (<[victimId := v]>) roomRef) st in
        let st := emit (ToRoom roomId)
                    (healthUpdate victimId 100 (Some false)) st in
        let st := emit (ToRoom roomId) (playerMoved victimId sx sy 0) st in
        emit (ToRoom victimId) (playerRespawn sx sy) st
      end
    end
  end.

(** The callback of the [setTimeout] of line 243; [l] is the [roomRef] it
    captured. *)
Definition itemExpiry (l : nat) (roomId itemId : string) (st : state)
  : state :=
  match heap st !! l with
  | None => st
  | Some roomRef =>
    match items roomRef !! itemId with
    | Some _ =>
      let st := store l (set_items (delete itemId) roomRef) st in
      emit (ToRoom roomId) (itemRemoved itemId) st
    | None => st
    end
  end.

(** Lines 221-249.  [suffix] is [Math.random().toString(36).substr(2, 5)]
    and [typeRoll] the second [Math.random()]. *)
Definition spawn_item (roomId victimId suffix : string) (typeRoll : Q)
    (st : state) : state :=
  match room_at st roomId with
  | None => st
  | Some (l, roomRef) =>
    match players roomRef !! victimId with
    | None => st
    | Some victim =>
      if qle (health victim) 0 then
        let itemId := pretty (now st) +:+ suffix in
        let itemType := if qlt (1 # 2) typeRoll then 50 else 51 in
        let itemData := {| i_id := itemId; i_x := p_x victim;
                           i_y := p_y victim; i_type := itemType |} in
        let st :=
          store l (set_items (<[itemId := itemData]>) roomRef) st in
        let st := emit (ToRoom roomId) (itemSpawn itemData) st in
        setTimeout (ItemExpiry l roomId itemId) 5000 st
      else st
    end
  end.

(** [playerHit], for a victim id and a shooter id of which [players] and
    [scores] inherit no property: [room.players[victimId]] is then a
    player of the room or undefined, and [room.scores[shooterId]] a score
    or undefined. *)
Definition playerHit (d : hit_data) (suffix : string) (typeRoll : Q)
    (st : state) : state :=
  let roomId := h_roomId d in
  let victimId := h_victimId d in
  let shooterId := h_shooterId d in
  match room_at st roomId with
  | None => st
  | Some (l, room) =>
    if negb (is_playing (status room)) then st
    else
      match players room !! victimId with
      | None => st
      | Some victim =>
        let victim :=
          {| p_x := p_x victim; p_y := p_y victim;
             p_angle := p_angle victim;
             health := health victim - h_damage d;
             p_id := p_id victim; isDead := isDead victim;
             p_name := p_name victim |} in
        let room := set_players (<[victimId := victim]>) room in
        let st := store l room st in
        let st := emit (ToRoom roomId)
                    (healthUpdate victimId (health victim) None) st in
        let st :=
          if qle (health victim) 0 then
            let room :=
              match alist_get shooterId (scores room) with
              | Some sc =>
                set_scores (alist_set shooterId (sc + 1) (scores room)) room
              | None => room
              end in
            let victim :=
              {| p_x := p_x victim; p_y := p_y victim;
                 p_angle := p_angle victim; health := health victim;
                 p_id := p_id victim; isDead := true;
                 p_name := p_name victim |} in
            let room := set_players (<[victimId := victim]>) room in
            let st := store l room st in
            let st := emit (ToRoom roomId)
                        (healthUpdate victimId 0 (Some true)) st in
            let st := emit (ToRoom roomId)
                        (playerDied victimId shooterId (scores room)) st in
            setTimeout (Respawn roomId victimId) 3000 st
          else st in
        spawn_item roomId victimId suffix typeRoll st
      end
  end.

(** [pickupItem].  For an item id that names a member of
    [Object.prototype], [room.items[itemId]] is that member, which is not
    falsy and has no [type], and [delete] finds nothing to delete. *)
Definition pickupItem (socketId : string) (d : pickup_data) (st : state)
  : state :=
  match room_at st (k_roomId d) with
  | None => st
  | Some (l, room) =>
    match items room !! k_itemId d with
    | Some it =>
      let st :=
        emit (ToSocket socketId) (itemCollected (Some (i_type it))) st in
      let st := emit (ToRoom (k_roomId d)) (itemRemoved (k_itemId d)) st in
      store l (set_items (delete (k_itemId d)) room) st
    | None =>
      if prototype_member (k_itemId d) then
        let st := emit (ToSocket socketId) (itemCollected None) st in
        emit (ToRoom (k_roomId d)) (itemRemoved (k_itemId d)) st
      else st
    end
  end.

(** The first room, in the order of [for (const roomId in rooms)], that
    has the socket among its players. *)
Fixpoint room_of (socketId : string) (h : gmap nat room)
    (rs : list (string * nat)) : option (string * nat * room) :=
  match rs with
  | [] => None
  | (roomId, l) :: rs' =>
    match h !! l with
    | Some room =>
      match players room !! socketId with
      | Some _ => Some (roomId, l, room)
      | None => room_of socketId h rs'
      end
    | None => room_of socketId h rs'
    end
  end.

Definition disconnect (socketId : string) (st : state) : state :=
  match room_of socketId (heap st) (rooms st) with
  | None => st
  | Some (roomId, l, room) =>
    let room := set_players (delete socketId) room in
    let st := store l room st in
    let st := emit (ToRoom roomId) (playerLeft socketId) st in
    let st :=
      if (size (players room) =? 0)%nat
      then set_rooms (alist_del roomId (rooms st))
             (clearInterval (timerInterval room) st)
      else st in
    emit ToAll (roomListUpdate (getRoomList st)) st
  end.

(** *** The event loop *)

Definition run_callback (cb : callback) (random : Q) (st : state) : state :=
  match cb with
  | Respawn roomId victimId => respawn roomId victimId random st
  | ItemExpiry l roomId itemId => itemExpiry l roomId itemId st
  | Tick roomId l => tick roomId l st
  end.

(** An interval timer after it has fired: due one period later. *)
Definition rearm (tid : nat) (period : Z) (t : timer) : timer :=
  if (t_id t =? tid)%nat
  then {| t_id := t_id t; t_due := t_due t + period;
          t_every := t_every t; t_cb := t_cb t |}
  else t.

(** The timer [tid] fires: a one-shot timer is gone, an interval is armed
    again, and the callback runs with the clock at the timer's due time
    (or at the present time, if that is later). *)
Definition fire (tid : nat) (random : Q) (st : state) : state :=
  match find (fun t => (t_id t =? tid)%nat) (timers st) with
  | None => st
  | Some t =>
    let ts :=
      match t_every t with
      | Some period => map (rearm tid period) (timers st)
      | None => filter (fun t' => t_id t' <> tid) (timers st)
      end in
    run_callback (t_cb t) random
      (set_now (Z.max (now st) (t_due t)) (set_timers ts st))
  end.

(** What the server reacts to.  The values of [uuidv4()] and
    [Math.random()] that a handler draws come with the input. *)
Inductive input :=
  | on_connection (socketId : string)
  | on_requestRoomList (socketId : string)
  | on_createRoom (socketId : string) (data : create_data)
      (uuid1 uuid2 : string)
  | on_joinRoom (socketId : string) (data : join_data)
  | on_playerMove (socketId : string) (d : move_data)
  | on_playerShoot (socketId roomId : string)
  | on_playerHit (socketId : string) (d : hit_data) (suffix : string)
      (typeRoll : Q)
  | on_pickupItem (socketId : string) (d : pickup_data)
  | on_disconnect (socketId : string)
  | on_timer (tid : nat) (random : Q).

(** One turn of the event loop, at time [t] for a client event. *)
Definition step (t : Z) (i : input) (st : state) : state :=
  match i with
  | on_timer tid random => fire tid random st
  | _ =>
    let st := set_now (Z.max (now st) t) st in
    match i with
    | on_connection sk =>
      emit (ToSocket sk) (roomListUpdate (getRoomList st)) st
    | on_requestRoomList sk =>
      emit (ToSocket sk) (roomListUpdate (getRoomList st))
        (emit (ToSocket sk) (roomListUpdate (getRoomList st)) st)
    | on_createRoom sk data uuid1 uuid2 => createRoom sk data uuid1 uuid2 st
    | on_joinRoom sk data => joinRoom sk data st
    | on_playerMove sk d => playerMove sk d st
    | on_playerShoot sk roomId => playerShoot sk roomId st
    | on_playerHit _ d suffix typeRoll => playerHit d suffix typeRoll st
    | on_pickupItem sk d => pickupItem sk d st
    | on_disconnect sk => disconnect sk st
    | on_timer _ _ => st
    end
  end.

Definition run (inputs : list (Z * input)) (st : state) : state :=
  fold_left (fun st '(t, i) => step t i st) inputs st.

(** *** Vocabulary for the properties *)

(** The victim as [playerHit] stores it: health lowered by the damage, and
    [isDead] as given. *)
Definition hit_victim (victim : player) (damage : Q) (dead : bool) : player :=
  {| p_x := p_x victim; p_y := p_y victim; p_angle := p_angle victim;
     health := health victim - damage; p_id := p_id victim; isDead := dead;
     p_name := p_name victim |}.

(** The score map after a kill claimed by [shooterId], for a shooter id
    that is a key of the map or names no inherited property. *)
Definition kill_scores (shooterId : string) (sc : list (string * Z))
  : list (string * Z) :=
  match alist_get shooterId sc with
  | Some n => alist_set shooterId (n + 1) sc
  | None => sc
  end.

(** [k] is a key of the object [m] itself, or names no property that [m]
    could inherit: [m[k]] is then the entry of [k], or undefined. *)
Definition plain_key {V} (k : string) (m : list (string * V)) : Prop :=
  is_Some (alist_get k m) \/ inherited k = false.


(** The item dropped where [victim] stands at time [t]. *)
Definition loot (t : Z) (suffix : string) (typeRoll : Q) (victim : player)
  : item :=
  {| i_id := pretty t +:+ suffix; i_x := p_x victim; i_y := p_y victim;
     i_type := if qlt (1 # 2) typeRoll then 50 else 51 |}.

(** The events of a list of messages, and how often each kind occurs. *)
Definition is_death_notice (victimId : string) (m : target * event) : bool :=
  match snd m with
  | healthUpdate id _ (Some true) => String.eqb id victimId
  | _ => false
  end.

Definition is_playerDied (victimId : string) (m : target * event) : bool :=
  match snd m with
  | playerDied v _ _ => String.eqb v victimId
  | _ => false
  end.

Definition is_itemSpawn (m : target * event) : bool :=
  match snd m with
  | itemSpawn _ => true
  | _ => false
  end.

Definition is_itemRemoved (itemId : string) (m : target * event) : bool :=
  match snd m with
  | itemRemoved i => String.eqb i itemId
  | _ => false
  end.

Definition is_spawn_of (itemId : string) (m : target * event) : bool :=
  match snd m with
  | itemSpawn it => String.eqb (i_id it) itemId
  | _ => false
  end.

Definition is_playerRespawn (m : target * event) : bool :=
  match snd m with
  | playerRespawn _ _ => true
  | _ => false
  end.

Definition count (f : target * event -> bool) (ms : list (target * event))
  : nat := length (List.filter f ms).

(** The messages that [st'] has and [st] has not. *)
Definition sent (st st' : state) (ms : list (target * event)) : Prop :=
  emitted st' = emitted st ++ ms.


(** The room that [sk] created with [n] seconds to play, [tl] seconds
    before the end. *)
Definition fresh_room (sk roomId un : string) (tid : nat) (tl : Z)
    (s : Status) : room :=
  {| r_id := roomId; players := <[sk := new_player sk un]> ∅; items := ∅;
     timeLeft := tl; status := s; scores := [(sk, 0)];
     timerInterval := Some tid |}.



(** *** Invariants of the state *)

Definition is_tick (cb : callback) : bool :=
  match cb with Tick _ _ => true | _ => false end.

(** [cb] is the expiry of the item [itemId]. *)
Definition expires (itemId : string) (cb : callback) : bool :=
  match cb with
  | ItemExpiry _ _ i => String.eqb i itemId
  | _ => false
  end.

(** A room that is being played has somebody on its score board, and no
    score is negative. *)
Definition good_scores (r : room) : Prop :=
  (status r = PLAYING -> scores r <> []) /\
  forall e, e ∈ scores r -> 0 <= snd e.

(** Timer handles are never used twice; room objects are allocated in
    order; the [timerInterval] of a room names the interval of a
    countdown, if it names a timer at all; every other timer is a
    one-shot; an item's expiry is due 5000 ms after the instant that
    its id records; and every score board is a good one. *)
Record wf (st : state) : Prop := {
  wf_timer_ids :
    forall t, t ∈ timers st -> (t_id t < next_timer st)%nat;
  wf_timer_nodup : NoDup (map t_id (timers st));
  wf_heap : forall l, is_Some (heap st !! l) -> (l < next_ref st)%nat;
  wf_interval :
    forall l r tid,
      heap st !! l = Some r -> timerInterval r = Some tid ->
      (tid < next_timer st)%nat /\
      forall t, t ∈ timers st -> t_id t = tid -> is_tick (t_cb t) = true;
  wf_oneshot :
    forall t, t ∈ timers st -> is_tick (t_cb t) = false -> t_every t = None;
  wf_expiry_due :
    forall t l rid i,
      t ∈ timers st -> t_cb t = ItemExpiry l rid i ->
      exists T sfx, i = pretty T +:+ sfx /\ t_due t = T + 5000;
  wf_scores : forall l r, heap st !! l = Some r -> good_scores r
}.

(** The items of the room object [l]. *)
Definition items_at (st : state) (l : nat) : gmap string item :=
  match heap st !! l with
  | Some r => items r
  | None => ∅
  end.


Definition spawned (st : state) (i : string) : nat :=
  count (is_spawn_of i) (emitted st).

Definition removed (st : state) (i : string) : nat :=
  count (is_itemRemoved i) (emitted st).



(** Nothing that concerns item [i] differs between [st] and [st']. *)
Definition same_item (i : string) (st st' : state) : Prop :=
  (forall l, items_at st' l !! i = items_at st l !! i) /\
  spawned st' i = spawned st i /\
  removed st' i = removed st i /\
  (forall t, expires i (t_cb t) = true ->
             (t ∈ timers st' <-> t ∈ timers st)).

(** [st'] is well-formed and agrees with [st] on the items selected by
    [P]. *)
Definition frame (P : string -> Prop) (st st' : state) : Prop :=
  wf st' /\ forall i, P i -> same_item i st st'.



End Server.

(** * Scenarios

    Concrete inputs on which the definitions above are evaluated. *)

Module Scenario.

(** A 3 x 3 grid: one open cell inside a closed ring of walls. *)
Definition ring3 : list (list Z) := [[1; 1; 1]; [1; 0; 1]; [1; 1; 1]].

(** The same grid with the wall at cell (1, 0) missing. *)
Definition gap3 : list (list Z) := [[1; 1; 1]; [0; 0; 1]; [1; 1; 1]].

Definition wall_textures : gmap Z (list Texture) :=
  {[ 1 := [ {| t_width := 64; t_height := 64 |} ] ]}.

Definition camera (p d pl : Vector2) : Player :=
  {| pos := p; dir := d; plane := pl; p_health := 100; ammo := 30;
     ammoReserve := 90; p_z := 0; p_vz := 0; pitch := 0; weaponIndex := 0 |}.

(** In the middle of the open cell, looking along -x. *)
Definition cam_centre : Player :=
  camera {| vx := 3 # 2; vy := 3 # 2 |} {| vx := -1; vy := 0 |}
         {| vx := 0; vy := 33 # 50 |}.

(** In the open cell, looking along -y, towards the missing wall. *)
Definition cam_gap : Player :=
  camera {| vx := 3 # 2; vy := 3 # 2 |} {| vx := 0; vy := -1 |}
         {| vx := 33 # 50; vy := 0 |}.

(** On the grid line x = 1 of the open cell, looking along -x. *)
Definition cam_line : Player :=
  camera {| vx := 1; vy := 3 # 2 |} {| vx := -1; vy := 0 |}
         {| vx := 0; vy := 33 # 50 |}.

(** In the open cell, a quarter of a cell from the grid line x = 1, looking
    along +y and along -y. *)
Definition cam_up : Player :=
  camera {| vx := 5 # 4; vy := 3 # 2 |} {| vx := 0; vy := 1 |}
         {| vx := 33 # 50; vy := 0 |}.

Definition cam_down : Player :=
  camera {| vx := 5 # 4; vy := 3 # 2 |} {| vx := 0; vy := -1 |}
         {| vx := 33 # 50; vy := 0 |}.

(** A camera at the origin looking along +x, and a sprite one unit ahead. *)
Definition cam_origin : Player :=
  camera {| vx := 0; vy := 0 |} {| vx := 1; vy := 0 |}
         {| vx := 0; vy := 33 # 50 |}.

Definition guard : Raycaster.Sprite :=
  {| Raycaster.s_pos := {| vx := 1; vy := 0 |};
     Raycaster.s_textureId := 10 |}.

Definition sprite_textures : gmap Z (list Texture) :=
  {[ 10 := [ {| t_width := 64; t_height := 64 |} ] ]}.

(** Walls five units away in each of four columns. *)
Definition far_walls : list num := [Fin 5; Fin 5; Fin 5; Fin 5].

(** A 5 x 5 grid with a 3 x 3 open room. *)
Definition room5 : list (list Z) :=
  [[1; 1; 1; 1; 1]; [1; 0; 0; 0; 1]; [1; 0; 0; 0; 1];
   [1; 0; 0; 0; 1]; [1; 1; 1; 1; 1]].

(** Square roots, exact on the perfect squares the scenarios use. *)
Definition game_constants : Game.constants :=
  {| Game.SCREEN_HEIGHT := 480; Game.FOV := 33 # 50;
     Game.sqrt := fun q => inject_Z (Z.sqrt (Qfloor q)) |}.

Definition rifle : Game.Weapon :=
  {| Game.damage := 25; Game.headshotMultiplier := 2; Game.fireRate := 100;
     Game.isAuto := true; Game.recoil := 1 |}.

Definition enemy_at (id : Z) (x y hp : Q) : Game.Enemy :=
  {| Game.e_id := id; Game.e_pos := {| vx := x; vy := y |};
     Game.e_state := Game.IDLE; Game.e_health := hp; Game.e_textureId := 10;
     Game.e_networkId := None |}.

(** The shooter stands at (1.5, 2.5), looks along +x with the view pitched
    by 100 pixels; a dead enemy one cell ahead, a live one two cells ahead
    and a live one off the view axis. *)
Definition duel : Game.shoot_env :=
  {| Game.player :=
       {| pos := {| vx := 3 # 2; vy := 5 # 2 |}; dir := {| vx := 1; vy := 0 |};
          plane := {| vx := 0; vy := 33 # 50 |}; p_health := 100; ammo := 30;
          ammoReserve := 90; p_z := 0; p_vz := 0; pitch := 100;
          weaponIndex := 0 |};
     Game.enemies := [enemy_at 1 (5 # 2) (5 # 2) 0;
                      enemy_at 2 (7 # 2) (5 # 2) 100;
                      enemy_at 3 (5 # 2) (7 # 2) 100];
     Game.map := room5;
     Game.weapon := rifle;
     Game.now := 1000; Game.lastShotTime := 0; Game.lastDryFireTime := 0;
     Game.isReloading := false; Game.isInfiniteAmmo := false;
     Game.isMultiplayer := false;
     Game.currentFovScale := 33 # 50;
     Game.random := 1 # 2 |}.

(** A room "R" of two minutes, created by socket "a" and joined by "v". *)
Definition arena : Server.state :=
  Server.run
    [(0, Server.on_createRoom "a"
           (Server.CreateObj (Some "r") (Some 2) (Some "Ann")) "u1" "u2");
     (10, Server.on_joinRoom "v" (Server.JoinObj "R" (Some "Vic")))]
    Server.init.

Definition room_of_state (st : Server.state) (roomId : string) : Server.room :=
  match Server.room_at st roomId with
  | Some (_, r) => r
  | None => Server.new_room roomId 0
  end.

Definition arena_room : Server.room := room_of_state arena "R".

(** "a" claims a hit of 100 on "v"; so does "ghost", who is in no room. *)
Definition kill_shot : Server.hit_data :=
  {| Server.h_roomId := "R"; Server.h_damage := 100;
     Server.h_shooterId := "a"; Server.h_victimId := "v" |}.

Definition ghost_shot : Server.hit_data :=
  {| Server.h_roomId := "R"; Server.h_damage := 100;
     Server.h_shooterId := "ghost"; Server.h_victimId := "v" |}.

(** The state after "a" has claimed the kill once, at time 1000, and
    again one millisecond later. *)
Definition after_kill : Server.state :=
  Server.step 1000 (Server.on_playerHit "a" kill_shot "abcde" (3 # 4)) arena.

Definition after_second_claim : Server.state :=
  Server.step 1001 (Server.on_playerHit "a" kill_shot "fghij" (1 # 4))
    after_kill.




End Scenario.

(** ** The match server: how rooms change *)

Module Rooms.

Import Server.

(** WAITING, then PLAYING, then FINISHED. *)
Definition status_rank (s : Status) : nat :=
  match s with WAITING => 0 | PLAYING => 1 | FINISHED => 2 end.

(** What stays or grows in a room object from one moment ([r]) to a later
    one ([r']): the id stays, the countdown does not go up, the status does
    not go back, the handle of the countdown stays once it is set, and no
    key leaves the score map. *)
Definition room_evolves (r r' : room) : Prop :=
  r_id r' = r_id r /\
  timeLeft r' <= timeLeft r /\
  (status_rank (status r) <= status_rank (status r'))%nat /\
  (forall tid, timerInterval r = Some tid -> timerInterval r' = Some tid) /\
  (forall k, is_Some (alist_get k (scores r)) ->
             is_Some (alist_get k (scores r'))).

(** Every room object of [st] is still there in [st'], evolved. *)
Definition evolves (st st' : state) : Prop :=
  forall l r, heap st !! l = Some r ->
    exists r', heap st' !! l = Some r' /\ room_evolves r r'.


End Rooms.

(** ** NetworkManager: the client's end of the socket *)

Module Client.

(** An item id: a counter value in a local game, the server's string in a
    networked one. *)
Inductive item_id := IdNum (n : Z) | IdStr (s : string).

(** [socket] tells whether [connect] has made the socket; [roomId] is
    [None] for [null] and [undefined]. *)
Record net := {
  socket : bool;
  playerId : option string;
  roomId : option string;
  players : gmap string Server.player;
  timeLeft : Z
}.

Definition start : net :=
  {| socket := false; playerId := None; roomId := None; players := ∅;
     timeLeft := 300 |}.

(** The callbacks that are set (not [null]). *)
Record callbacks := {
  onStateUpdate : bool;
  onRoomJoined : bool;
  onRoomListUpdate : bool;
  onTimeUpdate : bool;
  onGameOver : bool;
  onPlayerDied : bool;
  onPlayerRespawn : bool;
  onHealthUpdate : bool;
  onItemSpawn : bool;
  onItemRemoved : bool;
  onItemCollected : bool;
  onPlayerLeft : bool;
  onWaitingForPlayers : bool;
  onGameResumed : bool
}.

(** A callback is called. *)
Inductive call :=
  | StateUpdate (ps : gmap string Server.player)
  | RoomJoined (roomId : option string)
  | RoomListUpdate (rooms : list Server.room_summary)
  | TimeUpdate (time : Z)
  | GameOver (winnerId : option string) (winnerName : string)
      (sc : list (string * Z))
  | PlayerDied (victimId killerId : string) (sc : list (string * Z))
  | PlayerRespawn (x y : Q)
  | HealthUpdate (id : string) (hp : Q) (dead : option bool)
  | ItemSpawn (it : Server.item)
  | ItemRemoved (itemId : string)
  | ItemCollected (type : option Z)
  | PlayerLeft (id : string)
  | WaitingForPlayers (timeout : Z)
  | GameResumed.

(** What arrives, as the listeners of [connect] read it.  The listener of
    [playerJoined] reads [data.id], [data.roomId], [data.currentPlayers]
    and [data.timeLeft]. *)
Inductive message :=
  | m_connect (socketId : string)
  | m_roomListUpdate (rooms : list Server.room_summary)
  | m_playerJoined (id : string) (roomId : option string)
      (currentPlayers : gmap string Server.player) (tl : Z)
  | m_playerLeft (id : string)
  | m_waitingForPlayers (timeout : Z)
  | m_gameResumed
  | m_playerMoved (id : string) (x y angle : Q)
  | m_otherPlayerShot (id : string)
  | m_healthUpdate (id : string) (hp : Q) (dead : option bool)
  | m_timeUpdate (time : Z)
  | m_gameOver (winnerId : option string) (winnerName : string)
      (sc : list (string * Z))
  | m_playerDied (victimId killerId : string) (sc : list (string * Z))
  | m_playerRespawn (x y : Q)
  | m_itemSpawn (it : Server.item)
  | m_itemRemoved (itemId : string)
  | m_itemCollected (type : option Z)
  | m_playerHit.

(** What the client emits. *)
Inductive request :=
  | r_requestRoomList
  | r_createRoom (customId : option string) (duration : Z) (username : string)
  | r_joinRoom (roomId username : string)
  | r_playerMove (roomId : string) (x y angle : Q)
  | r_playerShoot (roomId : string)
  | r_playerHit (roomId : string) (shooterId : option string)
      (victimId : string) (damage : Q)
  | r_pickupItem (roomId : string) (itemId : item_id).

Definition set_playerId (o : option string) (n : net) : net :=
  {| socket := socket n; playerId := o; roomId := roomId n;
     players := players n; timeLeft := timeLeft n |}.

Definition set_roomId (o : option string) (n : net) : net :=
  {| socket := socket n; playerId := playerId n; roomId := o;
     players := players n; timeLeft := timeLeft n |}.

Definition set_players (ps : gmap string Server.player) (n : net) : net :=
  {| socket := socket n; playerId := playerId n; roomId := roomId n;
     players := ps; timeLeft := timeLeft n |}.

Definition set_timeLeft (t : Z) (n : net) : net :=
  {| socket := socket n; playerId := playerId n; roomId := roomId n;
     players := players n; timeLeft := t |}.

(** [if (this.onX) this.onX(...)] *)
Definition when (b : bool) (c : call) : list call := if b then [c] else [].

(** [this.socket?.emit(...)] *)
Definition emit (n : net) (r : request) : list request :=
  if socket n then [r] else [].

(** [connect()], up to the making of the socket: nothing the second
    time. *)
Definition connect (n : net) : net :=
  if socket n then n
  else {| socket := true; playerId := playerId n; roomId := roomId n;
          players := players n; timeLeft := timeLeft n |}.

Definition requestRoomList (n : net) : list request :=
  emit n r_requestRoomList.

Definition createRoom (customId : option string) (duration : Z)
    (username : string) (n : net) : list request :=
  emit n (r_createRoom customId duration username).

Definition joinRoom (rid username : string) (n : net)
  : net * list request :=
  let n := set_roomId (Some rid) n in
  (n, emit n (r_joinRoom rid username)).

(** [if (!this.roomId) return;] and then the emit. *)
Definition in_room (n : net) (f : string -> request) : list request :=
  match Server.truthy (roomId n) with
  | Some rid => emit n (f rid)
  | None => []
  end.

Definition sendMove (x y angle : Q) (n : net) : list request :=
  in_room n (fun rid => r_playerMove rid x y angle).

Definition sendShoot (n : net) : list request :=
  in_room n r_playerShoot.

Definition sendHit (victimId : string) (damage : Q) (n : net)
  : list request :=
  in_room n (fun rid => r_playerHit rid (playerId n) victimId damage).

Definition sendPickup (itemId : item_id) (n : net) : list request :=
  in_room n (fun rid => r_pickupItem rid itemId).

Definition moved (x y angle : Q) (p : Server.player) : Server.player :=
  {| Server.p_x := x; Server.p_y := y; Server.p_angle := angle;
     Server.health := Server.health p; Server.p_id := Server.p_id p;
     Server.isDead := Server.isDead p; Server.p_name := Server.p_name p |}.

Definition hurt (hp : Q) (dead : option bool) (p : Server.player)
  : Server.player :=
  {| Server.p_x := Server.p_x p; Server.p_y := Server.p_y p;
     Server.p_angle := Server.p_angle p; Server.health := hp;
     Server.p_id := Server.p_id p;
     Server.isDead := default (Server.isDead p) dead;
     Server.p_name := Server.p_name p |}.

(** The listeners that [connect] registers, in the order of their
    registration; [timeUpdate] and [gameOver] have two each. *)
Definition on_message (cb : callbacks) (m : message) (n : net)
  : net * list call * list request :=
  match m with
  | m_connect socketId =>
    let n := set_playerId (Server.truthy (Some socketId)) n in
    (n, [], requestRoomList n)
  | m_roomListUpdate rooms =>
    (n, when (onRoomListUpdate cb) (RoomListUpdate rooms), [])
  | m_playerJoined id rid currentPlayers tl =>
    let n := set_players currentPlayers n in
    let '(n, calls) :=
      if bool_decide (playerId n = Some id) then
        let n := set_roomId rid n in
        (n,
         (if tl =? 0 then [] else when (onTimeUpdate cb) (TimeUpdate tl)) ++
         when (onRoomJoined cb) (RoomJoined (roomId n)))
      else (n, []) in
    (n, calls ++ when (onStateUpdate cb) (StateUpdate (players n)), [])
  | m_playerLeft id =>
    let n := set_players (delete id (players n)) n in
    (n, when (onStateUpdate cb) (StateUpdate (players n)) ++
        when (onPlayerLeft cb) (PlayerLeft id), [])
  | m_waitingForPlayers timeout =>
    (n, when (onWaitingForPlayers cb) (WaitingForPlayers timeout), [])
  | m_gameResumed => (n, when (onGameResumed cb) GameResumed, [])
  | m_playerMoved id x y angle =>
    match players n !! id with
    | Some p => (set_players (<[id := moved x y angle p]> (players n)) n,
                 [], [])
    | None => (n, [], [])
    end
  | m_otherPlayerShot _ => (n, [], [])
  | m_healthUpdate id hp dead =>
    let n :=
      match players n !! id with
      | Some p => set_players (<[id := hurt hp dead p]> (players n)) n
      | None => n
      end in
    (n, when (onHealthUpdate cb) (HealthUpdate id hp dead), [])
  | m_timeUpdate time =>
    (set_timeLeft time n,
     when (onTimeUpdate cb) (TimeUpdate time) ++
     when (onTimeUpdate cb) (TimeUpdate time), [])
  | m_gameOver w wn sc =>
    (n, when (onGameOver cb) (GameOver w wn sc) ++
        when (onGameOver cb) (GameOver w wn sc), [])
  | m_playerDied v k sc => (n, when (onPlayerDied cb) (PlayerDied v k sc), [])
  | m_playerRespawn x y =>
    (n, when (onPlayerRespawn cb) (PlayerRespawn x y), [])
  | m_itemSpawn it => (n, when (onItemSpawn cb) (ItemSpawn it), [])
  | m_itemRemoved i => (n, when (onItemRemoved cb) (ItemRemoved i), [])
  | m_itemCollected ty => (n, when (onItemCollected cb) (ItemCollected ty), [])
  | m_playerHit => (n, [], [])
  end.

(** The messages of the server as they reach a listener.  The object that
    [joinRoomInternal] sends with [playerJoined] has the keys [id], [name],
    [currentPlayers] and [timeLeft], and no [roomId]; [error] and
    [roomCreated] have no listener. *)
Definition wire (ev : Server.event) : option message :=
  match ev with
  | Server.roomListUpdate l => Some (m_roomListUpdate l)
  | Server.error _ => None
  | Server.roomCreated _ => None
  | Server.playerJoined id _ ps tl => Some (m_playerJoined id None ps tl)
  | Server.playerLeft id => Some (m_playerLeft id)
  | Server.playerMoved id x y a => Some (m_playerMoved id x y a)
  | Server.otherPlayerShot id => Some (m_otherPlayerShot id)
  | Server.healthUpdate id hp dead => Some (m_healthUpdate id hp dead)
  | Server.playerDied v k sc => Some (m_playerDied v k sc)
  | Server.playerRespawn x y => Some (m_playerRespawn x y)
  | Server.itemSpawn it => Some (m_itemSpawn it)
  | Server.itemRemoved i => Some (m_itemRemoved i)
  | Server.itemCollected ty => Some (m_itemCollected ty)
  | Server.timeUpdate tl => Some (m_timeUpdate tl)
  | Server.gameOver w wn sc => Some (m_gameOver w wn sc)
  end.

(** Whether a message of the server reaches the socket [me], which has
    joined the socket.io rooms [joined] (and the room of its own id). *)
Definition reaches (me : string) (joined : list string)
    (tg : Server.target) : bool :=
  match tg with
  | Server.ToSocket s => String.eqb s me
  | Server.ToRoom r => String.eqb r me || bool_decide (r ∈ joined)
  | Server.ToRoomExcept r s =>
    (String.eqb r me || bool_decide (r ∈ joined)) && negb (String.eqb s me)
  | Server.ToAll => true
  end.

(** The client takes, in their order, the messages that reach it. *)
Definition receive (cb : callbacks) (me : string) (joined : list string)
    (ms : list (Server.target * Server.event)) (n : net) : net :=
  fold_left
    (fun n '(tg, ev) =>
       if reaches me joined tg then
         match wire ev with
         | Some m => fst (fst (on_message cb m n))
         | None => n
         end
       else n)
    ms n.

End Client.

(** ** The Game component: the frame loop *)

Module GameLoop.

(** What the component reads of the constants and types modules besides
    [SCREEN_HEIGHT] and [FOV], and the functions of [Math] that have no
    exact counterpart on rationals. *)
Record settings := {
  CLIP_SIZE : Z;
  MAX_RESERVE : Z;
  START_AMMO : Z;
  START_RESERVE : Z;
  MOVE_SPEED : Q;
  MAX_ENEMIES : Z;
  SPAWN_INTERVAL : Q;
  SPAWN_POINTS : list Vector2;
  WEAPONS : list Game.Weapon;
  HEALTH_ORB : Z;
  ENEMY_GUARD : Z;
  ENEMY_GUARD_DEAD : Z;
  cos : Q -> Q;
  sin : Q -> Q
}.

Definition GRAVITY : Q := 25.
Definition JUMP_FORCE : Q := 17 # 2.

Definition with_pos (v : Vector2) (p : Player) : Player :=
  {| pos := v; dir := dir p; plane := plane p; p_health := p_health p;
     ammo := ammo p; ammoReserve := ammoReserve p; p_z := p_z p;
     p_vz := p_vz p; pitch := pitch p; weaponIndex := weaponIndex p |}.

Definition with_dir (v : Vector2) (p : Player) : Player :=
  {| pos := pos p; dir := v; plane := plane p; p_health := p_health p;
     ammo := ammo p; ammoReserve := ammoReserve p; p_z := p_z p;
     p_vz := p_vz p; pitch := pitch p; weaponIndex := weaponIndex p |}.

Definition with_plane (v : Vector2) (p : Player) : Player :=
  {| pos := pos p; dir := dir p; plane := v; p_health := p_health p;
     ammo := ammo p; ammoReserve := ammoReserve p; p_z := p_z p;
     p_vz := p_vz p; pitch := pitch p; weaponIndex := weaponIndex p |}.

Definition with_health (h : Q) (p : Player) : Player :=
  {| pos := pos p; dir := dir p; plane := plane p; p_health := h;
     ammo := ammo p; ammoReserve := ammoReserve p; p_z := p_z p;
     p_vz := p_vz p; pitch := pitch p; weaponIndex := weaponIndex p |}.

Definition with_ammo (a r : Z) (p : Player) : Player :=
  {| pos := pos p; dir := dir p; plane := plane p; p_health := p_health p;
     ammo := a; ammoReserve := r; p_z := p_z p;
     p_vz := p_vz p; pitch := pitch p; weaponIndex := weaponIndex p |}.

Definition with_jump (z vz : Q) (p : Player) : Player :=
  {| pos := pos p; dir := dir p; plane := plane p; p_health := p_health p;
     ammo := ammo p; ammoReserve := ammoReserve p; p_z := z;
     p_vz := vz; pitch := pitch p; weaponIndex := weaponIndex p |}.

Definition with_pitch (a : Q) (p : Player) : Player :=
  {| pos := pos p; dir := dir p; plane := plane p; p_health := p_health p;
     ammo := ammo p; ammoReserve := ammoReserve p; p_z := p_z p;
     p_vz := p_vz p; pitch := a; weaponIndex := weaponIndex p |}.

Definition with_weapon (i : Z) (p : Player) : Player :=
  {| pos := pos p; dir := dir p; plane := plane p; p_health := p_health p;
     ammo := ammo p; ammoReserve := ammoReserve p; p_z := p_z p;
     p_vz := p_vz p; pitch := pitch p; weaponIndex := i |}.

(** [Math.max] and [Math.min] on the numbers at hand. *)
Definition qmax (a b : Q) : Q := if qlt a b then b else a.
Definition qmin (a b : Q) : Q := if qlt b a then b else a.

(** *** [reload] *)

(** The guards of [reload]: whether the reload starts. *)
Definition reload_starts (K : settings) (isInfiniteAmmo isReloading : bool)
    (p : Player) : bool :=
  if isInfiniteAmmo || isReloading || (ammo p =? CLIP_SIZE K)
     || (ammoReserve p =? 0)
  then false
  else negb (qle (p_health p) 0).

(** The callback of its [setTimeout], on the player that it captured. *)
Definition reload_done (K : settings) (p : Player) : Player :=
  let needed := CLIP_SIZE K - ammo p in
  let available := Z.min needed (ammoReserve p) in
  with_ammo (ammo p + available) (ammoReserve p - available) p.

(** *** [handleWheel] *)

(** [%] is the remainder that takes the sign of the dividend. *)
Definition handleWheel (K : settings) (isPaused isReloading : bool)
    (deltaY : Q) (p : Player) : Player :=
  if isPaused || isReloading || qle (p_health p) 0 then p
  else
    let n := Z.of_nat (length (WEAPONS K)) in
    if qlt 0 deltaY
    then with_weapon (Z.rem (weaponIndex p + 1) n) p
    else with_weapon (Z.rem (weaponIndex p - 1 + n) n) p.

(** *** [jump] *)

Definition jump (p : Player) : Player :=
  if qeq (p_z p) 0 then with_jump (p_z p) JUMP_FORCE p else p.

(** *** [tick]: the length of a frame *)

(** [Math.min(0.1, (time - lastTime) / 1000)] *)
Definition frame_dt (time lastTime : Q) : Q :=
  qmin (1 # 10) ((time - lastTime) / 1000).

(** *** [updatePhysics] *)

Record Item := {
  it_id : Client.item_id;
  it_pos : Vector2;
  it_textureId : Z;
  it_spawnTime : Q
}.

Record Keys := { KeyW : bool; KeyS : bool; KeyA : bool; KeyD : bool }.

(** The game state and the refs that [updatePhysics] reads and writes. *)
Record loop := {
  player : Player;
  items : list Item;
  swayPos : Vector2;
  swayTarget : Vector2;
  currentFovScale : Q;
  walkCycle : Q;
  recoilImpulse : Q
}.

Definition with_player (p : Player) (s : loop) : loop :=
  {| player := p; items := items s; swayPos := swayPos s;
     swayTarget := swayTarget s; currentFovScale := currentFovScale s;
     walkCycle := walkCycle s; recoilImpulse := recoilImpulse s |}.

(** *** [handleMouseMove] *)

(** The player after the turn of the view, lines 427-436. *)
Definition turn_view (k : Game.constants) (K : settings) (isZooming : bool)
    (sensitivity movementX movementY : Q) (p : Player) : Player :=
  let baseSensitivityX := if isZooming then (5 # 10000)%Q
                          else (22 # 10000)%Q in
  let sensitivityX := (baseSensitivityX * sensitivity)%Q in
  let rotX := (- movementX * sensitivityX)%Q in
  let oldDirX := vx (dir p) in
  let dx := (vx (dir p) * cos K rotX - vy (dir p) * sin K rotX)%Q in
  let dy := (oldDirX * sin K rotX + vy (dir p) * cos K rotX)%Q in
  let pitch1 := (pitch p - movementY * 1)%Q in
  let maxPitch := (Game.SCREEN_HEIGHT k / (3 # 2))%Q in
  with_pitch (qmax (- maxPitch) (qmin maxPitch pitch1))
    (with_dir {| vx := dx; vy := dy |} p).

(** The listener; [pointerLocked] is
    [document.pointerLockElement === canvas]. *)
Definition handleMouseMove (k : Game.constants) (K : settings)
    (isPaused pointerLocked isZooming : bool) (keys : Keys)
    (sensitivity movementX movementY : Q) (s : loop) : loop :=
  if qle (p_health (player s)) 0 || isPaused then s
  else if pointerLocked then
    let p := turn_view k K isZooming sensitivity movementX movementY
               (player s) in
    let isMoving := KeyW keys || KeyS keys || KeyA keys || KeyD keys in
    let target :=
      if isMoving
      then {| vx := vx (swayTarget s) + movementX * (1 # 2);
              vy := vy (swayTarget s) + movementY * (1 # 2) |}
      else swayTarget s in
    {| player := p; items := items s; swayPos := swayPos s;
       swayTarget := target; currentFovScale := currentFovScale s;
       walkCycle := walkCycle s; recoilImpulse := recoilImpulse s |}
  else s.

(** Gravity, the first statement of [updatePhysics]. *)
Definition fall (dt : Q) (p : Player) : Player :=
  if qlt 0 (p_z p) || negb (qeq (p_vz p) 0) then
    let vz := (p_vz p - GRAVITY * dt)%Q in
    let z := (p_z p + vz * dt)%Q in
    if qlt z 0 then with_jump 0 0 p else with_jump z vz p
  else p.

(** The direction that the keys ask for. *)
Definition wish (keys : Keys) (p : Player) : Q * Q :=
  let '(dx, dy) := (0, 0)%Q in
  let '(dx, dy) := if KeyW keys then (dx + vx (dir p), dy + vy (dir p))%Q
                   else (dx, dy) in
  let '(dx, dy) := if KeyS keys then (dx - vx (dir p), dy - vy (dir p))%Q
                   else (dx, dy) in
  let '(dx, dy) := if KeyA keys then (dx - vy (dir p), dy + vx (dir p))%Q
                   else (dx, dy) in
  if KeyD keys then (dx + vy (dir p), dy - vx (dir p))%Q else (dx, dy).

(** Weapon sway: the target and the position after the frame. *)
Definition sway (isMoving : bool) (dt : Q) (target position : Vector2)
  : Vector2 * Vector2 :=
  let '(target, position) :=
    if negb isMoving then
      let px := (vx position + (0 - vx position) * 20 * dt)%Q in
      let py := (vy position + (0 - vy position) * 20 * dt)%Q in
      let px := if qlt (Qabs px) (1 # 10) then 0%Q else px in
      let py := if qlt (Qabs py) (1 # 10) then 0%Q else py in
      ({| vx := 0; vy := 0 |}, {| vx := px; vy := py |})
    else
      let tx := (vx target - vx target * 10 * dt)%Q in
      let ty := (vy target - vy target * 10 * dt)%Q in
      ({| vx := tx; vy := ty |},
       {| vx := vx position + (tx - vx position) * 10 * dt;
          vy := vy position + (ty - vy position) * 10 * dt |}) in
  let maxSway := 40%Q in
  (target,
   {| vx := qmax (- maxSway) (qmin maxSway (vx position));
      vy := qmax (- maxSway) (qmin maxSway (vy position)) |}).

(** The zoom: the field-of-view scale after the frame. *)
Definition zoom_step (k : Game.constants) (isZooming : bool) (dt : Q)
    (scale : Q) : Q :=
  let targetFov := if isZooming then (33 # 100)%Q else Game.FOV k in
  (scale + (targetFov - scale) * 8 * dt)%Q.

Definition near (k : Game.constants) (p : Player) (it : Item) : bool :=
  qlt (Game.sqrt k ((vx (pos p) - vx (it_pos it)) ^ 2 +
                    (vy (pos p) - vy (it_pos it)) ^ 2))
      (8 # 10).

Definition expired (now : Q) (it : Item) : bool :=
  qlt 5000 (now - it_spawnTime it).

(** What picking up [it] does in a local game. *)
Definition collect (K : settings) (it : Item) (p : Player) : Player :=
  if it_textureId it =? HEALTH_ORB K
  then with_health (qmin 100 (p_health p + 30)) p
  else with_ammo (ammo p)
         (Z.min (MAX_RESERVE K) (ammoReserve p + CLIP_SIZE K * 2)) p.

(** [for (let i = items.length - 1; i >= 0; i--)]: the items from the last
    to the first; the result has the player, the items that are left, in
    their order, and the arguments of the calls of [sendPickup], in the
    order of the calls. *)
Fixpoint items_loop (k : Game.constants) (K : settings)
    (isMultiplayer : bool) (now : Q) (its : list Item) (p : Player)
  : Player * list Item * list Client.item_id :=
  match its with
  | [] => (p, [], [])
  | it :: rest =>
    let '(p, kept, sends) := items_loop k K isMultiplayer now rest p in
    if expired now it then (p, kept, sends)
    else if near k p it then
      if isMultiplayer then (p, it :: kept, sends ++ [it_id it])
      else (collect K it p, kept, sends)
    else (p, it :: kept, sends)
  end.

(** The two collision tests of a move by [(sx, sy)]: first along x, then
    along y from where the player then is. *)
Definition slide (m : list (list Z)) (sx sy : Q) (v : Vector2) : Vector2 :=
  let x := if is_open m (Qfloor (vx v + sx)) (Qfloor (vy v))
           then (vx v + sx)%Q else vx v in
  let y := if is_open m (Qfloor x) (Qfloor (vy v + sy))
           then (vy v + sy)%Q else vy v in
  {| vx := x; vy := y |}.

(** [updatePhysics(dt)], without the sounds and the style of the weapon
    image; [now] is [performance.now()]. *)
Definition updatePhysics (k : Game.constants) (K : settings)
    (m : list (list Z)) (keys : Keys) (isZooming isMultiplayer : bool)
    (now dt : Q) (s : loop) : loop * list Client.item_id :=
  let p := fall dt (player s) in
  let '(dx, dy) := wish keys p in
  let len := Game.sqrt k (dx * dx + dy * dy) in
  let isMoving := qlt 0 len in
  let '(target, position) := sway isMoving dt (swayTarget s) (swayPos s) in
  let scale := zoom_step k isZooming dt (currentFovScale s) in
  let p := with_plane {| vx := vy (dir p) * scale;
                         vy := - vx (dir p) * scale |} p in
  let '(p, kept, sends) := items_loop k K isMultiplayer now (items s) p in
  let '(p, cycle) :=
    if qlt 0 len then
      let move := (MOVE_SPEED K * dt / len)%Q in
      (with_pos (slide m (dx * move) (dy * move) (pos p)) p,
       (walkCycle s + dt * 15)%Q)
    else (p, walkCycle s) in
  let recoil :=
    if qlt 0 (recoilImpulse s)
    then qmax 0 (recoilImpulse s - dt * 8) else recoilImpulse s in
  ({| player := p; items := kept; swayPos := position;
      swayTarget := target; currentFovScale := scale; walkCycle := cycle;
      recoilImpulse := recoil |}, sends).

(** *** [spawnEnemy] and [updateAI] *)

(** An enemy with the time of its last attack, which [shoot] does not
    read. *)
Record foe := { body : Game.Enemy; lastAttackTime : Q }.

Record spawner := {
  enemies : list foe;
  enemyIdCounter : Z;
  lastSpawnTime : Q
}.

(** [spawnEnemy(now)]; [random] is the value of [Math.random()].  [None]
    when [SPAWN_POINTS] has no entry at the index drawn, and reading its
    [x] throws. *)
Definition spawnEnemy (k : Game.constants) (K : settings) (p : Player)
    (now random : Q) (s : spawner) : option spawner :=
  if MAX_ENEMIES K <=? Z.of_nat (length (enemies s)) then Some s
  else if qlt (now - lastSpawnTime s) (SPAWN_INTERVAL K) then Some s
  else
    let i := Qfloor (random * inject_Z (Z.of_nat (length (SPAWN_POINTS K)))) in
    match (if i <? 0 then None else SPAWN_POINTS K !! Z.to_nat i) with
    | None => None
    | Some point =>
      let dx := (vx point - vx (pos p))%Q in
      let dy := (vy point - vy (pos p))%Q in
      if qlt (Game.sqrt k (dx * dx + dy * dy)) 5 then Some s
      else
        let id := enemyIdCounter s + 1 in
        Some {| enemies := enemies s ++
                  [ {| body :=
                         {| Game.e_id := id;
                            Game.e_pos := {| vx := vx point; vy := vy point |};
                            Game.e_state := Game.IDLE;
                            Game.e_health := 100;
                            Game.e_textureId := ENEMY_GUARD K;
                            Game.e_networkId := None |};
                       lastAttackTime := now |} ];
                enemyIdCounter := id;
                lastSpawnTime := now |}
    end.

Inductive Difficulty := EASY | MEDIUM | HARD.

Definition damageRanged (d : Difficulty) : Q :=
  match d with EASY => 5 | MEDIUM => 10 | HARD => 20 end.

Definition shootCooldown (d : Difficulty) : Q :=
  match d with EASY => 2500 | MEDIUM => 1800 | HARD => 1200 end.

Definition with_state (st : Game.EnemyState) (e : Game.Enemy) : Game.Enemy :=
  {| Game.e_id := Game.e_id e; Game.e_pos := Game.e_pos e;
     Game.e_state := st; Game.e_health := Game.e_health e;
     Game.e_textureId := Game.e_textureId e;
     Game.e_networkId := Game.e_networkId e |}.

Definition with_epos (v : Vector2) (e : Game.Enemy) : Game.Enemy :=
  {| Game.e_id := Game.e_id e; Game.e_pos := v;
     Game.e_state := Game.e_state e; Game.e_health := Game.e_health e;
     Game.e_textureId := Game.e_textureId e;
     Game.e_networkId := Game.e_networkId e |}.

Definition is_idle (s : Game.EnemyState) : bool :=
  match s with Game.IDLE => true | _ => false end.

Definition is_chase (s : Game.EnemyState) : bool :=
  match s with Game.CHASE => true | _ => false end.

(** The body of the [forEach] of [updateAI] for one enemy.  [rnd] is the
    sequence of the values of [Math.random()] and [i] the number of those
    drawn so far; the result has the enemy, the player's health and the
    number drawn. *)
Definition ai_step (k : Game.constants) (m : list (list Z))
    (difficulty : Difficulty) (p : Player) (dt now : Q) (rnd : nat -> Q)
    (acc : list foe * Q * nat) (f : foe) : list foe * Q * nat :=
  let '(done, hp, i) := acc in
  let enemy := body f in
  let dx := (vx (pos p) - vx (Game.e_pos enemy))%Q in
  let dy := (vy (pos p) - vy (Game.e_pos enemy))%Q in
  let dist := Game.sqrt k (dx * dx + dy * dy) in
  let canSee := Game.hasLineOfSight (Game.e_pos enemy) (pos p) m in
  let enemy :=
    if is_idle (Game.e_state enemy) && qlt dist 12 && canSee
    then with_state Game.CHASE enemy else enemy in
  if is_chase (Game.e_state enemy) then
    let enemy :=
      if qlt 1 dist then
        let dirX := (dx / dist)%Q in
        let dirY := (dy / dist)%Q in
        let moveStep := ((5 # 2) * dt)%Q in
        with_epos (slide m (dirX * moveStep) (dirY * moveStep)
                     (Game.e_pos enemy)) enemy
      else enemy in
    if qlt 1000 (now - lastAttackTime f) && qlt (rnd i) (2 # 100) then
      let hp' := if qlt (rnd (S i)) (4 # 10) then (hp - 10)%Q else hp in
      (done ++ [ {| body := enemy; lastAttackTime := now |} ], hp', S (S i))
    else
      let i := if qlt 1000 (now - lastAttackTime f) then S i else i in
      if qlt dist 9 && canSee then
        if qlt (shootCooldown difficulty) (now - lastAttackTime f) then
          (done ++ [ {| body := enemy; lastAttackTime := now |} ],
           (hp - damageRanged difficulty)%Q, i)
        else (done ++ [ {| body := enemy;
                           lastAttackTime := lastAttackTime f |} ], hp, i)
      else (done ++ [ {| body := enemy;
                         lastAttackTime := lastAttackTime f |} ], hp, i)
  else (done ++ [ {| body := enemy; lastAttackTime := lastAttackTime f |} ],
        hp, i).

(** [updateAI(dt, now)]: the enemies and the player's health after it. *)
Definition updateAI (k : Game.constants) (m : list (list Z))
    (difficulty : Difficulty) (p : Player) (dt now : Q) (rnd : nat -> Q)
    (es : list foe) : list foe * Q :=
  let alive := filter (fun f => qlt 0 (Game.e_health (body f)) = true) es in
  let '(done, hp, _) :=
    fold_left (ai_step k m difficulty p dt now rnd) alive
      ([], p_health p, 0%nat) in
  (done, hp).

(** What [updateAI] does to one enemy that it keeps. *)
Definition ai_moves (m : list (list Z)) (now : Q) (f f' : foe) : Prop :=
  Game.e_id (body f') = Game.e_id (body f) /\
  Game.e_health (body f') = Game.e_health (body f) /\
  Game.e_networkId (body f') = Game.e_networkId (body f) /\
  (is_open m (Qfloor (vx (Game.e_pos (body f))))
             (Qfloor (vy (Game.e_pos (body f)))) = true ->
   is_open m (Qfloor (vx (Game.e_pos (body f'))))
             (Qfloor (vy (Game.e_pos (body f')))) = true) /\
  (is_chase (Game.e_state (body f')) = false -> f' = f) /\
  (lastAttackTime f' = lastAttackTime f \/ lastAttackTime f' = now).

(** *** [tick]: the other players as enemies *)

(** The body of [Object.values(allPlayers).forEach] in [tick], over the
    values in their order. *)
Definition network_enemies (K : settings) (myId : option string)
    (allPlayers : list Server.player) : list Game.Enemy :=
  omap (fun np =>
          if bool_decide (Some (Server.p_id np) = myId) then None
          else Some
            {| Game.e_id := 999;
               Game.e_pos := {| vx := Server.p_x np; vy := Server.p_y np |};
               Game.e_state := if Server.isDead np then Game.DEAD
                               else Game.CHASE;
               Game.e_health := Server.health np;
               Game.e_textureId := if Server.isDead np
                                   then ENEMY_GUARD_DEAD K
                                   else ENEMY_GUARD K;
               Game.e_networkId := Some (Server.p_id np) |})
       allPlayers.

End GameLoop.

(** ** Raycaster.ts: [castFloorAndCeiling] *)

Module FloorCast.

(** What the function reads of a texture: the pixels, as the
    [Uint32Array] has them, and the size. *)
Record Bitmap := { bm_data : list Z; bm_width : Z; bm_height : Z }.

(** The conversions of the bitwise operators and of the store into a
    [Uint32Array], on whole numbers. *)
Definition toInt32 (z : Z) : Z := (z + 2 ^ 31) mod 2 ^ 32 - 2 ^ 31.
Definition toUint32 (z : Z) : Z := z mod 2 ^ 32.

(** The whole part of a number, towards zero. *)
Definition truncate (q : Q) : Z := Z.quot (Qnum q) (Z.pos (Qden q)).

(** [Math.floor(size * (at - Math.floor(at))) & (size - 1)] *)
Definition texCoord (size : Z) (at_ : Q) : Z :=
  Z.land (toInt32 (Qfloor (inject_Z size * (at_ - inject_Z (Qfloor at_)))))
         (toInt32 (size - 1)).

(** [ty * floorTexture.width + tx]; the floor texture gives the size for
    the ceiling too. *)
Definition texIndex (floorTexture : Bitmap) (floorX floorY : Q) : Z :=
  let tx := texCoord (bm_width floorTexture) floorX in
  let ty := texCoord (bm_height floorTexture) floorY in
  ty * bm_width floorTexture + tx.

(** [texture.data[i]]; an index off the array gives [undefined], which
    both the bitwise operators and the store turn into 0. *)
Definition texel (t : Bitmap) (i : Z) : Z :=
  if i <? 0 then 0 else default 0 (bm_data t !! Z.to_nat i).

(** The fog: the colour that is stored, before the store converts it. *)
Definition fog (fogAmount : Q) (color : Z) : Z :=
  if qlt 0 fogAmount then
    let fogFactor := (1 - fogAmount * (7 # 10))%Q in
    let r := (inject_Z (Z.land (toInt32 color) 255) * fogFactor)%Q in
    let g := (inject_Z (Z.land (Z.shiftr (toInt32 color) 8) 255)
              * fogFactor)%Q in
    let b := (inject_Z (Z.land (Z.shiftr (toInt32 color) 16) 255)
              * fogFactor)%Q in
    Z.lor (Z.lor (Z.lor (Z.land (toInt32 color) (toInt32 4278190080))
                        (toInt32 (Z.shiftl (toInt32 (truncate b)) 16)))
                 (toInt32 (Z.shiftl (toInt32 (truncate g)) 8)))
          (toInt32 (truncate r))
  else color.

(** [this.buffer[i] = color]: nothing outside the array. *)
Definition store (i color : Z) (buffer : list Z) : list Z :=
  if i <? 0 then buffer else <[Z.to_nat i := toUint32 color]> buffer.

(** The colour of one pixel. *)
Definition pixel (floorTexture ceilingTexture : Bitmap) (isFloor : bool)
    (fogAmount floorX floorY : Q) : Z :=
  let i := texIndex floorTexture floorX floorY in
  fog fogAmount
    (if isFloor then texel floorTexture i else texel ceilingTexture i).

(** [for (let x = 0; x < w; x++)], with [n] turns left. *)
Fixpoint cast_columns (n : nat) (floorTexture ceilingTexture : Bitmap)
    (isFloor : bool) (fogAmount floorStepX floorStepY : Q) (w y x : Z)
    (floorX floorY : Q) (buffer : list Z) : list Z :=
  match n with
  | O => buffer
  | S n' =>
    cast_columns n' floorTexture ceilingTexture isFloor fogAmount
      floorStepX floorStepY w y (x + 1)
      (floorX + floorStepX)%Q (floorY + floorStepY)%Q
      (store (y * w + x)
         (pixel floorTexture ceilingTexture isFloor fogAmount floorX floorY)
         buffer)
  end.

(** What the body of the loop over [y] computes before the loop over
    [x]; [None] for the row that it skips. *)
Record row := {
  isFloor : bool;
  rowDistance : Q;
  floorStepX : Q;
  floorStepY : Q;
  floorX0 : Q;
  floorY0 : Q;
  fogAmount : Q
}.

Definition row_of (player : Player) (w h : Z) (zoom : Q) (y : Z)
  : option row :=
  let camHeight := ((1 # 2) + p_z player)%Q in
  let pitch := pitch player in
  let isFloor := qlt (inject_Z h / 2 + pitch) (inject_Z y) in
  let p := if isFloor then (inject_Z y - inject_Z h / 2 - pitch)%Q
           else (inject_Z h / 2 - inject_Z y + pitch)%Q in
  if qeq p 0 then None
  else
    let zDiff := if isFloor then camHeight else (1 - camHeight)%Q in
    let rowDistance := (inject_Z h * zDiff * zoom / p)%Q in
    Some {| isFloor := isFloor;
            rowDistance := rowDistance;
            floorStepX := rowDistance * (vx (plane player) * 2) / inject_Z w;
            floorStepY := rowDistance * (vy (plane player) * 2) / inject_Z w;
            floorX0 := vx (pos player)
                       + rowDistance * (vx (dir player) - vx (plane player));
            floorY0 := vy (pos player)
                       + rowDistance * (vy (dir player) - vy (plane player));
            fogAmount := if qlt (rowDistance / 20) 1
                         then rowDistance / 20 else 1 |}.

Definition cast_row (floorTexture ceilingTexture : Bitmap) (player : Player)
    (w h : Z) (zoom : Q) (y : Z) (buffer : list Z) : list Z :=
  match row_of player w h zoom y with
  | None => buffer
  | Some r =>
    cast_columns (Z.to_nat w) floorTexture ceilingTexture (isFloor r)
      (fogAmount r) (floorStepX r) (floorStepY r) w y 0
      (floorX0 r) (floorY0 r) buffer
  end.

(** What row [y] holds after [cast_row]. *)
Definition row_pixels (ft ct : Bitmap) (player : Player) (w h : Z) (zoom : Q)
    (y x : Z) (before : option Z) : option Z :=
  match row_of player w h zoom y with
  | None => before
  | Some r =>
    Some (toUint32 (pixel ft ct (isFloor r) (fogAmount r)
                      (floorX0 r + inject_Z x * floorStepX r)
                      (floorY0 r + inject_Z x * floorStepY r)))
  end.

(** [for (let y = 0; y < h; y++)], with [n] turns left. *)
Fixpoint cast_rows (n : nat) (floorTexture ceilingTexture : Bitmap)
    (player : Player) (w h : Z) (zoom : Q) (y : Z) (buffer : list Z)
  : list Z :=
  match n with
  | O => buffer
  | S n' =>
    cast_rows n' floorTexture ceilingTexture player w h zoom (y + 1)
      (cast_row floorTexture ceilingTexture player w h zoom y buffer)
  end.

(** [castFloorAndCeiling]: the buffer after the call; [None] when
    [textures] has no entry for the floor or for the ceiling, and reading
    its first frame throws. *)
Definition castFloorAndCeiling (FLOOR CEILING : Z)
    (textures : gmap Z (list Bitmap)) (player : Player) (w h : Z)
    (zoom : Q) (buffer : list Z) : option (list Z) :=
  match textures !! FLOOR, textures !! CEILING with
  | Some fs, Some cs =>
    match head fs, head cs with
    | Some floorTexture, Some ceilingTexture =>
      Some (cast_rows (Z.to_nat h) floorTexture ceilingTexture player
              w h zoom 0 buffer)
    | _, _ => Some buffer
    end
  | _, _ => None
  end.

End FloorCast.

(** ** More scenarios *)

Module Cases.

(** Every callback is set. *)
Definition all_set : Client.callbacks :=
  {| Client.onStateUpdate := true; Client.onRoomJoined := true;
     Client.onRoomListUpdate := true; Client.onTimeUpdate := true;
     Client.onGameOver := true; Client.onPlayerDied := true;
     Client.onPlayerRespawn := true; Client.onHealthUpdate := true;
     Client.onItemSpawn := true; Client.onItemRemoved := true;
     Client.onItemCollected := true; Client.onPlayerLeft := true;
     Client.onWaitingForPlayers := true; Client.onGameResumed := true |}.

(** The client of socket "b", connected and in no room. *)
Definition client_b : Client.net :=
  fst (fst (Client.on_message all_set (Client.m_connect "b")
              (Client.connect Client.start))).

(** The client of socket "a" as it is once it knows the players of the
    room "R" of [Scenario.arena]. *)
Definition client_a : Client.net :=
  Client.set_players (Server.players Scenario.arena_room)
    (fst (fst (Client.on_message all_set (Client.m_connect "a")
                 (Client.connect Client.start)))).

Definition pistol : Game.Weapon :=
  {| Game.damage := 15; Game.headshotMultiplier := 2; Game.fireRate := 300;
     Game.isAuto := false; Game.recoil := 1 # 2 |}.

(** Settings of a local game; the cosine and the sine are those of one
    angle, whatever the angle asked for. *)
Definition game_settings : GameLoop.settings :=
  {| GameLoop.CLIP_SIZE := 30; GameLoop.MAX_RESERVE := 120;
     GameLoop.START_AMMO := 30; GameLoop.START_RESERVE := 90;
     GameLoop.MOVE_SPEED := 4; GameLoop.MAX_ENEMIES := 2;
     GameLoop.SPAWN_INTERVAL := 3000;
     GameLoop.SPAWN_POINTS := [ {| vx := 3 # 2; vy := 3 # 2 |};
                                {| vx := 7 # 2; vy := 7 # 2 |} ];
     GameLoop.WEAPONS := [Scenario.rifle; pistol; Scenario.rifle];
     GameLoop.HEALTH_ORB := 50; GameLoop.ENEMY_GUARD := 10;
     GameLoop.ENEMY_GUARD_DEAD := 11;
     GameLoop.cos := fun _ => 3 # 5; GameLoop.sin := fun _ => 4 # 5 |}.

(** The player of [Scenario.duel], hurt, with a clip of 5 and 40 rounds in
    reserve. *)
Definition hero : Player :=
  GameLoop.with_ammo 5 40
    (GameLoop.with_health 80 (Game.player Scenario.duel)).

(** A health orb where the hero stands, an ammo box two cells away and a
    health orb that lay for more than five seconds. *)
Definition orb (id : Z) (x y : Q) (ty : Z) (t : Q) : GameLoop.Item :=
  {| GameLoop.it_id := Client.IdNum id;
     GameLoop.it_pos := {| vx := x; vy := y |};
     GameLoop.it_textureId := ty; GameLoop.it_spawnTime := t |}.

Definition hero_loop : GameLoop.loop :=
  {| GameLoop.player := hero;
     GameLoop.items := [ orb 1 (3 # 2) (5 # 2) 50 9000;
                         orb 2 (7 # 2) (5 # 2) 51 9000;
                         orb 3 (3 # 2) (5 # 2) 50 1000 ];
     GameLoop.swayPos := {| vx := 0; vy := 0 |};
     GameLoop.swayTarget := {| vx := 0; vy := 0 |};
     GameLoop.currentFovScale := 33 # 50;
     GameLoop.walkCycle := 0; GameLoop.recoilImpulse := 0 |}.

(** The players that the client of socket "a" knows: itself, a dead
    player one cell ahead and a live one two cells ahead. *)
Definition rival (id : string) (x y hp : Q) (dead : bool) : Server.player :=
  {| Server.p_x := x; Server.p_y := y; Server.p_angle := 0;
     Server.health := hp; Server.p_id := id; Server.isDead := dead;
     Server.p_name := id |}.

Definition rivals : list Server.player :=
  [ rival "a" (3 # 2) (5 # 2) 100 false;
    rival "w" (5 # 2) (5 # 2) 0 true;
    rival "v" (7 # 2) (5 # 2) 100 false ].

(** The shot of [Scenario.duel] in a networked game. *)
Definition net_duel : Game.shoot_env :=
  {| Game.player := Game.player Scenario.duel;
     Game.enemies := GameLoop.network_enemies game_settings (Some "a") rivals;
     Game.map := Scenario.room5;
     Game.weapon := Scenario.rifle;
     Game.now := 1000; Game.lastShotTime := 0; Game.lastDryFireTime := 0;
     Game.isReloading := false; Game.isInfiniteAmmo := false;
     Game.isMultiplayer := true;
     Game.currentFovScale := 33 # 50;
     Game.random := 1 # 2 |}.

Definition forward : GameLoop.Keys :=
  {| GameLoop.KeyW := true; GameLoop.KeyS := false; GameLoop.KeyA := false;
     GameLoop.KeyD := false |}.

End Cases.

(** * Properties *)

(** ** Rational and [num] helpers *)

Lemma qlt_true a b : qlt a b = true <-> (a < b)%Q.
Proof.
  unfold qlt. rewrite Qlt_alt. destruct (a ?= b)%Q; split; congruence.
Qed.

Lemma qlt_false a b : qlt a b = false <-> (b <= a)%Q.
Proof.
  split; intros H.
  - destruct (Qlt_le_dec a b) as [Hl|Hl]; [|assumption].
    apply qlt_true in Hl. congruence.
  - destruct (qlt a b) eqn:E; [|reflexivity].
    apply qlt_true in E. lra.
Qed.

Lemma qle_true a b : qle a b = true <-> (a <= b)%Q.
Proof.
  unfold qle. rewrite Qle_alt.
  destruct (a ?= b)%Q; split; congruence.
Qed.

Lemma qle_false a b : qle a b = false <-> (b < a)%Q.
Proof.
  unfold qle. rewrite Qgt_alt.
  destruct (a ?= b)%Q; split; congruence.
Qed.

Lemma qeq_true a b : qeq a b = true <-> (a == b)%Q.
Proof.
  unfold qeq. rewrite Qeq_alt. destruct (a ?= b)%Q; split; congruence.
Qed.

Lemma qeq_false a b : qeq a b = false <-> ~ (a == b)%Q.
Proof.
  rewrite <- qeq_true. destruct (qeq a b); split; congruence.
Qed.

Lemma Qfloor_eq_iff (q : Q) (k : Z) :
  Qfloor q = k <-> (inject_Z k <= q /\ q < inject_Z (k + 1))%Q.
Proof.
  split.
  - intros <-. split; [apply Qfloor_le | apply Qlt_floor].
  - intros [Hlo Hhi].
    assert (H1 : k <= Qfloor q).
    { rewrite <- (Qfloor_Z k). apply Qfloor_resp_le. exact Hlo. }
    assert (H2 : Qfloor q < k + 1).
    { rewrite Zlt_Qlt. eapply Qle_lt_trans; [apply Qfloor_le | exact Hhi]. }
    lia.
Qed.

Lemma Qabs_inv_pos (q : Q) : ~ (q == 0)%Q -> (0 < Qabs (1 / q))%Q.
Proof.
  intros Hq.
  assert (Hn : ~ (1 / q == 0)%Q).
  { intros H0. assert (H1 : (1 / q * q == 1)%Q) by (field; exact Hq).
    rewrite H0 in H1. lra. }
  destruct (Qlt_le_dec 0 (Qabs (1 / q))) as [|Hle]; [assumption|].
  exfalso. apply Hn. pose proof (Qabs_nonneg (1 / q)) as Hge.
  assert (Hz : (Qabs (1 / q) == 0)%Q) by lra.
  revert Hz. apply Qabs_case; intros; lra.
Qed.

(** ** [castWalls]: the DDA loop *)

Section DDA.
Import Raycaster.


Lemma setup_stepX player w x :
  stepX (setup_ray player w x) = 1 \/ stepX (setup_ray player w x) = -1.
Proof.
  unfold setup_ray, ray_towards.
  destruct (qlt _ 0); destruct (qlt _ 0); simpl; auto.
Qed.

Lemma setup_stepY player w x :
  stepY (setup_ray player w x) = 1 \/ stepY (setup_ray player w x) = -1.
Proof.
  unfold setup_ray, ray_towards.
  destruct (qlt _ 0); destruct (qlt _ 0); simpl; auto.
Qed.

Lemma is_wall_cell m x y :
  is_wall m x y = true -> exists c, cell m x y = Some c /\ 0 < c.
Proof.
  unfold is_wall. destruct (cell m x y) as [c|]; [|discriminate].
  intros H. exists c. split; [reflexivity|]. lia.
Qed.

(** A ray that starts strictly inside a grid with a closed ring of walls
    hits a wall before it has made [travel] turns, whatever the
    accumulators decide. *)
Lemma dda_loop_hits m rows cols s :
  closed_border m rows cols ->
  (stepX s = 1 \/ stepX s = -1) ->
  (stepY s = 1 \/ stepY s = -1) ->
  forall fuel r,
    interior rows cols r ->
    travel rows cols s r <= Z.of_nat fuel + 1 ->
    exists r' c, dda_loop fuel m s r = Some (r', c) /\ 0 < c.
Proof.
  intros Hb Hsx Hsy fuel.
  induction fuel as [|fuel IH]; intros r [Hx Hy] Ht.
  - exfalso. unfold travel in Ht.
    destruct (stepX s =? 1), (stepY s =? 1); lia.
  - cbn [dda_loop].
    destruct (is_wall m (mapX (dda_step s r)) (mapY (dda_step s r))) eqn:Hw.
    + destruct (is_wall_cell _ _ _ Hw) as (c & Hc & Hpos).
      exists (dda_step s r), c. rewrite Hc. auto.
    + assert (Hin : interior rows cols (dda_step s r) /\
                    travel rows cols s (dda_step s r) <= Z.of_nat fuel + 1).
      { unfold interior, travel in *.
        assert (Hring : forall x y, 0 <= x < rows -> 0 <= y < cols ->
                  mapX (dda_step s r) = x -> mapY (dda_step s r) = y ->
                  ~ (x = 0 \/ x = rows - 1 \/ y = 0 \/ y = cols - 1)).
        { intros x y Hx' Hy' <- <- Hr.
          rewrite (Hb _ _ Hx' Hy' Hr) in Hw. discriminate. }
        revert Hw Hring Ht. unfold dda_step.
        destruct (nlt (sideDistX r) (sideDistY r)); cbn; intros Hw Hring Ht.
        - assert (~ (mapX r + stepX s = 0 \/ mapX r + stepX s = rows - 1 \/
                     mapY r = 0 \/ mapY r = cols - 1)) as Hn
            by (apply Hring; destruct Hsx; lia).
          destruct Hsx as [E|E]; rewrite E in *; cbn in *;
            destruct (stepY s =? 1); lia.
        - assert (~ (mapX r = 0 \/ mapX r = rows - 1 \/
                     mapY r + stepY s = 0 \/ mapY r + stepY s = cols - 1))
            as Hn by (apply Hring; destruct Hsy; lia).
          destruct Hsy as [E|E]; rewrite E in *; cbn in *;
            destruct (stepX s =? 1); lia. }
      destruct Hin as [Hin Ht']. exact (IH _ Hin Ht').
Qed.

Lemma dda_step_inv s r ix iy :
  axis_ok (deltaDistX s) (sideDistX r) ix ->
  axis_ok (deltaDistY s) (sideDistY r) iy ->
  ~ (deltaDistX s = PInf /\ deltaDistY s = PInf) ->
  axis_ok (deltaDistX s) (sideDistX (dda_step s r)) ix /\
  axis_ok (deltaDistY s) (sideDistY (dda_step s r)) iy /\
  last_ok s (dda_step s r) ix iy.
Proof.
  intros Hx Hy Hnz. unfold dda_step, last_ok.
  destruct Hx as [[Dx Sx]|(dx & a & Dx & Sx & Hdx & Ha)];
  destruct Hy as [[Dy Sy]|(dy & b & Dy & Sy & Hdy & Hb)];
    rewrite Sx, Sy; cbn [nlt].
  - tauto.
  - cbn. rewrite Dx, Dy. cbn [nadd]. repeat split.
    + left; auto.
    + right. exists dy, (b + dy)%Q. repeat split; auto; lra.
    + intros; lia.
    + intros _. exists dy, (b + dy)%Q. repeat split; auto; lra.
  - cbn. rewrite Dx, Dy. cbn [nadd]. repeat split.
    + right. exists dx, (a + dx)%Q. repeat split; auto; lra.
    + left; auto.
    + intros _. exists dx, (a + dx)%Q. repeat split; auto; lra.
    + intros; lia.
  - destruct (qlt a b); cbn; rewrite Dx, Dy; cbn [nadd]; repeat split.
    + right. exists dx, (a + dx)%Q. repeat split; auto; lra.
    + right. exists dy, b. repeat split; auto.
    + intros _. exists dx, (a + dx)%Q. repeat split; auto; lra.
    + intros; lia.
    + right. exists dx, a. repeat split; auto.
    + right. exists dy, (b + dy)%Q. repeat split; auto; lra.
    + intros; lia.
    + intros _. exists dy, (b + dy)%Q. repeat split; auto; lra.
Qed.

Lemma dda_loop_inv m s ix iy :
  ~ (deltaDistX s = PInf /\ deltaDistY s = PInf) ->
  forall fuel r r' c,
    axis_ok (deltaDistX s) (sideDistX r) ix ->
    axis_ok (deltaDistY s) (sideDistY r) iy ->
    dda_loop fuel m s r = Some (r', c) ->
    last_ok s r' ix iy.
Proof.
  intros Hnz fuel.
  induction fuel as [|fuel IH]; intros r r' c Hx Hy; cbn [dda_loop].
  - discriminate.
  - destruct (dda_step_inv s r ix iy Hx Hy Hnz) as (Hx' & Hy' & Hl).
    destruct (is_wall m _ _).
    + intros [= <- _]. exact Hl.
    + apply IH; assumption.
Qed.

Lemma last_ok_perp s r ix iy :
  last_ok s r ix iy ->
  exists q, perpWallDist s r = Fin q /\
            ((side r = 0 /\ (ix <= q)%Q) \/ (side r <> 0 /\ (iy <= q)%Q)).
Proof.
  intros [H0 H1]. unfold perpWallDist.
  destruct (Z.eqb_spec (side r) 0) as [E|E].
  - destruct (H0 E) as (d & a & -> & -> & Hq).
    exists (a + - d)%Q. split; [reflexivity|]. left. split; [assumption|]. lra.
  - destruct (H1 E) as (d & b & -> & -> & Hq).
    exists (b + - d)%Q. split; [reflexivity|]. right. split; [assumption|]. lra.
Qed.

Lemma floor_frac (q : Q) :
  (0 <= q - inject_Z (Qfloor q))%Q /\ (0 < inject_Z (Qfloor q) + 1 - q)%Q /\
  (~ (q == inject_Z (Qfloor q))%Q -> (0 < q - inject_Z (Qfloor q))%Q).
Proof.
  pose proof (Qfloor_le q) as Hle. pose proof (Qlt_floor q) as Hlt.
  rewrite inject_Z_plus in Hlt. change (inject_Z 1) with 1%Q in Hlt.
  split; [lra|split; [lra|]].
  intros Hne. destruct (Qlt_le_dec (inject_Z (Qfloor q)) q); [lra|].
  exfalso. apply Hne. lra.
Qed.

Lemma axis_setup (rd p : Q) :
  let delta := nabs (ndiv (Fin 1) (Fin rd)) in
  let sd := if qlt rd 0
            then nmul (Fin (p - inject_Z (Qfloor p))) delta
            else nmul (Fin (inject_Z (Qfloor p) + 1 - p)) delta in
  (delta = PInf <-> (rd == 0)%Q) /\
  exists init, axis_ok delta sd init /\ (0 <= init)%Q /\
    (~ (p == inject_Z (Qfloor p))%Q -> (0 < init)%Q).
Proof.
  intros delta sd. subst delta sd. cbn [ndiv].
  destruct (floor_frac p) as (Hf0 & Hf1 & Hf2).
  destruct (qeq rd 0) eqn:Ez.
  - apply qeq_true in Ez. split; [split; auto|].
    assert (Hlt : qlt rd 0 = false) by (apply qlt_false; lra).
    rewrite Hlt. exists 1%Q. split; [|split; intros; lra].
    left. split; [reflexivity|]. cbn. unfold inf_signed.
    apply Qgt_alt in Hf1. rewrite Hf1. reflexivity.
  - apply qeq_false in Ez. cbn [nabs]. split.
    { split; [discriminate|]. intros H; contradiction. }
    pose proof (Qabs_inv_pos rd Ez) as Hd.
    destruct (qlt rd 0); cbn [nmul].
    + exists ((p - inject_Z (Qfloor p)) * Qabs (1 / rd))%Q.
      split; [|split].
      * right. eexists _, _. repeat split; [assumption|lra].
      * apply Qmult_le_0_compat; lra.
      * intros Hne. apply Qmult_lt_0_compat; auto.
    + exists ((inject_Z (Qfloor p) + 1 - p) * Qabs (1 / rd))%Q.
      split; [|split].
      * right. eexists _, _. repeat split; [assumption|lra].
      * apply Qmult_le_0_compat; lra.
      * intros Hne. apply Qmult_lt_0_compat; auto.
Qed.

Lemma setup_ray_axes player w x :
  let s := setup_ray player w x in
  (deltaDistX s = PInf <-> (rayDirX s == 0)%Q) /\
  (deltaDistY s = PInf <-> (rayDirY s == 0)%Q) /\
  exists ix iy,
    axis_ok (deltaDistX s) (sideDistX (start s)) ix /\
    axis_ok (deltaDistY s) (sideDistY (start s)) iy /\
    (0 <= ix)%Q /\ (0 <= iy)%Q /\
    (off_grid_lines player -> (0 < ix)%Q /\ (0 < iy)%Q).
Proof.
  intros s. subst s. unfold setup_ray, ray_towards.
  set (cameraX := (2 * inject_Z x / inject_Z w - 1)%Q).
  set (rdx := (vx (dir player) + vx (plane player) * cameraX)%Q).
  set (rdy := (vy (dir player) + vy (plane player) * cameraX)%Q).
  destruct (axis_setup rdx (vx (pos player))) as (Ex & ix & Hx & Hx0 & Hx1).
  destruct (axis_setup rdy (vy (pos player))) as (Ey & iy & Hy & Hy0 & Hy1).
  destruct (qlt rdx 0); destruct (qlt rdy 0); cbn;
    (split; [exact Ex|]); (split; [exact Ey|]);
    exists ix, iy; unfold off_grid_lines; tauto.
Qed.

Lemma dda_loop_more_fuel m s fuel fuel' r v :
  dda_loop fuel m s r = Some v -> (fuel <= fuel')%nat ->
  dda_loop fuel' m s r = Some v.
Proof.
  revert fuel' r. induction fuel as [|fuel IH]; intros fuel' r; [discriminate|].
  destruct fuel' as [|fuel']; [lia|]. cbn [dda_loop].
  destruct (is_wall m _ _); [tauto|].
  intros H Hle. apply IH; [assumption|lia].
Qed.

Lemma out_of_bounds_undefined (m : list (list Z)) x y :
  x < 0 \/ Z.of_nat (length m) <= x \/ y < 0 \/
    (forall r, row m x = Some r -> Z.of_nat (length r) <= y) ->
  cell m x y = None.
Proof.
  unfold cell, row. intros H.
  destruct (Z.ltb_spec x 0) as [|Hx]; [reflexivity|].
  destruct (m !! Z.to_nat x) as [r|] eqn:Er; [|reflexivity].
  destruct (Z.ltb_spec y 0) as [|Hy]; [reflexivity|].
  apply lookup_ge_None. destruct H as [H|[H|[H|H]]]; try lia.
  - apply lookup_lt_Some in Er. lia.
  - unfold row in H. destruct (Z.ltb_spec x 0); [lia|].
    specialize (H r eq_refl). lia.
Qed.

End DDA.

Section CastWalls.
Import Raycaster.

(** C2 (as amended).  What makes the DDA loop of [castWalls] stop is a
    closed outer ring of wall cells: for a camera in a cell strictly inside
    such a grid the loop hits a wall cell of the map within [rows + cols]
    turns for every ray (any amount of fuel from there on gives the same
    hit), and for a ray of non-zero magnitude the perpendicular distance is
    a finite number that is never negative, and positive when the camera
    is on no grid line. *)
Theorem castWalls_dda_hits_inside_closed_border
    (m : list (list Z)) (rows cols : Z) (player : Player) (w x : Z) :
  closed_border m rows cols ->
  1 <= Qfloor (vx (pos player)) <= rows - 2 ->
  1 <= Qfloor (vy (pos player)) <= cols - 2 ->
  let s := setup_ray player w x in
  exists r c,
    (forall fuel, (Z.to_nat (rows + cols) <= fuel)%nat ->
       dda_loop fuel m s (start s) = Some (r, c)) /\
    0 < c /\ cell m (mapX r) (mapY r) = Some c /\
    (~ (rayDirX s == 0 /\ rayDirY s == 0)%Q ->
     exists q, perpWallDist s r = Fin q /\ (0 <= q)%Q /\
               (off_grid_lines player -> (0 < q)%Q)).
Proof.
  intros Hb Hx Hy s.
  assert (Hin : interior rows cols (start s)).
  { subst s. unfold interior, setup_ray, ray_towards.
    destruct (qlt _ 0); destruct (qlt _ 0); cbn; auto. }
  assert (Ht : travel rows cols s (start s)
               <= Z.of_nat (Z.to_nat (rows + cols)) + 1).
  { destruct Hin as [H1 H2]. unfold travel.
    destruct (stepX s =? 1), (stepY s =? 1); lia. }
  destruct (dda_loop_hits m rows cols s Hb (setup_stepX player w x)
              (setup_stepY player w x) _ _ Hin Ht) as (r & c & Hr & Hc).
  exists r, c. split; [|split; [exact Hc|split]].
  - intros fuel Hf. eapply dda_loop_more_fuel; eauto.
  - clear -Hr. revert Hr. generalize (start s).
    induction (Z.to_nat (rows + cols)) as [|n IH]; intros r0; cbn [dda_loop];
      [discriminate|].
    destruct (is_wall m _ _) eqn:Hw; [|apply IH].
    intros [= <- <-]. destruct (is_wall_cell _ _ _ Hw) as (c & -> & _).
    reflexivity.
  - intros Hnz.
    destruct (setup_ray_axes player w x)
      as (Ex & Ey & ix & iy & Hax & Hay & Hx0 & Hy0 & Hpos).
    fold s in Ex, Ey, Hax, Hay.
    assert (Hninf : ~ (deltaDistX s = PInf /\ deltaDistY s = PInf)) by tauto.
    pose proof (dda_loop_inv m s ix iy Hninf _ _ _ _ Hax Hay Hr) as Hl.
    destruct (last_ok_perp s r ix iy Hl) as (q & Hq & Hside).
    exists q. split; [exact Hq|]. split.
    + destruct Hside as [[_ Hq']|[_ Hq']]; lra.
    + intros Hoff. destruct (Hpos Hoff) as [Hix Hiy].
      destruct Hside as [[_ Hq']|[_ Hq']]; lra.
Qed.

Lemma ring3_closed : closed_border Scenario.ring3 3 3.
Proof.
  intros x y Hx Hy Hr.
  assert (Ex : x = 0 \/ x = 1 \/ x = 2) by lia.
  assert (Ey : y = 0 \/ y = 1 \/ y = 2) by lia.
  destruct Ex as [-> | [-> | ->]]; destruct Ey as [-> | [-> | ->]];
    try reflexivity; lia.
Qed.

Lemma castWalls_dda_hits_witness :
  exists r c,
    dda_loop 6 Scenario.ring3 (setup_ray Scenario.cam_centre 4 2)
      (start (setup_ray Scenario.cam_centre 4 2)) = Some (r, c) /\ 0 < c.
Proof.
  destruct (castWalls_dda_hits_inside_closed_border
              Scenario.ring3 3 3 Scenario.cam_centre 4 2)
    as (r & c & Hf & Hc & _).
  - exact ring3_closed.
  - vm_compute; split; discriminate.
  - vm_compute; split; discriminate.
  - exists r, c. split; [apply Hf; cbn; lia | exact Hc].
Defined.

Lemma gap3_column_open y : y <= 0 -> is_wall Scenario.gap3 1 y = false.
Proof.
  intros Hy. unfold is_wall, cell, row. cbn.
  destruct (Z.ltb_spec y 0); [reflexivity|].
  assert (y = 0) as -> by lia. reflexivity.
Qed.

Lemma gap3_never_hits s :
  stepY s = -1 -> (exists d, deltaDistY s = Fin d) ->
  forall fuel r,
    mapX r = 1 -> mapY r <= 1 -> sideDistX r = PInf ->
    (exists b, sideDistY r = Fin b) ->
    dda_loop fuel Scenario.gap3 s r = None.
Proof.
  intros Hs [d Hd] fuel.
  induction fuel as [|fuel IH]; intros r Hx Hy Hsx [b Hsy]; [reflexivity|].
  cbn [dda_loop]. unfold dda_step. rewrite Hsx, Hsy. cbn.
  rewrite Hx, Hs, gap3_column_open by lia.
  apply IH; cbn; try lia; try reflexivity.
  rewrite Hd. eexists; reflexivity.
Qed.

(** C2, counterexample.  (1) The camera stands in the open cell (1, 1) of
    [gap3] and looks along -y through the missing wall at (1, 0): the
    cells (1, -1), (1, -2), ... are outside the map, none of them counts
    as a wall, and the loop returns for no amount of fuel.  (2) In the
    closed grid [ring3] the camera stands on the grid line x = 1 and looks
    along -x: the wall is hit at perpendicular distance 0, which is not
    greater than 0. *)
Lemma castWalls_open_edge_counterexample :
  cell Scenario.gap3 1 1 = Some 0 /\
  (forall fuel,
     castWalls_column fuel Scenario.cam_gap Scenario.gap3
       Scenario.wall_textures 4 4 0 1 2 = None) /\
  cell Scenario.ring3 1 1 = Some 0 /\
  (fun ws => (nle (ws_perpWallDist ws) (Fin 0),
              nlt (Fin 0) (ws_perpWallDist ws))) <$>
    castWalls_column 6 Scenario.cam_line Scenario.ring3
      Scenario.wall_textures 4 4 0 1 2 = Some (true, false).
Proof.
  split; [reflexivity|]. split; [|split; [reflexivity|]].
  - intros fuel. unfold castWalls_column.
    rewrite (gap3_never_hits (setup_ray Scenario.cam_gap 4 2));
      [ reflexivity | reflexivity | eexists; vm_compute; reflexivity
      | reflexivity | vm_compute; discriminate | reflexivity
      | eexists; vm_compute; reflexivity ].
  - vm_compute. reflexivity.
Qed.

Lemma dda_loop_side m s fuel r r' c :
  dda_loop fuel m s r = Some (r', c) -> side r' = 0 \/ side r' = 1.
Proof.
  revert r. induction fuel as [|fuel IH]; intros r; cbn [dda_loop];
    [discriminate|].
  destruct (is_wall m _ _); [|apply IH].
  intros [= <- _]. unfold dda_step. destruct (nlt _ _); cbn; auto.
Qed.

(** C7 (as amended).  The texture column of a wall hit is
    [floor(wallX * width)], mirrored to [width - texX - 1] exactly when the
    hit is on an x-side and [rayDirX > 0], or on a y-side and
    [rayDirY < 0]; never twice.  For a fixed [wallX], reversing a ray whose
    component along the axis of the hit side is not zero exchanges the
    mirrored and the unmirrored column. *)
Theorem castWalls_texX_mirroring
    (fuel : nat) (player : Player) (m : list (list Z))
    (textures : gmap Z (list Texture)) (w h : Z) (time zoom : Q) (x : Z)
    (ws : wall_slice) :
  castWalls_column fuel player m textures w h time zoom x = Some ws ->
  let s := setup_ray player w x in
  let sd := side (ws_ray ws) in
  exists texture,
    wall_texture textures (ws_wallType ws) time = Some texture /\
    let width := t_width texture in
    let t0 := nfloor (nmul (ws_wallX ws) (ofZ width)) in
    (sd = 0 \/ sd = 1) /\
    ws_texX ws =
      (if (sd =? 0) && qlt 0 (rayDirX s) || (sd =? 1) && qlt (rayDirY s) 0
       then mirror width t0 else t0) /\
    forall rdx rdy wallX,
      (sd = 0 /\ ~ (rdx == 0)%Q) \/ (sd = 1 /\ ~ (rdy == 0)%Q) ->
      let u := nfloor (nmul wallX (ofZ width)) in
      (texX_of width sd rdx rdy wallX = u /\
       texX_of width sd (- rdx) (- rdy) wallX = mirror width u) \/
      (texX_of width sd rdx rdy wallX = mirror width u /\
       texX_of width sd (- rdx) (- rdy) wallX = u).
Proof.
  unfold castWalls_column.
  destruct (dda_loop fuel m _ _) as [[r wallType]|] eqn:Hloop; [|discriminate].
  destruct (wall_texture textures wallType time) as [texture|] eqn:Htex;
    [|discriminate].
  intros [= <-]. cbn. exists texture. split; [exact Htex|].
  pose proof (dda_loop_side _ _ _ _ _ _ Hloop) as Hside.
  split; [exact Hside|]. split.
  - unfold texX_of. destruct Hside as [-> | ->]; cbn;
      repeat match goal with
             | |- context [qlt ?a ?b] => destruct (qlt a b)
             end; reflexivity.
  - intros rdx rdy wallX Hnz. unfold texX_of.
    destruct Hnz as [[-> Hn] | [-> Hn]]; cbn.
    + destruct (qlt 0 rdx) eqn:E1; destruct (qlt 0 (- rdx)) eqn:E2;
        try (left; split; reflexivity); try (right; split; reflexivity);
        exfalso.
      * apply qlt_true in E1, E2. lra.
      * apply qlt_false in E1, E2. apply Hn. lra.
    + destruct (qlt rdy 0) eqn:E1; destruct (qlt (- rdy) 0) eqn:E2;
        try (left; split; reflexivity); try (right; split; reflexivity);
        exfalso.
      * apply qlt_true in E1, E2. lra.
      * apply qlt_false in E1, E2. apply Hn. lra.
Qed.

Lemma castWalls_texX_mirroring_witness :
  exists ws,
    castWalls_column 6 Scenario.cam_up Scenario.ring3
      Scenario.wall_textures 4 4 0 1 2 = Some ws /\
    (side (ws_ray ws) = 0 \/ side (ws_ray ws) = 1).
Proof.
  destruct (castWalls_column 6 Scenario.cam_up Scenario.ring3
              Scenario.wall_textures 4 4 0 1 2) as [ws|] eqn:E.
  - exists ws. split; [reflexivity|].
    destruct (castWalls_texX_mirroring _ _ _ _ _ _ _ _ _ ws E)
      as (texture & _ & Hside & _).
    exact Hside.
  - vm_compute in E. discriminate.
Defined.

(** C7, counterexample.  In [ring3] the camera looks along +y
    ([rayDirY = 1 > 0]) and hits the y-side of cell (1, 2) at
    [wallX = 1/4]: the column is [floor(64/4) = 16], not mirrored.  Looking
    along -y ([rayDirY = -1 < 0]) at the same [wallX], the y-side of cell
    (1, 0) gets column [64 - 16 - 1 = 47], mirrored. *)
Lemma castWalls_texX_y_side_counterexample :
  (fun ws => (side (ws_ray ws), ws_texX ws)) <$>
    castWalls_column 6 Scenario.cam_up Scenario.ring3
      Scenario.wall_textures 4 4 0 1 2 = Some (1, Fin 16) /\
  qlt 0 (rayDirY (setup_ray Scenario.cam_up 4 2)) = true /\
  (fun ws => (side (ws_ray ws), ws_texX ws)) <$>
    castWalls_column 6 Scenario.cam_down Scenario.ring3
      Scenario.wall_textures 4 4 0 1 2 = Some (1, Fin 47) /\
  qlt (rayDirY (setup_ray Scenario.cam_down 4 2)) 0 = true /\
  mirror 64 (Fin 16) = Fin 47.
Proof.
  repeat split; vm_compute; reflexivity.
Qed.

End CastWalls.

(** ** [castSprites] *)

Section CastSprites.
Import Raycaster.

Lemma insert_far_perm player sp l : insert_far player sp l ≡ₚ sp :: l.
Proof.
  induction l as [|y l IH]; cbn; [reflexivity|].
  destruct (qlt _ _); [|reflexivity].
  rewrite IH. apply perm_swap.
Qed.

Lemma spriteOrder_perm player sprites : spriteOrder player sprites ≡ₚ sprites.
Proof.
  induction sprites as [|sp l IH]; cbn; [reflexivity|].
  rewrite insert_far_perm. f_equiv. exact IH.
Qed.

Lemma ngt_zero_not_nle (a : num) :
  ngt a (Fin 0) = true -> nle a (Fin 0) = false.
Proof.
  destruct a as [q| | |]; cbn; try discriminate; try reflexivity.
  intros H. apply qlt_true in H. unfold qle.
  destruct (q ?= 0)%Q eqn:E; try reflexivity;
    [apply Qeq_alt in E | apply Qlt_alt in E]; lra.
Qed.

Lemma stripes_below_width player w h zoom sp stripe :
  stripe ∈ stripes player w h zoom sp -> 0 <= stripe < w - 1.
Proof.
  unfold stripes.
  destruct (drawStartX player w h zoom sp) as [a| | |] eqn:Ea;
    destruct (drawEndX player w h zoom sp) as [b| | |] eqn:Eb;
    try (rewrite elem_of_nil; tauto).
  rewrite elem_of_seqZ. intros [Hlo Hhi].
  assert (Ha : (0 <= a)%Q).
  { revert Ea. unfold drawStartX, nmax.
    destruct (spriteLeft player w h zoom sp) as [l| | |]; cbn;
      try discriminate; [|intros [= <-]; lra].
    destruct (qlt 0 l) eqn:El; intros [= <-]; [|lra].
    apply qlt_true in El. lra. }
  assert (Hb : (b <= inject_Z (w - 1))%Q).
  { revert Eb. unfold drawEndX, nmin, ofZ.
    destruct (nadd _ _) as [r| | |]; cbn; try discriminate;
      [|intros [= <-]; lra].
    destruct (qlt r (inject_Z (w - 1))) eqn:Er; intros [= <-]; [|lra].
    apply qlt_true in Er. lra. }
  assert (0 <= Qfloor a).
  { change 0 with (Qfloor 0). apply Qfloor_resp_le. exact Ha. }
  assert (Qfloor b <= w - 1).
  { rewrite <- (Qfloor_Z (w - 1)). apply Qfloor_resp_le. exact Hb. }
  lia.
Qed.

Lemma stripe_visible_true zBuffer player w h zoom sp stripe :
  stripe_visible zBuffer player w h zoom sp stripe = true <->
  ngt (transformY player sp) (Fin 0) = true /\ 0 < stripe < w /\
  (exists z, zBuffer !! Z.to_nat stripe = Some z /\
             nlt (transformY player sp) z = true) /\
  ngt (clippedYEnd player h zoom sp) (clippedYStart player h zoom sp) = true.
Proof.
  unfold stripe_visible. rewrite !andb_true_iff, Z.gtb_ltb, !Z.ltb_lt.
  destruct (zBuffer !! Z.to_nat stripe) as [z|].
  - split.
    + intros ((((H1 & H2) & H3) & H4) & H5). repeat split; eauto.
    + intros (H1 & (H2 & H3) & (z' & [= <-] & H4) & H5). auto.
  - split.
    + intros ((((H1 & H2) & H3) & H4) & H5). discriminate.
    + intros (H1 & (H2 & H3) & (z' & [=] & H4) & H5).
Qed.

(** C8 (as amended).  [castSprites] draws exactly the stripes drawn for
    each of its sprites.  For a sprite, the stripe of column [stripe] is
    drawn if and only if: its depth [D = transformY] is positive; it has a
    texture; [stripe] is one of the columns of the loop,
    [floor(drawStartX) <= stripe < floor(drawEndX)]; [stripe > 0]; [D] is
    strictly less than the z-buffer entry of that column; and the clipped
    vertical span is not empty.  A sprite whose depth is not positive is
    skipped. *)
Theorem castSprites_stripe_drawn_iff
    (zBuffer : list num) (player : Player) (sprites : list Sprite)
    (textures : gmap Z (list Texture)) (w h : Z) (zoom : Q) :
  (forall d,
     d ∈ castSprites zBuffer player sprites textures w h zoom <->
     exists sp, sp ∈ sprites /\
                d ∈ sprite_draws zBuffer player textures w h zoom sp) /\
  (forall sp stripe,
     (exists d, d ∈ sprite_draws zBuffer player textures w h zoom sp /\
                d_stripe d = stripe) <->
     ngt (transformY player sp) (Fin 0) = true /\
     is_Some (sprite_texture textures sp) /\
     stripe ∈ stripes player w h zoom sp /\
     0 < stripe /\
     (exists z, zBuffer !! Z.to_nat stripe = Some z /\
                nlt (transformY player sp) z = true) /\
     ngt (clippedYEnd player h zoom sp) (clippedYStart player h zoom sp)
       = true) /\
  (forall sp,
     nle (transformY player sp) (Fin 0) = true ->
     sprite_draws zBuffer player textures w h zoom sp = []).
Proof.
  split; [|split].
  - intros d. unfold castSprites.
    rewrite list_elem_of_In, in_flat_map. split.
    + intros (sp & Hsp & Hd). exists sp.
      apply list_elem_of_In in Hsp. apply list_elem_of_In in Hd.
      rewrite spriteOrder_perm in Hsp. auto.
    + intros (sp & Hsp & Hd). exists sp.
      rewrite <- !list_elem_of_In, spriteOrder_perm. auto.
  - intros sp stripe. unfold sprite_draws. split.
    + intros (d & Hd & <-).
      destruct (nle (transformY player sp) (Fin 0)) eqn:Hle;
        [apply elem_of_nil in Hd; contradiction|].
      destruct (sprite_texture textures sp) as [texture|];
        [|apply elem_of_nil in Hd; contradiction].
      apply list_elem_of_omap in Hd. destruct Hd as (st & Hst & Hv).
      destruct (stripe_visible zBuffer player w h zoom sp st) eqn:Hvis;
        [|discriminate].
      injection Hv as <-. cbn.
      apply stripe_visible_true in Hvis.
      destruct Hvis as (H1 & H2 & H3 & H4).
      repeat split; eauto; lia.
    + intros (HD & [texture Htex] & Hst & Hpos & Hz & Hy).
      rewrite (ngt_zero_not_nle _ HD), Htex.
      assert (Hvis : stripe_visible zBuffer player w h zoom sp stripe = true).
      { apply stripe_visible_true. repeat split; auto.
        apply stripes_below_width in Hst. lia. }
      eexists. split; [apply list_elem_of_omap; exists stripe; split;
                       [exact Hst | rewrite Hvis; reflexivity]|].
      reflexivity.
  - intros sp Hle. unfold sprite_draws. rewrite Hle. reflexivity.
Qed.

Lemma castSprites_stripe_drawn_witness :
  nle (transformY Scenario.cam_origin
         {| s_pos := {| vx := -1; vy := 0 |}; s_textureId := 10 |}) (Fin 0)
    = true /\
  sprite_draws Scenario.far_walls Scenario.cam_origin
    Scenario.sprite_textures 4 4 1
    {| s_pos := {| vx := -1; vy := 0 |}; s_textureId := 10 |} = [].
Proof.
  split; [vm_compute; reflexivity|].
  apply (castSprites_stripe_drawn_iff Scenario.far_walls Scenario.cam_origin
           [] Scenario.sprite_textures 4 4 1).
  vm_compute; reflexivity.
Defined.

(** C8, counterexample.  The sprite [guard] stands one unit in front of
    the camera, [D = 1], and every wall is five units away, [Z = 5].  Its
    projection is four pixels wide around screen column 2, so the loop
    runs over the columns 0, 1 and 2; [D < Z] in each of them, and yet
    column 0 is not drawn: only the stripes of columns 1 and 2 are. *)
Lemma castSprites_column_zero_counterexample :
  stripes Scenario.cam_origin 4 4 1 Scenario.guard = [0; 1; 2] /\
  ngt (transformY Scenario.cam_origin Scenario.guard) (Fin 0) = true /\
  (forall z, Scenario.far_walls !! Z.to_nat 0 = Some z ->
             nlt (transformY Scenario.cam_origin Scenario.guard) z = true) /\
  map d_stripe
    (castSprites Scenario.far_walls Scenario.cam_origin [Scenario.guard]
       Scenario.sprite_textures 4 4 1) = [1; 2].
Proof.
  split; [vm_compute; reflexivity|].
  split; [vm_compute; reflexivity|].
  split; [|vm_compute; reflexivity].
  intros z [= <-]. vm_compute. reflexivity.
Qed.

End CastSprites.

(** ** [shoot] *)

Section Shoot.
Import Raycaster Game.




Lemma take_aim_spec k env wallDist l :
  aim_of k env wallDist l (fold_left (consider k env wallDist) l aim_start).
Proof.
  induction l as [|x l IH] using rev_ind.
  - cbn. split; [reflexivity|]. intros e He. apply elem_of_nil in He. tauto.
  - rewrite fold_left_app. cbn [fold_left].
    set (a := fold_left (consider k env wallDist) l aim_start) in *.
    unfold consider, aim_of in *.
    destruct (candidate k env wallDist x) eqn:Hc.
    + destruct (closestEnemy a) as [e|] eqn:Ea.
      * destruct IH as (Hin & Hce & Hd & Hr & Hmin). rewrite Hd. cbn [nlt].
        destruct (qlt (enemy_dist k env x) (enemy_dist k env e)) eqn:Hlt.
        -- apply qlt_true in Hlt. cbn. repeat split; auto.
           ++ apply elem_of_app. right. apply list_elem_of_singleton.
              reflexivity.
           ++ intros e' He' Hc'. apply elem_of_app in He'.
              destruct He' as [He'|He'].
              ** specialize (Hmin _ He' Hc'). lra.
              ** apply list_elem_of_singleton in He'. subst e'. lra.
        -- apply qlt_false in Hlt. rewrite Ea. repeat split; auto.
           ++ apply elem_of_app. auto.
           ++ intros e' He' Hc'. apply elem_of_app in He'.
              destruct He' as [He'|He']; [auto|].
              apply list_elem_of_singleton in He'. subst e'. exact Hlt.
      * destruct IH as (Hd & Hnone). rewrite Hd. cbn.
        repeat split; auto.
        -- apply elem_of_app. right. apply list_elem_of_singleton.
           reflexivity.
        -- intros e' He' Hc'. apply elem_of_app in He'.
           destruct He' as [He'|He'].
           ++ rewrite (Hnone _ He') in Hc'. discriminate.
           ++ apply list_elem_of_singleton in He'. subst e'. lra.
    + destruct (closestEnemy a) as [e|] eqn:Ea.
      * destruct IH as (Hin & Hce & Hd & Hr & Hmin). repeat split; auto.
        -- apply elem_of_app. auto.
        -- intros e' He' Hc'. apply elem_of_app in He'.
           destruct He' as [He'|He']; [auto|].
           apply list_elem_of_singleton in He'. subst e'. congruence.
      * destruct IH as (Hd & Hnone). split; [exact Hd|].
        intros e' He'. apply elem_of_app in He'.
        destruct He' as [He'|He']; [auto|].
        apply list_elem_of_singleton in He'. subst e'. exact Hc.
Qed.

Lemma candidate_true k env wallDist e :
  candidate k env wallDist e = true ->
  (0 < e_health e)%Q /\ (enemy_perpDist env e < 1 # 2)%Q /\
  hasLineOfSight (pos (player env)) (e_pos e) (map env) = true.
Proof.
  unfold candidate. rewrite !andb_true_iff, negb_true_iff.
  intros (((Hh & _) & Hp & Hl) & _).
  split; [|split; [apply qlt_true; exact Hp | exact Hl]].
  unfold qle in Hh. destruct (e_health e ?= 0)%Q eqn:E; try discriminate.
  apply Qgt_alt in E. exact E.
Qed.



End Shoot.

(** ** The match server *)

Section ServerFacts.
Import Server.

Lemma room_at_lookup st roomId l r :
  room_at st roomId = Some (l, r) <->
  alist_get roomId (rooms st) = Some l /\ heap st !! l = Some r.
Proof.
  unfold room_at. destruct (alist_get roomId (rooms st)) as [l'|].
  - destruct (heap st !! l') as [r'|] eqn:E; split.
    + intros [= -> ->]. auto.
    + intros [[= ->] H]. rewrite E in H. injection H as ->. reflexivity.
    + discriminate.
    + intros [[= ->] H]. rewrite E in H. discriminate.
  - split; [discriminate|]. intros [[=] _].
Qed.

Lemma room_at_heap st st' roomId l r :
  rooms st' = rooms st -> heap st' = <[l := r]> (heap st) ->
  alist_get roomId (rooms st) = Some l ->
  room_at st' roomId = Some (l, r).
Proof.
  intros Hr Hh Hl. unfold room_at. rewrite Hr, Hl, Hh, lookup_insert_eq.
  reflexivity.
Qed.

(** What a [playerHit] that leaves the victim's health at or below zero
    does to the state. *)
Lemma playerHit_lethal st d suffix typeRoll l room victim :
  room_at st (h_roomId d) = Some (l, room) ->
  status room = PLAYING ->
  players room !! h_victimId d = Some victim ->
  (health victim - h_damage d <= 0)%Q ->
  let dead := hit_victim victim (h_damage d) true in
  let sc := kill_scores (h_shooterId d) (scores room) in
  let it := loot (now st) suffix typeRoll dead in
  playerHit d suffix typeRoll st =
  {| rooms := rooms st;
     heap := <[l := {| r_id := r_id room;
                       players := <[h_victimId d := dead]> (players room);
                       items := <[i_id it := it]> (items room);
                       timeLeft := timeLeft room; status := status room;
                       scores := sc;
                       timerInterval := timerInterval room |}]> (heap st);
     next_ref := next_ref st;
     timers := timers st ++
       [ {| t_id := next_timer st; t_due := now st + 3000;
            t_every := None;
            t_cb := Respawn (h_roomId d) (h_victimId d) |};
         {| t_id := S (next_timer st); t_due := now st + 5000;
            t_every := None;
            t_cb := ItemExpiry l (h_roomId d) (i_id it) |} ];
     next_timer := S (S (next_timer st));
     now := now st;
     emitted := emitted st ++
       [ (ToRoom (h_roomId d),
          healthUpdate (h_victimId d) (health victim - h_damage d) None);
         (ToRoom (h_roomId d), healthUpdate (h_victimId d) 0 (Some true));
         (ToRoom (h_roomId d),
          playerDied (h_victimId d) (h_shooterId d) sc);
         (ToRoom (h_roomId d), itemSpawn it) ] |}.
Proof.
  intros Hroom Hst Hv Hle dead sc it.
  apply room_at_lookup in Hroom as [Hl Hh].
  assert (Hq : qle (health victim - h_damage d) 0 = true)
    by (apply qle_true; exact Hle).
  unfold playerHit. unfold room_at at 1. rewrite Hl, Hh, Hst, Hv. cbn.
  rewrite Hq. unfold spawn_item, room_at. cbn.
  rewrite Hl, lookup_insert_eq. cbn. rewrite lookup_insert_eq. cbn.
  rewrite Hq. unfold setTimeout, store, emit, set_items, set_players,
    kill_scores; cbn.
  rewrite !insert_insert_eq, <- !app_assoc. cbn.
  subst dead sc it. unfold kill_scores, loot, hit_victim. cbn.
  destruct (alist_get (h_shooterId d) (scores room)); cbn;
    rewrite ?insert_insert_eq, ?Hst; reflexivity.
Qed.

Lemma alist_get_put_eq {V} k (v : V) l :
  is_Some (alist_get k l) -> alist_get k (alist_put k v l) = Some v.
Proof.
  induction l as [|[k' v'] l IH]; cbn.
  - intros [? [=]].
  - destruct (String.eqb k' k) eqn:E; cbn.
    + intros _. rewrite String.eqb_refl. reflexivity.
    + rewrite E. exact IH.
Qed.

Lemma alist_get_add_eq {V} k (v : V) l :
  alist_get k l = None -> alist_get k (alist_add k v l) = Some v.
Proof.
  induction l as [|[k' v'] l IH]; cbn.
  - intros _. rewrite String.eqb_refl. reflexivity.
  - destruct (String.eqb k' k) eqn:E; [discriminate|]. intros H.
    destruct (enumerated_before k k'); cbn.
    + rewrite String.eqb_refl. reflexivity.
    + rewrite E. exact (IH H).
Qed.

Lemma alist_get_set_eq {V} k (v : V) l : alist_get k (alist_set k v l) = Some v.
Proof.
  unfold alist_set. destruct (alist_get k l) eqn:E.
  - apply alist_get_put_eq. rewrite E. eauto.
  - apply alist_get_add_eq. exact E.
Qed.

Lemma alist_get_put_ne {V} k k' (v : V) l :
  k <> k' -> alist_get k' (alist_put k v l) = alist_get k' l.
Proof.
  intros Hne. induction l as [|[k0 v0] l IH]; cbn; [reflexivity|].
  destruct (String.eqb k0 k) eqn:E; cbn.
  - apply String.eqb_eq in E. subst k0.
    apply String.eqb_neq in Hne. rewrite Hne. reflexivity.
  - destruct (String.eqb k0 k'); [reflexivity|exact IH].
Qed.

Lemma alist_get_add_ne {V} k k' (v : V) l :
  k <> k' -> alist_get k' (alist_add k v l) = alist_get k' l.
Proof.
  intros Hne. pose proof Hne as Hb. apply String.eqb_neq in Hb.
  induction l as [|[k0 v0] l IH]; cbn.
  - rewrite Hb. reflexivity.
  - destruct (enumerated_before k k0); cbn.
    + rewrite Hb. reflexivity.
    + destruct (String.eqb k0 k'); [reflexivity|exact IH].
Qed.

Lemma alist_get_set_ne {V} k k' (v : V) l :
  k <> k' -> alist_get k' (alist_set k v l) = alist_get k' l.
Proof.
  intros Hne. unfold alist_set. destruct (alist_get k l).
  - apply alist_get_put_ne. exact Hne.
  - apply alist_get_add_ne. exact Hne.
Qed.

Lemma alist_set_keys {V} k (v : V) l :
  is_Some (alist_get k l) -> map fst (alist_set k v l) = map fst l.
Proof.
  intros H. unfold alist_set. destruct H as [w Hw]. rewrite Hw. clear Hw.
  induction l as [|[k0 v0] l IH]; cbn; [reflexivity|].
  destruct (String.eqb k0 k) eqn:E; cbn.
  - apply String.eqb_eq in E. subst k0. reflexivity.
  - rewrite IH. reflexivity.
Qed.

(** What a [playerHit] that leaves the victim alive does to the state. *)
Lemma playerHit_survived st d suffix typeRoll l room victim :
  room_at st (h_roomId d) = Some (l, room) ->
  status room = PLAYING ->
  players room !! h_victimId d = Some victim ->
  (0 < health victim - h_damage d)%Q ->
  playerHit d suffix typeRoll st =
  emit (ToRoom (h_roomId d))
    (healthUpdate (h_victimId d) (health victim - h_damage d) None)
    (store l
       (set_players
          (<[h_victimId d := hit_victim victim (h_damage d) (isDead victim)]>)
          room) st).
Proof.
  intros Hroom Hst Hv Hlt.
  apply room_at_lookup in Hroom as [Hl Hh].
  assert (Hq : qle (health victim - h_damage d) 0 = false)
    by (apply qle_false; exact Hlt).
  unfold playerHit. unfold room_at at 1. rewrite Hl, Hh, Hst, Hv. cbn.
  rewrite Hq. unfold spawn_item, room_at. cbn.
  rewrite Hl, lookup_insert_eq. cbn. rewrite lookup_insert_eq. cbn.
  rewrite Hq. reflexivity.
Qed.

(** C10.  For a hit on an existing victim in a PLAYING room, the first
    message sent is a [healthUpdate] with the health as stored after the
    subtraction, raw, and without an [isDead] flag; the stored health is
    that value.  When it is zero or negative, the very next message is the
    forced [healthUpdate] with health 0 and [isDead] true. *)
Theorem playerHit_raw_healthUpdate_first
    (st : state) (d : hit_data) (suffix : string) (typeRoll : Q)
    (l : nat) (room : room) (victim : player) :
  room_at st (h_roomId d) = Some (l, room) ->
  status room = PLAYING ->
  players room !! h_victimId d = Some victim ->
  let st' := playerHit d suffix typeRoll st in
  let raw := (health victim - h_damage d)%Q in
  exists rest room' victim',
    sent st st'
      ((ToRoom (h_roomId d), healthUpdate (h_victimId d) raw None) :: rest) /\
    room_at st' (h_roomId d) = Some (l, room') /\
    players room' !! h_victimId d = Some victim' /\
    health victim' = raw /\
    ((0 < raw)%Q -> rest = []) /\
    ((raw <= 0)%Q ->
     exists rest',
       rest = (ToRoom (h_roomId d),
               healthUpdate (h_victimId d) 0 (Some true)) :: rest').
Proof.
  intros Hroom Hst Hv st' raw.
  pose proof Hroom as Hroom'. apply room_at_lookup in Hroom' as [Hl Hh].
  destruct (Qlt_le_dec 0 raw) as [Hpos|Hneg].
  - subst st'. rewrite (playerHit_survived _ _ _ _ _ _ _ Hroom Hst Hv Hpos).
    eexists [], _, _. split; [reflexivity|]. split.
    { eapply (room_at_heap st); [reflexivity|reflexivity|exact Hl]. }
    cbn. rewrite lookup_insert_eq. split; [reflexivity|].
    split; [reflexivity|]. split; [reflexivity|].
    intros Hle. exfalso. subst raw. lra.
  - subst st'. rewrite (playerHit_lethal _ _ _ _ _ _ _ Hroom Hst Hv Hneg).
    eexists _, _, _. split; [reflexivity|]. split.
    { eapply (room_at_heap st); [reflexivity|reflexivity|exact Hl]. }
    cbn. rewrite lookup_insert_eq. split; [reflexivity|].
    split; [reflexivity|]. split.
    + intros Hlt. exfalso. subst raw. lra.
    + intros _. eexists. reflexivity.
Qed.

Lemma playerHit_raw_healthUpdate_witness :
  exists rest,
    sent Scenario.arena
      (playerHit Scenario.kill_shot "abcde" (3 # 4) Scenario.arena)
      ((ToRoom "R", healthUpdate "v" (100 - 100) None) ::
       (ToRoom "R", healthUpdate "v" 0 (Some true)) :: rest).
Proof.
  destruct (playerHit_raw_healthUpdate_first Scenario.arena
              Scenario.kill_shot "abcde" (3 # 4) 0 Scenario.arena_room
              (new_player "v" "Vic"))
    as (rest & room' & victim' & Hsent & _ & _ & _ & _ & Hdead);
    [vm_compute; reflexivity ..|].
  destruct Hdead as [rest' ->]; [vm_compute; discriminate|].
  exists rest'. exact Hsent.
Defined.

Lemma playerHit_lethal_effects st d suffix typeRoll l room victim :
  room_at st (h_roomId d) = Some (l, room) ->
  status room = PLAYING ->
  players room !! h_victimId d = Some victim ->
  (health victim - h_damage d <= 0)%Q ->
  let st' := playerHit d suffix typeRoll st in
  let dead := hit_victim victim (h_damage d) true in
  let sc := kill_scores (h_shooterId d) (scores room) in
  let it := loot (now st) suffix typeRoll dead in
  exists room',
    sent st st'
      [ (ToRoom (h_roomId d),
         healthUpdate (h_victimId d) (health victim - h_damage d) None);
        (ToRoom (h_roomId d), healthUpdate (h_victimId d) 0 (Some true));
        (ToRoom (h_roomId d), playerDied (h_victimId d) (h_shooterId d) sc);
        (ToRoom (h_roomId d), itemSpawn it) ] /\
    room_at st' (h_roomId d) = Some (l, room') /\
    status room' = PLAYING /\
    players room' = <[h_victimId d := dead]> (players room) /\
    scores room' = sc /\
    items room' = <[i_id it := it]> (items room) /\
    timers st' = timers st ++
      [ {| t_id := next_timer st; t_due := now st + 3000; t_every := None;
           t_cb := Respawn (h_roomId d) (h_victimId d) |};
        {| t_id := S (next_timer st); t_due := now st + 5000;
           t_every := None;
           t_cb := ItemExpiry l (h_roomId d) (i_id it) |} ] /\
    now st' = now st.
Proof.
  intros Hroom Hst Hv Hle st' dead sc it. subst st'.
  rewrite (playerHit_lethal _ _ _ _ _ _ _ Hroom Hst Hv Hle).
  apply room_at_lookup in Hroom as [Hl Hh].
  eexists. split; [reflexivity|]. split.
  { eapply (room_at_heap st); [reflexivity|reflexivity|exact Hl]. }
  cbn. rewrite Hst. repeat split; reflexivity.
Qed.

(** C1 (as amended).  In a PLAYING room, a [playerHit] that leaves the
    stored health of an existing victim at or below zero sends, after the
    raw [healthUpdate], exactly one [healthUpdate] with health 0 and
    [isDead] true and exactly one [playerDied]; it marks the victim dead,
    adds one to the shooter's score if the shooter is in the score map and
    spawns one item.  Nothing guards a victim that is already dead: a
    further claim with non-negative damage on the same victim, before any
    respawn, does all of this once more.  The shooter ids are keys of the
    score map or name no property inherited from [Object.prototype], so
    that [room.scores[shooterId] !== undefined] tests for a key of the
    map. *)
Theorem playerHit_death_is_announced_once_per_claim
    (st : state) (d : hit_data) (suffix : string) (typeRoll : Q)
    (l : nat) (room : room) (victim : player) :
  room_at st (h_roomId d) = Some (l, room) ->
  status room = PLAYING ->
  players room !! h_victimId d = Some victim ->
  (health victim - h_damage d <= 0)%Q ->
  plain_key (h_shooterId d) (scores room) ->
  let st' := playerHit d suffix typeRoll st in
  exists ms room',
    sent st st' ms /\
    (ToRoom (h_roomId d), healthUpdate (h_victimId d) 0 (Some true)) ∈ ms /\
    count (is_death_notice (h_victimId d)) ms = 1%nat /\
    count (is_playerDied (h_victimId d)) ms = 1%nat /\
    count is_itemSpawn ms = 1%nat /\
    room_at st' (h_roomId d) = Some (l, room') /\
    players room' !! h_victimId d
      = Some (hit_victim victim (h_damage d) true) /\
    scores room' = kill_scores (h_shooterId d) (scores room) /\
    forall d2 suffix2 typeRoll2,
      h_roomId d2 = h_roomId d -> h_victimId d2 = h_victimId d ->
      (0 <= h_damage d2)%Q ->
      plain_key (h_shooterId d2) (scores room) ->
      let st'' := playerHit d2 suffix2 typeRoll2 st' in
      exists ms2 room'',
        sent st' st'' ms2 /\
        count (is_death_notice (h_victimId d)) ms2 = 1%nat /\
        count (is_playerDied (h_victimId d)) ms2 = 1%nat /\
        count is_itemSpawn ms2 = 1%nat /\
        room_at st'' (h_roomId d) = Some (l, room'') /\
        scores room''
          = kill_scores (h_shooterId d2)
              (kill_scores (h_shooterId d) (scores room)).
Proof.
  intros Hroom Hst Hv Hle _ st'.
  destruct (playerHit_lethal_effects st d suffix typeRoll l room victim
              Hroom Hst Hv Hle)
    as (room' & Hsent & Hroom' & Hst' & Hp' & Hsc' & _).
  fold st' in Hsent, Hroom'.
  assert (Hv' : players room' !! h_victimId d
                = Some (hit_victim victim (h_damage d) true))
    by (rewrite Hp'; apply lookup_insert_eq).
  eexists _, room'. split; [exact Hsent|].
  split; [apply elem_of_cons; right; apply elem_of_cons; left; reflexivity|].
  unfold count. cbn. rewrite !String.eqb_refl. cbn.
  do 6 (split; [first [reflexivity | assumption]|]).
  intros d2 suffix2 typeRoll2 Er Ev Hd2 _.
  rewrite <- Er in Hroom'. rewrite <- Ev in Hv'.
  assert (Hle2 : (health (hit_victim victim (h_damage d) true)
                  - h_damage d2 <= 0)%Q) by (cbn; lra).
  destruct (playerHit_lethal_effects st' d2 suffix2 typeRoll2 l room' _
              Hroom' Hst' Hv' Hle2)
    as (room'' & Hsent2 & Hroom2 & _ & _ & Hsc2 & _).
  eexists _, room''. split; [exact Hsent2|].
  unfold count. cbn. rewrite Ev, !String.eqb_refl. cbn.
  do 3 (split; [reflexivity|]).
  rewrite <- Er. split; [exact Hroom2|]. rewrite Hsc2, Hsc'. reflexivity.
Qed.

Lemma playerHit_death_witness :
  exists ms,
    sent Scenario.arena
      (playerHit Scenario.kill_shot "abcde" (3 # 4) Scenario.arena) ms /\
    count (is_playerDied "v") ms = 1%nat.
Proof.
  destruct (playerHit_death_is_announced_once_per_claim Scenario.arena
              Scenario.kill_shot "abcde" (3 # 4) 0 Scenario.arena_room
              (new_player "v" "Vic"))
    as (ms & room' & Hsent & _ & _ & Hdied & _);
    [vm_compute; reflexivity ..| vm_compute; discriminate
    | left; vm_compute; eauto |].
  exists ms. split; [exact Hsent | exact Hdied].
Defined.

(** C1, counterexample.  "a" claims a kill of "v" at time 1000: the score
    of "a" is 1 and one item lies in the room; the respawn of "v" is due at
    4000.  The same claim again at time 1001, with "v" dead and not yet
    respawned, makes the score 2 and the items two, and a second
    [playerDied] and a second [itemSpawn] have been sent. *)
Lemma playerHit_second_claim_counterexample :
  (let r := Scenario.room_of_state Scenario.after_kill "R" in
   isDead <$> players r !! "v" = Some true /\
   alist_get "a" (scores r) = Some 1 /\ size (items r) = 1%nat) /\
  (exists t, t ∈ timers Scenario.after_second_claim /\
             t_cb t = Respawn "R" "v" /\ t_due t = 4000 /\
             now Scenario.after_second_claim < t_due t) /\
  (let r := Scenario.room_of_state Scenario.after_second_claim "R" in
   alist_get "a" (scores r) = Some 2 /\ size (items r) = 2%nat) /\
  count (is_playerDied "v") (emitted Scenario.after_second_claim) = 2%nat /\
  count is_itemSpawn (emitted Scenario.after_second_claim) = 2%nat.
Proof.
  split; [vm_compute; auto|]. split.
  - exists {| t_id := 1; t_due := 4000; t_every := None;
              t_cb := Respawn "R" "v" |}.
    split; [|vm_compute; auto].
    vm_compute. apply elem_of_cons. right. apply elem_of_cons. left.
    reflexivity.
  - vm_compute. auto.
Qed.

Lemma kill_scores_spec shooterId sc :
  (forall n, alist_get shooterId sc = Some n ->
             alist_get shooterId (kill_scores shooterId sc) = Some (n + 1)) /\
  (alist_get shooterId sc = None -> kill_scores shooterId sc = sc) /\
  (forall k, k <> shooterId ->
             alist_get k (kill_scores shooterId sc) = alist_get k sc) /\
  map fst (kill_scores shooterId sc) = map fst sc.
Proof.
  unfold kill_scores.
  destruct (alist_get shooterId sc) as [n|] eqn:E.
  - split; [intros n' [= <-]; apply alist_get_set_eq|].
    split; [discriminate|]. split.
    + intros k Hk. apply alist_get_set_ne. congruence.
    + apply alist_set_keys. rewrite E. eauto.
  - split; [discriminate|]. auto.
Qed.

(** C6 (as amended).  A [playerHit] that leaves an existing victim of a
    PLAYING room at or below zero health adds exactly 1 to the score of
    the shooter id when that id is in the room's score map, whoever it
    names (the victim itself included); for a shooter id that is not in
    the score map and names no property inherited from
    [Object.prototype], nothing is added and no entry is made.  No other
    score changes, and the order of the entries stays. *)
Theorem playerHit_scores_known_shooter
    (st : state) (d : hit_data) (suffix : string) (typeRoll : Q)
    (l : nat) (room : room) (victim : player) :
  room_at st (h_roomId d) = Some (l, room) ->
  status room = PLAYING ->
  players room !! h_victimId d = Some victim ->
  (health victim - h_damage d <= 0)%Q ->
  plain_key (h_shooterId d) (scores room) ->
  exists room',
    room_at (playerHit d suffix typeRoll st) (h_roomId d) = Some (l, room') /\
    (forall n, alist_get (h_shooterId d) (scores room) = Some n ->
               alist_get (h_shooterId d) (scores room') = Some (n + 1)) /\
    (alist_get (h_shooterId d) (scores room) = None ->
     inherited (h_shooterId d) = false /\ scores room' = scores room) /\
    (forall k, k <> h_shooterId d ->
               alist_get k (scores room') = alist_get k (scores room)) /\
    map fst (scores room') = map fst (scores room).
Proof.
  intros Hroom Hst Hv Hle Hkey.
  destruct (playerHit_lethal_effects st d suffix typeRoll l room victim
              Hroom Hst Hv Hle)
    as (room' & _ & Hroom' & _ & _ & Hsc' & _).
  exists room'. split; [exact Hroom'|]. rewrite Hsc'.
  destruct (kill_scores_spec (h_shooterId d) (scores room))
    as (Hinc & Hnone & Hother & Hkeys).
  split; [exact Hinc|]. split; [|split; [exact Hother|exact Hkeys]].
  intros E. split; [|exact (Hnone E)].
  destruct Hkey as [[n Hn]|Hplain]; [congruence|exact Hplain].
Qed.

Lemma playerHit_scores_witness :
  exists room',
    room_at (playerHit Scenario.kill_shot "abcde" (3 # 4) Scenario.arena) "R"
      = Some (0%nat, room') /\
    alist_get "a" (scores room') = Some 1.
Proof.
  destruct (playerHit_scores_known_shooter Scenario.arena
              Scenario.kill_shot "abcde" (3 # 4) 0 Scenario.arena_room
              (new_player "v" "Vic"))
    as (room' & Hroom' & Hinc & _);
    [vm_compute; reflexivity ..| vm_compute; discriminate
    | left; vm_compute; eauto |].
  exists room'. split; [exact Hroom'|].
  apply (Hinc 0). vm_compute. reflexivity.
Defined.

(** C6, counterexample.  "ghost" is in no room; it claims a lethal hit on
    "v" in room "R".  The victim dies, and "ghost" is the killer of the
    [playerDied] message, yet the score map is what it was: no entry for
    "ghost", nothing incremented. *)
Lemma playerHit_unknown_shooter_counterexample :
  let st' := playerHit Scenario.ghost_shot "abcde" (3 # 4) Scenario.arena in
  let r := Scenario.room_of_state st' "R" in
  isDead <$> players r !! "v" = Some true /\
  count (is_playerDied "v") (emitted st') = 1%nat /\
  scores Scenario.arena_room = [("a", 0); ("v", 0)] /\
  scores r = [("a", 0); ("v", 0)] /\
  alist_get "ghost" (scores r) = None.
Proof.
  vm_compute. auto.
Qed.

Lemma find_fresh_timer (ts : list timer) (n : nat) (t : timer)
    (rest : list timer) :
  (forall t', t' ∈ ts -> (t_id t' < n)%nat) -> t_id t = n ->
  find (fun t' => (t_id t' =? n)%nat) (ts ++ t :: rest) = Some t.
Proof.
  intros Hlt Ht. induction ts as [|t0 ts IH]; cbn.
  - rewrite Ht, Nat.eqb_refl. reflexivity.
  - assert (Hn : (t_id t0 =? n)%nat = false).
    { apply Nat.eqb_neq.
      assert (t_id t0 < n)%nat by (apply Hlt, elem_of_cons; auto). lia. }
    rewrite Hn. apply IH. intros t' Ht'. apply Hlt, elem_of_cons. auto.
Qed.

Lemma spawn_index_range (random : Q) :
  (0 <= random)%Q -> (random < 1)%Q ->
  0 <= Qfloor (random * inject_Z (Z.of_nat (length SAFE_SPAWNS))) < 5.
Proof.
  intros H0 H1. change (inject_Z (Z.of_nat (length SAFE_SPAWNS))) with 5%Q.
  split.
  - change 0 with (Qfloor 0). apply Qfloor_resp_le. lra.
  - assert (H : Qfloor (random * 5) <= Qfloor (random * 5)) by lia.
    destruct (Z_lt_le_dec (Qfloor (random * 5)) 5) as [|Hge]; [assumption|].
    exfalso. pose proof (Qfloor_le (random * 5)) as Hf.
    assert (Hq : (inject_Z 5 <= inject_Z (Qfloor (random * 5)))%Q)
      by (rewrite <- Zle_Qle; exact Hge).
    change (inject_Z 5) with 5%Q in Hq. lra.
Qed.

(** C4.  (1) A [playerHit] that leaves the victim at or below zero health
    schedules one respawn: a one-shot timer due exactly 3000 ms after the
    hit.  (2) When that timer fires, the timer is gone and the callback
    runs with the clock at the due time: if the room or the victim is no
    longer there, nothing else changes and nothing is sent; otherwise the
    victim's health is 100, [isDead] is false, the position is the entry
    [floor(random * 5)] of the five safe spawns, and the messages sent are
    a [healthUpdate] and a [playerMoved] to the room and one
    [playerRespawn], addressed to the victim's own socket room.  (3) Each
    of the five spawns is chosen on one fifth of the range of
    [Math.random()]. *)
Theorem respawn_3000ms_after_lethal_hit
    (roomId victimId : string) :
  (forall st d suffix typeRoll l room victim,
     h_roomId d = roomId -> h_victimId d = victimId ->
     room_at st roomId = Some (l, room) ->
     status room = PLAYING ->
     players room !! victimId = Some victim ->
     (health victim - h_damage d <= 0)%Q ->
     (forall t, t ∈ timers st -> (t_id t < next_timer st)%nat) ->
     let st' := playerHit d suffix typeRoll st in
     let t := {| t_id := next_timer st; t_due := now st + 3000;
                 t_every := None; t_cb := Respawn roomId victimId |} in
     exists expiry,
       timers st' = timers st ++ [t; expiry] /\
       t_cb expiry <> Respawn roomId victimId /\
       find (fun t' => (t_id t' =? next_timer st)%nat) (timers st') = Some t) /\
  (forall st tid t random,
     find (fun t' => (t_id t' =? tid)%nat) (timers st) = Some t ->
     t_cb t = Respawn roomId victimId -> t_every t = None ->
     (0 <= random)%Q -> (random < 1)%Q ->
     let st0 := set_now (Z.max (now st) (t_due t))
                  (set_timers (filter (fun t' => t_id t' <> tid) (timers st))
                     st) in
     let st' := fire tid random st in
     rooms st' = rooms st /\ now st' = Z.max (now st) (t_due t) /\
     timers st' = filter (fun t' => t_id t' <> tid) (timers st) /\
     ((room_at st roomId = None \/
       exists l room, room_at st roomId = Some (l, room) /\
                      players room !! victimId = None) ->
      st' = st0) /\
     (forall l room victim,
        room_at st roomId = Some (l, room) ->
        players room !! victimId = Some victim ->
        exists sx sy,
          SAFE_SPAWNS !! Z.to_nat (Qfloor (random * 5)) = Some (sx, sy) /\
          (sx, sy) ∈ [(5 # 2, 5 # 2); (43 # 2, 5 # 2); (5 # 2, 43 # 2);
                      (43 # 2, 43 # 2); (12, 12)]%Q /\
          heap st' =
            <[l := set_players
                     (<[victimId :=
                          {| p_x := sx; p_y := sy;
                             p_angle := p_angle victim; health := 100;
                             p_id := p_id victim; isDead := false;
                             p_name := p_name victim |}]>) room]> (heap st) /\
          sent st st'
            [ (ToRoom roomId, healthUpdate victimId 100 (Some false));
              (ToRoom roomId, playerMoved victimId sx sy 0);
              (ToRoom victimId, playerRespawn sx sy) ])) /\
  (forall random k,
     0 <= k < 5 ->
     (Qfloor (random * 5) = k <->
      (inject_Z k / 5 <= random /\ random < inject_Z (k + 1) / 5)%Q)).
Proof.
  split; [|split].
  - intros st d suffix typeRoll l room victim <- <- Hroom Hst Hv Hle Hwf.
    destruct (playerHit_lethal_effects st d suffix typeRoll l room victim
                Hroom Hst Hv Hle)
      as (room' & _ & _ & _ & _ & _ & _ & Ht & _).
    cbn. eexists. split; [exact Ht|]. split; [discriminate|].
    rewrite Ht. apply find_fresh_timer; [exact Hwf|reflexivity].
  - intros st tid t random Hfind Hcb Hev H0 H1 st0 st'.
    assert (Hfire : st' = respawn roomId victimId random st0).
    { subst st' st0. unfold fire. rewrite Hfind, Hev, Hcb. reflexivity. }
    pose proof (spawn_index_range random H0 H1) as Hi.
    assert (Hspawn : exists sx sy,
              SAFE_SPAWNS !! Z.to_nat (Qfloor (random * 5)) = Some (sx, sy) /\
              (sx, sy) ∈ SAFE_SPAWNS).
    { change (inject_Z (Z.of_nat (length SAFE_SPAWNS))) with 5%Q in Hi.
      destruct (SAFE_SPAWNS !! Z.to_nat (Qfloor (random * 5)))
        as [[sx sy]|] eqn:E.
      - exists sx, sy. split; [reflexivity|].
        eapply list_elem_of_lookup_2. exact E.
      - apply lookup_ge_None in E.
        change (length SAFE_SPAWNS) with 5%nat in E. lia. }
    rewrite Hfire. unfold respawn.
    change (room_at st0 roomId) with (room_at st roomId).
    destruct (room_at st roomId) as [[l room]|] eqn:Hroom.
    + destruct (players room !! victimId) as [victim|] eqn:Hv.
      * destruct Hspawn as (sx & sy & Hsp & Hin).
        change (inject_Z (Z.of_nat (length SAFE_SPAWNS))) with 5%Q.
        change (inject_Z (Z.of_nat (length SAFE_SPAWNS))) with 5%Q in Hi.
        destruct (Z.ltb_spec (Qfloor (random * 5)) 0) as [|_]; [lia|].
        rewrite Hsp. cbn. split; [reflexivity|]. split; [reflexivity|].
        split; [reflexivity|]. split.
        { intros [[=]|(l' & room' & [= <- <-] & Hn)]. congruence. }
        intros l' room' victim' [= <- <-] Hv'.
        rewrite Hv in Hv'. injection Hv' as <-.
        exists sx, sy. split; [reflexivity|]. split; [exact Hin|].
        split; [reflexivity|]. unfold sent. cbn.
        rewrite <- !app_assoc. reflexivity.
      * cbn. split; [reflexivity|]. split; [reflexivity|].
        split; [reflexivity|]. split; [reflexivity|].
        intros l' room' victim' [= <- <-] Hv'. congruence.
    + cbn. split; [reflexivity|]. split; [reflexivity|].
      split; [reflexivity|]. split; [reflexivity|].
      intros l' room' victim' [=].
  - intros random k Hk. rewrite Qfloor_eq_iff.
    rewrite inject_Z_plus. change (inject_Z 1) with 1%Q.
    set (a := inject_Z k).
    assert (Ea : (a / 5 == a * (1 # 5))%Q) by field.
    assert (Eb : ((a + 1) / 5 == (a + 1) * (1 # 5))%Q) by field.
    rewrite Ea, Eb. split; intros [Ha Hb]; split; lra.
Qed.

Lemma respawn_witness :
  sent Scenario.after_kill (fire 1 (7 # 10) Scenario.after_kill)
    [ (ToRoom "R", healthUpdate "v" 100 (Some false));
      (ToRoom "R", playerMoved "v" (43 # 2) (43 # 2) 0);
      (ToRoom "v", playerRespawn (43 # 2) (43 # 2)) ] /\
  now (fire 1 (7 # 10) Scenario.after_kill) = 4000.
Proof.
  destruct (proj1 (proj2 (respawn_3000ms_after_lethal_hit "R" "v"))
              Scenario.after_kill 1%nat
              {| t_id := 1; t_due := 4000; t_every := None;
                 t_cb := Respawn "R" "v" |} (7 # 10))
    as (_ & Hnow & _ & _ & Hok);
    [vm_compute; reflexivity | reflexivity | reflexivity
    | vm_compute; discriminate | vm_compute; reflexivity |].
  split; [|exact Hnow].
  destruct (Hok 0%nat (Scenario.room_of_state Scenario.after_kill "R")
              (hit_victim (new_player "v" "Vic") 100 true))
    as (sx & sy & Hsp & _ & _ & Hsent);
    [vm_compute; reflexivity ..|].
  vm_compute in Hsp. injection Hsp as <- <-. exact Hsent.
Defined.


(** The state after a room has been created and joined by its creator. *)
Lemma create_and_join_state sk roomId d un st :
  let st' := create_and_join sk roomId d un st in
  rooms st' = alist_set roomId (next_ref st) (rooms st) /\
  heap st' =
    <[next_ref st :=
        {| r_id := roomId; players := <[sk := new_player sk un]> ∅;
           items := ∅; timeLeft := d * 60; status := PLAYING;
           scores := [(sk, 0)];
           timerInterval := Some (next_timer st) |}]> (heap st) /\
  next_ref st' = S (next_ref st) /\
  timers st' = timers st ++
    [ {| t_id := next_timer st; t_due := now st + 1000;
         t_every := Some 1000; t_cb := Tick roomId (next_ref st) |} ] /\
  next_timer st' = S (next_timer st) /\
  now st' = now st /\
  exists ms, emitted st' = emitted st ++ ms.
Proof.
  unfold create_and_join, alloc. cbn.
  unfold joinRoomInternal, room_at. cbn.
  rewrite alist_get_set_eq, lookup_insert_eq. cbn.
  unfold startGameLoop, room_at. cbn.
  rewrite alist_get_set_eq, lookup_insert_eq. cbn.
  rewrite lookup_insert_eq. cbn. rewrite !insert_insert_eq.
  repeat split; try reflexivity.
  rewrite <- !app_assoc. eexists. reflexivity.
Qed.






(** [createRoom] refuses a taken custom id, or makes the room with the
    duration of the request. *)
Lemma createRoom_cases sk data uuid1 uuid2 st :
  createRoom sk data uuid1 uuid2 st
    = emit (ToSocket sk) (error "Room ID already exists") st \/
  exists roomId un,
    createRoom sk data uuid1 uuid2 st
      = create_and_join sk roomId (duration_of data) un st.
Proof.
  unfold createRoom.
  destruct data as [cid dur un|rid]; cbn;
    repeat match goal with
           | |- context [match ?x with _ => _ end] => destruct x
           end; eauto.
Qed.

(** *** Items *)













End ServerFacts.

(** ** The match server: runs *)

Section Traces.
Import Server.

(** *** Invariants along a run *)

Lemma same_item_refl i st : same_item i st st.
Proof. unfold same_item. tauto. Qed.

Lemma same_item_trans i st1 st2 st3 :
  same_item i st1 st2 -> same_item i st2 st3 -> same_item i st1 st3.
Proof.
  intros (A1 & B1 & C1 & D1) (A2 & B2 & C2 & D2).
  split; [|split; [|split]].
  - intros l. rewrite A2. apply A1.
  - congruence.
  - congruence.
  - intros t Ht. rewrite (D2 t Ht). apply D1. exact Ht.
Qed.

Lemma frame_start P st : wf st -> frame P st st.
Proof. intros H. split; [exact H|]. intros. apply same_item_refl. Qed.

Lemma alist_get_elem {V} k (v : V) l : alist_get k l = Some v -> (k, v) ∈ l.
Proof.
  induction l as [|[k' v'] l IH]; cbn; [discriminate|].
  destruct (String.eqb k' k) eqn:E.
  - intros [= ->]. apply String.eqb_eq in E. subst k'. apply elem_of_cons.
    left. reflexivity.
  - intros H. apply elem_of_cons. right. exact (IH H).
Qed.

Lemma alist_set_elem {V} (e : string * V) k v l :
  e ∈ alist_set k v l -> e = (k, v) \/ e ∈ l.
Proof.
  unfold alist_set. destruct (alist_get k l) as [w|].
  - induction l as [|[k' v'] l IH]; cbn.
    + intros H. apply elem_of_nil in H. tauto.
    + destruct (String.eqb k' k).
      * intros H. apply elem_of_cons in H. destruct H as [H|H]; [auto|].
        right. apply elem_of_cons. auto.
      * intros H. apply elem_of_cons in H. destruct H as [H|H].
        -- right. apply elem_of_cons. auto.
        -- destruct (IH H) as [H'|H']; [auto|].
           right. apply elem_of_cons. auto.
  - induction l as [|[k' v'] l IH]; cbn.
    + intros H. apply list_elem_of_singleton in H. auto.
    + destruct (enumerated_before k k').
      * intros H. apply elem_of_cons in H. destruct H as [H|H]; auto.
      * intros H. apply elem_of_cons in H. destruct H as [H|H].
        -- right. apply elem_of_cons. auto.
        -- destruct (IH H) as [H'|H']; [auto|].
           right. apply elem_of_cons. auto.
Qed.

Lemma alist_set_nonempty {V} k (v : V) l : alist_set k v l <> [].
Proof.
  intros H. pose proof (alist_get_set_eq k v l) as E. rewrite H in E.
  discriminate.
Qed.

(** A score board stays good when an entry of it is set to a score that
    is not negative, ... *)
Lemma good_scores_set k v (r r' : room) :
  good_scores r -> 0 <= v ->
  scores r' = alist_set k v (scores r) ->
  good_scores r'.
Proof.
  intros [_ Hnn] Hv Hsc. split; rewrite Hsc.
  - intros _. apply alist_set_nonempty.
  - intros e He. apply alist_set_elem in He. destruct He as [->|He];
      [exact Hv|auto].
Qed.

(** ... and when the status of its room changes, unless an empty board
    starts to be played. *)
Lemma good_scores_status s (r : room) :
  good_scores r -> scores r <> [] \/ s <> PLAYING ->
  good_scores (set_status s r).
Proof.
  intros [_ Hnn] H. split; [|exact Hnn].
  cbn. intros E. destruct H as [H|H]; [exact H|congruence].
Qed.

Lemma count_app f (a b : list (target * event)) :
  count f (a ++ b) = (count f a + count f b)%nat.
Proof. unfold count. rewrite List.filter_app, length_app. reflexivity. Qed.

Lemma count_snoc f (a : list (target * event)) x :
  count f (a ++ [x]) = (count f a + if f x then 1 else 0)%nat.
Proof. rewrite count_app. unfold count. cbn. destruct (f x); reflexivity. Qed.

Lemma frame_emit P st0 st tg ev :
  frame P st0 st ->
  (forall i, P i -> is_spawn_of i (tg, ev) = false /\
                    is_itemRemoved i (tg, ev) = false) ->
  frame P st0 (emit tg ev st).
Proof.
  intros [Hwf Hs] Hev. split.
  - destruct Hwf. constructor; assumption.
  - intros i Hi. eapply same_item_trans; [apply Hs, Hi|].
    destruct (Hev i Hi) as [E1 E2].
    split; [intros l; reflexivity|]. unfold spawned, removed.
    change (emitted (emit tg ev st)) with (emitted st ++ [(tg, ev)]).
    rewrite !count_snoc, E1, E2.
    split; [lia|]. split; [lia|]. intros t Ht. reflexivity.
Qed.

Lemma frame_set_now P st0 st t :
  frame P st0 st -> frame P st0 (set_now t st).
Proof.
  intros [Hwf Hs]. split.
  - destruct Hwf. constructor; assumption.
  - intros i Hi. eapply same_item_trans; [apply Hs, Hi|].
    unfold same_item. tauto.
Qed.

Lemma frame_set_rooms P st0 st rs :
  frame P st0 st -> frame P st0 (set_rooms rs st).
Proof.
  intros [Hwf Hs]. split.
  - destruct Hwf. constructor; assumption.
  - intros i Hi. eapply same_item_trans; [apply Hs, Hi|].
    unfold same_item. tauto.
Qed.

Lemma items_at_store st l r l' :
  items_at (store l r st) l' = if decide (l = l') then items r else items_at st l'.
Proof.
  unfold items_at. cbn. rewrite lookup_insert. destruct (decide (l = l')); reflexivity.
Qed.

Lemma frame_store P st0 st l r r0 :
  frame P st0 st ->
  heap st !! l = Some r0 ->
  (forall i, P i -> items r !! i = items r0 !! i) ->
  (timerInterval r = timerInterval r0 \/
   exists tid, timerInterval r = Some tid /\ (tid < next_timer st)%nat /\
               forall t, t ∈ timers st -> t_id t = tid ->
                         is_tick (t_cb t) = true) ->
  (good_scores r0 -> good_scores r) ->
  frame P st0 (store l r st).
Proof.
  intros [Hwf Hs] Hh Hit Hti Hgood. split.
  - destruct Hwf as [W1 W2 W3 W4 W5 W6 W7]. constructor; cbn; try assumption.
    + intros l' Hl'. rewrite lookup_insert in Hl'.
      destruct (decide (l = l')) as [<-|]; [|auto].
      apply W3. rewrite Hh. eauto.
    + intros l' r' tid Hl' Ht'. rewrite lookup_insert in Hl'.
      destruct (decide (l = l')) as [<-|]; [|eauto].
      injection Hl' as <-.
      destruct Hti as [E|(tid' & E & Hlt & Ht)].
      * rewrite E in Ht'. eauto.
      * rewrite E in Ht'. injection Ht' as <-. auto.
    + intros l' r' Hl'. rewrite lookup_insert in Hl'.
      destruct (decide (l = l')) as [<-|]; [|eauto].
      injection Hl' as <-. eauto.
  - intros i Hi. eapply same_item_trans; [apply Hs, Hi|].
    unfold same_item, spawned, removed. cbn.
    split; [|tauto]. intros l'. rewrite items_at_store.
    destruct (decide (l = l')) as [<-|]; [|reflexivity].
    unfold items_at. rewrite Hh. apply Hit, Hi.
Qed.

Lemma frame_alloc P st0 st r :
  frame P st0 st -> items r = ∅ -> timerInterval r = None ->
  good_scores r ->
  frame P st0 (snd (alloc r st)).
Proof.
  intros [Hwf Hs] Hit Hti Hgood. split.
  - destruct Hwf as [W1 W2 W3 W4 W5 W6 W7]. constructor; cbn; try assumption.
    + intros l' Hl'. rewrite lookup_insert in Hl'.
      destruct (decide (next_ref st = l')) as [<-|]; [lia|].
      specialize (W3 _ Hl'). lia.
    + intros l' r' tid Hl' Ht'. rewrite lookup_insert in Hl'.
      destruct (decide (next_ref st = l')) as [<-|]; [|eauto].
      injection Hl' as <-. congruence.
    + intros l' r' Hl'. rewrite lookup_insert in Hl'.
      destruct (decide (next_ref st = l')) as [<-|]; [|eauto].
      injection Hl' as <-. exact Hgood.
  - intros i Hi. eapply same_item_trans; [apply Hs, Hi|].
    unfold same_item, spawned, removed. cbn.
    split; [|tauto]. intros l'. unfold items_at. cbn. rewrite lookup_insert.
    destruct (decide (next_ref st = l')) as [<-|]; [|reflexivity].
    rewrite Hit. destruct (heap st !! next_ref st) as [r1|] eqn:E;
      [|reflexivity].
    destruct Hwf as [_ _ W3 _ _ _ _].
    assert (next_ref st < next_ref st)%nat by (apply W3; rewrite E; eauto).
    lia.
Qed.

Lemma frame_add_timer P st0 st every cb delay :
  frame P st0 st ->
  (forall i, P i -> expires i cb = false) ->
  (is_tick cb = false -> every = None) ->
  (forall l rid i, cb = ItemExpiry l rid i ->
     exists T sfx, i = pretty T +:+ sfx /\ now st + delay = T + 5000) ->
  frame P st0 (snd (add_timer every cb delay st)).
Proof.
  intros [Hwf Hs] Hex Hone Hdue. split.
  - destruct Hwf as [W1 W2 W3 W4 W5 W6 W7]. constructor; cbn; try assumption.
    + intros t Ht. apply elem_of_app in Ht. destruct Ht as [Ht|Ht].
      * specialize (W1 _ Ht). lia.
      * apply list_elem_of_singleton in Ht. subst t. cbn. lia.
    + rewrite map_app. cbn. apply NoDup_app. split; [exact W2|]. split.
      * intros x Hx Hx'. apply list_elem_of_singleton in Hx'. subst x.
        apply list_elem_of_fmap in Hx. destruct Hx as (t & E & Ht).
        specialize (W1 _ Ht). lia.
      * apply NoDup_singleton.
    + intros l r tid Hl Ht. destruct (W4 _ _ _ Hl Ht) as [Hlt Hall].
      split; [lia|]. intros t Hin Hid. apply elem_of_app in Hin.
      destruct Hin as [Hin|Hin]; [eauto|].
      apply list_elem_of_singleton in Hin. subst t. cbn in Hid. lia.
    + intros t Hin Htick. apply elem_of_app in Hin.
      destruct Hin as [Hin|Hin]; [eauto|].
      apply list_elem_of_singleton in Hin. subst t. cbn in *. auto.
    + intros t l rid i Hin Hcb. apply elem_of_app in Hin.
      destruct Hin as [Hin|Hin]; [eauto|].
      apply list_elem_of_singleton in Hin. subst t. cbn in *. eauto.
  - intros i Hi. eapply same_item_trans; [apply Hs, Hi|].
    unfold same_item, spawned, removed. cbn.
    split; [tauto|]. split; [tauto|]. split; [tauto|].
    intros t Ht. rewrite elem_of_app, list_elem_of_singleton.
    split; [|tauto]. intros [H | ->]; [exact H|].
    cbn in Ht. rewrite (Hex i Hi) in Ht. discriminate.
Qed.

Lemma NoDup_ids_filter (f : timer -> Prop) `{!forall t, Decision (f t)}
    (ts : list timer) :
  NoDup (map t_id ts) -> NoDup (map t_id (filter f ts)).
Proof.
  induction ts as [|t ts IH]; [auto|].
  intros Hnd. cbn [map] in Hnd. apply NoDup_cons in Hnd as [Hnin Hnd].
  destruct (decide (f t)).
  - rewrite filter_cons_True by assumption. cbn [map]. apply NoDup_cons.
    split; [|auto]. intros Hin. apply Hnin.
    apply list_elem_of_fmap in Hin. destruct Hin as (t' & E & Hin).
    apply list_elem_of_fmap. exists t'. split; [exact E|].
    apply list_elem_of_filter in Hin. tauto.
  - rewrite filter_cons_False by assumption. auto.
Qed.

Lemma timer_id_unique (ts : list timer) t t' :
  NoDup (map t_id ts) -> t ∈ ts -> t' ∈ ts -> t_id t = t_id t' -> t = t'.
Proof.
  induction ts as [|t0 ts IH]; cbn; intros Hnd Ht Ht' E.
  - apply elem_of_nil in Ht. destruct Ht.
  - apply NoDup_cons in Hnd as [Hnin Hnd].
    apply elem_of_cons in Ht. apply elem_of_cons in Ht'.
    destruct Ht as [->|Ht]; destruct Ht' as [->|Ht']; auto.
    + exfalso. apply Hnin. apply list_elem_of_fmap. eauto.
    + exfalso. apply Hnin. apply list_elem_of_fmap. eauto.
Qed.

Lemma find_timer (ts : list timer) tid t :
  find (fun t' => (t_id t' =? tid)%nat) ts = Some t -> t ∈ ts /\ t_id t = tid.
Proof.
  intros H. apply find_some in H as [Hin E].
  split; [apply list_elem_of_In; exact Hin | apply Nat.eqb_eq; exact E].
Qed.

Lemma frame_filter P st0 st tid :
  frame P st0 st ->
  (forall t i, t ∈ timers st -> t_id t = tid -> P i ->
               expires i (t_cb t) = false) ->
  frame P st0
    (set_timers (filter (fun t => t_id t <> tid) (timers st)) st).
Proof.
  intros [Hwf Hs] Hex. split.
  - destruct Hwf as [W1 W2 W3 W4 W5 W6 W7]. constructor; cbn; try assumption.
    + intros t Ht. apply list_elem_of_filter in Ht. apply W1. tauto.
    + apply NoDup_ids_filter. exact W2.
    + intros l r tid' Hl Ht. destruct (W4 _ _ _ Hl Ht) as [Hlt Hall].
      split; [exact Hlt|]. intros t Hin. apply list_elem_of_filter in Hin.
      apply Hall. tauto.
    + intros t Hin. apply list_elem_of_filter in Hin. apply W5. tauto.
    + intros t l rid i Hin. apply list_elem_of_filter in Hin.
      apply W6. tauto.
  - intros i Hi. eapply same_item_trans; [apply Hs, Hi|].
    unfold same_item, spawned, removed. cbn.
    split; [tauto|]. split; [tauto|]. split; [tauto|].
    intros t Ht. rewrite list_elem_of_filter. split; [tauto|].
    intros Hin. split; [|exact Hin]. intros E.
    rewrite (Hex t i Hin E Hi) in Ht. discriminate.
Qed.

Lemma frame_clearInterval P st0 st h :
  frame P st0 st ->
  (forall tid t, h = Some tid -> t ∈ timers st -> t_id t = tid ->
                 is_tick (t_cb t) = true) ->
  frame P st0 (clearInterval h st).
Proof.
  intros F Hh. destruct h as [tid|]; [|exact F]. cbn.
  apply frame_filter; [exact F|].
  intros t i Hin E _. specialize (Hh tid t eq_refl Hin E).
  destruct (t_cb t); cbn in *; congruence.
Qed.

Lemma rearm_id tid p t : t_id (rearm tid p t) = t_id t.
Proof. unfold rearm. destruct (_ =? _)%nat; reflexivity. Qed.

Lemma rearm_cb tid p t : t_cb (rearm tid p t) = t_cb t.
Proof. unfold rearm. destruct (_ =? _)%nat; reflexivity. Qed.

Lemma rearm_every tid p t : t_every (rearm tid p t) = t_every t.
Proof. unfold rearm. destruct (_ =? _)%nat; reflexivity. Qed.

Lemma rearm_other tid p t : t_id t <> tid -> rearm tid p t = t.
Proof.
  intros H. unfold rearm. destruct (Nat.eqb_spec (t_id t) tid); congruence.
Qed.

Lemma frame_rearm P st0 st tid p :
  frame P st0 st ->
  (forall t, t ∈ timers st -> t_id t = tid -> is_tick (t_cb t) = true) ->
  frame P st0 (set_timers (map (rearm tid p) (timers st)) st).
Proof.
  intros [Hwf Hs] Htick.
  assert (Hexp : forall t l rid i, t ∈ timers st ->
            t_cb t = ItemExpiry l rid i -> rearm tid p t = t).
  { intros t l rid i Hin Hcb. apply rearm_other. intros E.
    specialize (Htick t Hin E). rewrite Hcb in Htick. discriminate. }
  split.
  - destruct Hwf as [W1 W2 W3 W4 W5 W6 W7]. constructor; cbn; try assumption.
    + intros t Ht. apply list_elem_of_fmap in Ht. destruct Ht as (t0 & -> & Ht).
      rewrite rearm_id. auto.
    + rewrite map_map. erewrite map_ext; [exact W2|].
      intros t. apply rearm_id.
    + intros l r tid' Hl Ht. destruct (W4 _ _ _ Hl Ht) as [Hlt Hall].
      split; [exact Hlt|]. intros t Hin.
      apply list_elem_of_fmap in Hin. destruct Hin as (t0 & -> & Hin).
      rewrite rearm_id, rearm_cb. auto.
    + intros t Hin. apply list_elem_of_fmap in Hin.
      destruct Hin as (t0 & -> & Hin).
      rewrite rearm_cb, rearm_every. auto.
    + intros t l rid i Hin Hcb. apply list_elem_of_fmap in Hin.
      destruct Hin as (t0 & -> & Hin). rewrite rearm_cb in Hcb.
      rewrite (Hexp _ _ _ _ Hin Hcb). eauto.
  - intros i Hi. eapply same_item_trans; [apply Hs, Hi|].
    unfold same_item, spawned, removed. cbn.
    split; [tauto|]. split; [tauto|]. split; [tauto|].
    intros t Ht.
    assert (Hcb : exists l rid, t_cb t = ItemExpiry l rid i).
    { destruct (t_cb t) as [| l rid i' |]; cbn in Ht; try discriminate.
      apply String.eqb_eq in Ht. subst i'. eauto. }
    destruct Hcb as (l & rid & Hcb). split.
    + intros Hin. apply list_elem_of_fmap in Hin.
      destruct Hin as (t0 & -> & Hin). rewrite rearm_cb in Hcb.
      rewrite (Hexp _ _ _ _ Hin Hcb). exact Hin.
    + intros Hin. apply list_elem_of_fmap. exists t.
      split; [|exact Hin]. symmetry. eapply Hexp; eauto.
Qed.

Ltac plain_event := intros; split; reflexivity.

Lemma room_at_heap_lookup st roomId l r :
  room_at st roomId = Some (l, r) -> heap st !! l = Some r.
Proof. intros H. apply room_at_lookup in H. tauto. Qed.

Lemma frame_startGameLoop P st0 st roomId :
  frame P st0 st -> frame P st0 (startGameLoop roomId st).
Proof.
  intros F. unfold startGameLoop.
  destruct (room_at st roomId) as [[l room]|] eqn:Hroom; [|exact F].
  apply room_at_heap_lookup in Hroom.
  destruct (timerInterval room) eqn:Hti; [exact F|].
  unfold setInterval.
  assert (F1 : frame P st0 (snd (add_timer (Some 1000) (Tick roomId l) 1000 st))).
  { apply frame_add_timer; [exact F|reflexivity|discriminate|discriminate]. }
  destruct F as [[W1 _ _ _ _ _] _].
  cbn. eapply (frame_store _ _ _ _ _ room F1);
    [exact Hroom|reflexivity| |exact (fun H => H)].
  right. exists (next_timer st). split; [reflexivity|]. cbn. split; [lia|].
  intros t Hin E. apply elem_of_app in Hin. destruct Hin as [Hin|Hin].
  - specialize (W1 _ Hin). lia.
  - apply list_elem_of_singleton in Hin. subst t. reflexivity.
Qed.

Lemma frame_joinRoomInternal P st0 st sk roomId un :
  frame P st0 st -> frame P st0 (joinRoomInternal sk roomId un st).
Proof.
  intros F. unfold joinRoomInternal.
  destruct (room_at st roomId) as [[l room]|] eqn:Hroom;
    [|apply frame_emit; [exact F|plain_event]].
  apply room_at_heap_lookup in Hroom.
  set (room1 := set_scores _ (set_players _ room)).
  assert (F1 : frame P st0 (store l room1 st)).
  { eapply frame_store; [exact F|exact Hroom|reflexivity|left; reflexivity|].
    intros G. eapply (good_scores_set sk 0); [exact G|lia|reflexivity]. }
  set (st3 := if is_waiting (status room1) then _ else _).
  assert (F3 : frame P st0 st3).
  { subst st3. destruct (is_waiting (status room1)); [|exact F1].
    apply frame_startGameLoop.
    eapply (frame_store _ _ _ _ _ room1 F1);
      [cbn; apply lookup_insert_eq|reflexivity|left; reflexivity|].
    intros G. apply good_scores_status; [exact G|].
    left. apply alist_set_nonempty. }
  apply frame_emit; [|plain_event].
  destruct (heap st3 !! l); [|exact F3].
  apply frame_emit; [exact F3|plain_event].
Qed.

Lemma frame_create_and_join P st0 st sk roomId d un :
  frame P st0 st -> frame P st0 (create_and_join sk roomId d un st).
Proof.
  intros F. unfold create_and_join.
  assert (G : good_scores (new_room roomId d)).
  { split; cbn; [discriminate|]. intros e He. inversion He. }
  pose proof (frame_alloc P st0 st (new_room roomId d) F eq_refl eq_refl G)
    as F1.
  destruct (alloc (new_room roomId d) st) as [l st1]. cbn [snd] in F1.
  apply frame_emit; [|plain_event].
  apply frame_joinRoomInternal.
  apply frame_emit; [|plain_event].
  apply frame_set_rooms. exact F1.
Qed.

Lemma frame_createRoom P st0 st sk data uuid1 uuid2 :
  frame P st0 st -> frame P st0 (createRoom sk data uuid1 uuid2 st).
Proof.
  intros F.
  destruct (createRoom_cases sk data uuid1 uuid2 st) as [->|(rid & un & ->)].
  - apply frame_emit; [exact F|plain_event].
  - apply frame_create_and_join. exact F.
Qed.

Lemma frame_joinRoom P st0 st sk data :
  frame P st0 st -> frame P st0 (joinRoom sk data st).
Proof.
  intros F. destruct data; cbn; apply frame_joinRoomInternal; exact F.
Qed.

Lemma frame_playerMove P st0 st sk d :
  frame P st0 st -> frame P st0 (playerMove sk d st).
Proof.
  intros F. unfold playerMove.
  destruct (room_at st (m_roomId d)) as [[l room]|] eqn:Hroom; [|exact F].
  apply room_at_heap_lookup in Hroom.
  destruct (is_playing (status room)); [|exact F].
  destruct (players room !! sk); [|exact F].
  apply frame_emit; [|plain_event].
  eapply frame_store; [exact F|exact Hroom|reflexivity|left; reflexivity|exact (fun H => H)].
Qed.

Lemma frame_finishGame P st0 st roomId :
  frame P st0 st -> frame P st0 (finishGame roomId st).
Proof.
  intros F. unfold finishGame.
  destruct (room_at st roomId) as [[l room]|] eqn:Hroom; [|exact F].
  apply room_at_heap_lookup in Hroom.
  destruct (winner (set_status FINISHED room)) as [[m w] n].
  apply frame_emit; [|plain_event].
  assert (F1 : frame P st0 (store l (set_status FINISHED room) st)).
  { eapply frame_store; [exact F|exact Hroom|reflexivity|left; reflexivity|].
    intros G. apply good_scores_status; [exact G|right; discriminate]. }
  apply frame_clearInterval; [exact F1|].
  intros tid t Hti Hin E. cbn in Hti, Hin.
  destruct F as [[_ _ _ W4 _ _ _] _].
  destruct (W4 _ _ _ Hroom Hti) as [_ Hall]. auto.
Qed.

Lemma frame_tick P st0 st roomId l :
  frame P st0 st -> frame P st0 (tick roomId l st).
Proof.
  intros F. unfold tick.
  destruct (alist_get roomId (rooms st)); [|exact F].
  destruct (heap st !! l) as [room|] eqn:Hh; [|exact F].
  assert (F1 : frame P st0
            (emit (ToRoom roomId) (timeUpdate (timeLeft room - 1))
               (store l (set_timeLeft (timeLeft room - 1) room) st))).
  { apply frame_emit; [|plain_event].
    eapply frame_store; [exact F|exact Hh|reflexivity|left; reflexivity|exact (fun H => H)]. }
  cbn [timeLeft set_timeLeft].
  destruct (timeLeft room - 1 <=? 0); [|exact F1].
  apply frame_finishGame. exact F1.
Qed.

Lemma frame_respawn P st0 st roomId victimId random :
  frame P st0 st -> frame P st0 (respawn roomId victimId random st).
Proof.
  intros F. unfold respawn.
  destruct (room_at st roomId) as [[l room]|] eqn:Hroom; [|exact F].
  apply room_at_heap_lookup in Hroom.
  destruct (players room !! victimId); [|exact F].
  destruct (if _ <? 0 then None else _) as [[sx sy]|]; [|exact F].
  do 3 (apply frame_emit; [|plain_event]).
  eapply frame_store; [exact F|exact Hroom|reflexivity|left; reflexivity|exact (fun H => H)].
Qed.

Lemma frame_disconnect P st0 st sk :
  frame P st0 st -> frame P st0 (disconnect sk st).
Proof.
  intros F. unfold disconnect.
  destruct (room_of sk (heap st) (rooms st)) as [[[roomId l] room]|] eqn:Hof;
    [|exact F].
  assert (Hh : heap st !! l = Some room).
  { clear -Hof. induction (rooms st) as [|[rid l'] rs IH]; [discriminate|].
    cbn in Hof. destruct (heap st !! l') as [r'|] eqn:E; [|auto].
    destruct (players r' !! sk); [|auto]. congruence. }
  set (room1 := set_players (delete sk) room).
  assert (F1 : frame P st0 (emit (ToRoom roomId) (playerLeft sk)
                              (store l room1 st))).
  { apply frame_emit; [|plain_event].
    eapply frame_store; [exact F|exact Hh|reflexivity|left; reflexivity|exact (fun H => H)]. }
  apply frame_emit; [|plain_event].
  destruct (size (players room1) =? 0)%nat; [|exact F1].
  apply frame_set_rooms. apply frame_clearInterval; [exact F1|].
  intros tid t Hti Hin E. cbn in Hti, Hin.
  destruct F as [[_ _ _ W4 _ _ _] _].
  destruct (W4 _ _ _ Hh Hti) as [_ Hall]. auto.
Qed.



(** The part of [playerHit] that comes before the item is spawned. *)
Lemma playerHit_before_spawn P st0 st d suffix typeRoll :
  frame P st0 st ->
  playerHit d suffix typeRoll st = st \/
  exists st2,
    playerHit d suffix typeRoll st
      = spawn_item (h_roomId d) (h_victimId d) suffix typeRoll st2 /\
    frame P st0 st2 /\ now st2 = now st.
Proof.
  intros F. unfold playerHit.
  destruct (room_at st (h_roomId d)) as [[l room]|] eqn:Hroom; [|auto].
  apply room_at_heap_lookup in Hroom.
  destruct (negb (is_playing (status room))); [auto|].
  destruct (players room !! h_victimId d) as [victim|]; [|auto].
  right. eexists. split; [reflexivity|].
  set (victim1 := {| p_x := p_x victim; p_y := p_y victim;
                     p_angle := p_angle victim;
                     health := health victim - h_damage d;
                     p_id := p_id victim; isDead := isDead victim;
                     p_name := p_name victim |}).
  set (room1 := set_players (<[h_victimId d := victim1]>) room).
  assert (F1 : frame P st0
            (emit (ToRoom (h_roomId d))
               (healthUpdate (h_victimId d) (health victim1) None)
               (store l room1 st))).
  { apply frame_emit; [|plain_event].
    eapply frame_store; [exact F|exact Hroom|reflexivity|left; reflexivity|exact (fun H => H)]. }
  destruct (qle (health victim1) 0); [|split; [exact F1|reflexivity]].
  split; [|reflexivity].
  unfold setTimeout. apply frame_add_timer;
    [|reflexivity|reflexivity|discriminate].
  do 2 (apply frame_emit; [|plain_event]).
  eapply (frame_store _ _ _ _ _ room1 F1);
    [cbn; apply lookup_insert_eq| |left|].
  - intros i _. destruct (alist_get _ _); reflexivity.
  - destruct (alist_get _ _); reflexivity.
  - intros G. destruct (alist_get _ _) as [n|] eqn:Hn; [|exact G].
    destruct G as [_ Hnn]. pose proof (Hnn _ (alist_get_elem _ _ _ Hn)) as H0.
    eapply (good_scores_set (h_shooterId d) (n + 1) room1);
      [split; [intros _|exact Hnn]|cbn in H0; lia|reflexivity].
    intros E. rewrite E in Hn. discriminate.
Qed.

Lemma spawn_item_cases roomId victimId suffix typeRoll st :
  spawn_item roomId victimId suffix typeRoll st = st \/
  exists l r it,
    heap st !! l = Some r /\ i_id it = pretty (now st) +:+ suffix /\
    spawn_item roomId victimId suffix typeRoll st =
    snd (add_timer None (ItemExpiry l roomId (i_id it)) 5000
           (emit (ToRoom roomId) (itemSpawn it)
              (store l (set_items (<[i_id it := it]>) r) st))).
Proof.
  unfold spawn_item.
  destruct (room_at st roomId) as [[l room]|] eqn:Hroom; [|auto].
  apply room_at_heap_lookup in Hroom.
  destruct (players room !! victimId) as [victim|]; [|auto].
  destruct (qle (health victim) 0); [|auto].
  right.
  exists l, room,
    {| i_id := pretty (now st) +:+ suffix; i_x := p_x victim;
       i_y := p_y victim;
       i_type := if qlt (1 # 2) typeRoll then 50 else 51 |}.
  split; [exact Hroom|]. split; reflexivity.
Qed.







Lemma wf_init : wf init.
Proof.
  constructor; cbn.
  - intros t Ht. apply elem_of_nil in Ht. destruct Ht.
  - apply NoDup_nil. exact I.
  - intros l [r Hr]. rewrite lookup_empty in Hr. discriminate.
  - intros l r tid Hr. rewrite lookup_empty in Hr. discriminate.
  - intros t Ht. apply elem_of_nil in Ht. destruct Ht.
  - intros t l rid i Ht. apply elem_of_nil in Ht. destruct Ht.
  - intros l r Hr. rewrite lookup_empty in Hr. discriminate.
Qed.





(** Well-formedness alone needs no assumption on the item ids. *)
Lemma wf_frame st st' : frame (fun _ => False) st st' -> wf st'.
Proof. intros [H _]. exact H. Qed.

Lemma wf_playerHit d suffix typeRoll st :
  wf st -> wf (playerHit d suffix typeRoll st).
Proof.
  intros Hwf.
  destruct (playerHit_before_spawn (fun _ => False) st st d suffix typeRoll
              (frame_start _ _ Hwf)) as [->|(st2 & -> & F2 & Hnow)];
    [exact Hwf|].
  destruct (spawn_item_cases (h_roomId d) (h_victimId d) suffix typeRoll st2)
    as [->|(l & r & it & Hh & Hid & ->)]; [exact (wf_frame _ _ F2)|].
  apply (wf_frame st). apply frame_add_timer.
  - apply frame_emit; [|intros i []].
    eapply frame_store;
      [exact F2|exact Hh|intros i []|left; reflexivity|exact (fun H => H)].
  - intros i [].
  - reflexivity.
  - intros l' rid' i' [= <- <- <-]. exists (now st2), suffix.
    split; [exact Hid|reflexivity].
Qed.

Lemma wf_pickupItem sk d st : wf st -> wf (pickupItem sk d st).
Proof.
  intros Hwf. unfold pickupItem.
  destruct (room_at st (k_roomId d)) as [[l room]|] eqn:Hroom; [|exact Hwf].
  apply room_at_heap_lookup in Hroom.
  destruct (items room !! k_itemId d) as [it|].
  2:{ destruct (prototype_member (k_itemId d)); [|exact Hwf].
      apply (wf_frame st).
      do 2 (apply frame_emit; [|intros i []]). apply frame_start.
      exact Hwf. }
  apply (wf_frame st).
  eapply (frame_store _ _ _ _ _ room);
    [|exact Hroom|intros i []|left; reflexivity|exact (fun H => H)].
  do 2 (apply frame_emit; [|intros i []]). apply frame_start. exact Hwf.
Qed.

Lemma wf_itemExpiry l roomId i st : wf st -> wf (itemExpiry l roomId i st).
Proof.
  intros Hwf. unfold itemExpiry.
  destruct (heap st !! l) as [room|] eqn:Hh; [|exact Hwf].
  destruct (items room !! i) as [it|]; [|exact Hwf].
  apply (wf_frame st). apply frame_emit; [|intros j []].
  eapply (frame_store _ _ _ _ _ room);
    [apply frame_start; exact Hwf|exact Hh|intros j []|left; reflexivity
    |exact (fun H => H)].
Qed.

Lemma wf_fire tid random st : wf st -> wf (fire tid random st).
Proof.
  intros Hwf. unfold fire.
  destruct (find _ (timers st)) as [t|] eqn:Hfind; [|exact Hwf].
  apply find_timer in Hfind as [Hin Hid].
  assert (Honly : forall t', t' ∈ timers st -> t_id t' = tid -> t' = t).
  { intros t' Hin' E. eapply timer_id_unique; eauto; [apply Hwf|congruence]. }
  set (ts := match t_every t with Some _ => _ | None => _ end).
  assert (F : frame (fun _ => False) st
            (set_now (Z.max (now st) (t_due t)) (set_timers ts st))).
  { apply frame_set_now. subst ts.
    destruct (t_every t) as [period|] eqn:Hev.
    - apply frame_rearm; [apply frame_start; exact Hwf|].
      intros t' Hin' E. rewrite (Honly t' Hin' E).
      destruct (is_tick (t_cb t)) eqn:Et; [reflexivity|].
      rewrite (wf_oneshot st Hwf t Hin Et) in Hev. discriminate.
    - apply frame_filter; [apply frame_start; exact Hwf|].
      intros t' i _ _ []. }
  destruct (t_cb t) as [roomId victimId | l roomId i | roomId l]; cbn.
  - apply (wf_frame st), frame_respawn, F.
  - apply wf_itemExpiry, (wf_frame st), F.
  - apply (wf_frame st), frame_tick, F.
Qed.

Lemma wf_step t inp st : wf st -> wf (step t inp st).
Proof.
  intros Hwf.
  assert (F : frame (fun _ => False) st (set_now (Z.max (now st) t) st))
    by (apply frame_set_now, frame_start; exact Hwf).
  destruct inp as [sk|sk|sk data u1 u2|sk data|sk d|sk rid|sk d sfx roll
                   |sk d|sk|tid random]; cbn [step].
  - apply (wf_frame st), frame_emit; [exact F|intros i []].
  - apply (wf_frame st). do 2 (apply frame_emit; [|intros i []]). exact F.
  - apply (wf_frame st), frame_createRoom, F.
  - apply (wf_frame st), frame_joinRoom, F.
  - apply (wf_frame st), frame_playerMove, F.
  - apply (wf_frame st), frame_emit; [exact F|intros i []].
  - apply wf_playerHit, (wf_frame st), F.
  - apply wf_pickupItem, (wf_frame st), F.
  - apply (wf_frame st), frame_disconnect, F.
  - apply wf_fire, Hwf.
Qed.

(** Every state that the server reaches is well-formed. *)
Lemma wf_run inputs st : wf st -> wf (run inputs st).
Proof.
  revert st. induction inputs as [|[t inp] inputs IH]; intros st Hwf;
    [exact Hwf|].
  apply IH, wf_step, Hwf.
Qed.







End Traces.

(** ** The match server: lobby *)

Section Lobby.
Import Server Rooms.

Lemma upper_char_idem c : upper_char (upper_char c) = upper_char c.
Proof.
  destruct c as [[] [] [] [] [] [] [] []]; reflexivity.
Qed.

Lemma toUpperCase_idem s : toUpperCase (toUpperCase s) = toUpperCase s.
Proof.
  induction s as [|c s IH]; cbn; [reflexivity|].
  rewrite upper_char_idem, IH. reflexivity.
Qed.

Lemma toUpperCase_substring n m s :
  toUpperCase (String.substring n m s) = String.substring n m (toUpperCase s).
Proof.
  revert n m. induction s as [|c s IH]; intros n m.
  - destruct n, m; reflexivity.
  - destruct n as [|n]; cbn.
    + destruct m as [|m]; cbn; [reflexivity|]. rewrite IH. reflexivity.
    + apply IH.
Qed.

Lemma substring_length_le n m s :
  (String.length (String.substring n m s) <= m)%nat.
Proof.
  revert n m. induction s as [|c s IH]; intros n m.
  - destruct n, m; cbn; lia.
  - destruct n as [|n]; cbn.
    + destruct m as [|m]; cbn; [lia|]. specialize (IH 0%nat m). lia.
    + apply IH.
Qed.

Lemma truthy_Some s : s <> EmptyString -> truthy (Some s) = Some s.
Proof.
  intros H. cbn. destruct (String.eqb_spec s EmptyString); [contradiction|].
  reflexivity.
Qed.

Lemma alist_set_fresh {V} k (v : V) l :
  alist_get k l = None -> array_index k = None ->
  alist_set k v l = l ++ [(k, v)].
Proof.
  intros Hk Hi. unfold alist_set. rewrite Hk. clear Hk.
  induction l as [|[k' v'] l IH]; cbn; [reflexivity|].
  unfold enumerated_before at 1. rewrite Hi, IH. reflexivity.
Qed.

(** An id in upper case names no member of [Object.prototype]: each of
    these has a lower-case letter. *)
Lemma upper_case_plain s : toUpperCase s = s -> prototype_member s = false.
Proof.
  intros H. destruct (prototype_member s) eqn:E; [|reflexivity].
  unfold prototype_member in E. apply existsb_exists in E.
  destruct E as (m & Hin & Hm). apply String.eqb_eq in Hm. subst m.
  cbn in Hin.
  repeat (destruct Hin as [<- | Hin]; [vm_compute in H; discriminate|]).
  destruct Hin.
Qed.

(** What [create_and_join] sends. *)
Lemma create_and_join_sent sk roomId d un st :
  let st' := create_and_join sk roomId d un st in
  sent st st'
    [ (ToSocket sk, roomCreated roomId);
      (ToRoom roomId,
       playerJoined sk un (<[sk := new_player sk un]> ∅) (d * 60));
      (ToAll, roomListUpdate (getRoomList st'));
      (ToAll, roomListUpdate (getRoomList st')) ].
Proof.
  unfold create_and_join, alloc. cbn.
  unfold joinRoomInternal, room_at. cbn.
  rewrite alist_get_set_eq, lookup_insert_eq. cbn.
  unfold startGameLoop, room_at. cbn.
  rewrite alist_get_set_eq, lookup_insert_eq. cbn.
  rewrite lookup_insert_eq. cbn.
  unfold sent. cbn. rewrite <- !app_assoc. reflexivity.
Qed.

(** X1.  [createRoom] with a requested id of ASCII characters: the room
    id is the requested id in upper case, cut to ten characters; it names
    no member of [Object.prototype].  When a room of that id is listed,
    the only effect is the error sent to the requester.  Otherwise a room
    object is made and listed under the id, at the place where JavaScript
    enumerates the new key: at the end of the list when the id is no array
    index, and among the array indices, in ascending order and before all
    other keys, when it is one.  The creator is the only player of the
    room, with score 0, the room is PLAYING with [duration * 60] seconds
    on the clock and its countdown is armed, one second away; the messages
    are [roomCreated] to the creator, [playerJoined] to the room and the
    room list to everybody, twice. *)
Theorem createRoom_requested_id
    (st : state) (sk cid : string) (dur : option Z) (un : option string)
    (uuid1 uuid2 : string) :
  cid <> EmptyString ->
  ascii_only cid = true ->
  let data := CreateObj (Some cid) dur un in
  let rid := String.substring 0 10 (toUpperCase cid) in
  let name := default "Anonymous"%string (truthy un) in
  let d := duration_of data in
  let st' := createRoom sk data uuid1 uuid2 st in
  let room := fresh_room sk rid name (next_timer st) (d * 60) PLAYING in
  (String.length rid <= 10)%nat /\ toUpperCase rid = rid /\
  prototype_member rid = false /\
  (is_Some (alist_get rid (rooms st)) ->
   st' = emit (ToSocket sk) (error "Room ID already exists") st) /\
  (alist_get rid (rooms st) = None ->
   rooms st' = alist_add rid (next_ref st) (rooms st) /\
   (array_index rid = None -> rooms st' = rooms st ++ [(rid, next_ref st)]) /\
   heap st' = <[next_ref st := room]> (heap st) /\
   room_at st' rid = Some (next_ref st, room) /\
   timers st' = timers st ++
     [ {| t_id := next_timer st; t_due := now st + 1000;
          t_every := Some 1000; t_cb := Tick rid (next_ref st) |} ] /\
   sent st st'
     [ (ToSocket sk, roomCreated rid);
       (ToRoom rid, playerJoined sk name (players room) (d * 60));
       (ToAll, roomListUpdate (getRoomList st'));
       (ToAll, roomListUpdate (getRoomList st')) ]).
Proof.
  intros Hcid Hascii data rid name d st' room.
  split; [apply substring_length_le|].
  assert (Hup : toUpperCase rid = rid).
  { unfold rid. rewrite toUpperCase_substring, toUpperCase_idem.
    reflexivity. }
  split; [exact Hup|].
  split; [apply upper_case_plain; exact Hup|].
  assert (E : st' = match alist_get rid (rooms st) with
                    | Some _ =>
                      emit (ToSocket sk) (error "Room ID already exists") st
                    | None => create_and_join sk rid d name st
                    end).
  { subst st'. unfold createRoom, data.
    rewrite (truthy_Some cid Hcid). fold rid. fold name.
    destruct (alist_get rid (rooms st)); reflexivity. }
  split.
  - intros [l Hl]. rewrite E, Hl. reflexivity.
  - intros Hnone. rewrite Hnone in E.
    destruct (create_and_join_state sk rid d name st)
      as (Hr & Hh & _ & Ht & _).
    pose proof (create_and_join_sent sk rid d name st) as Hs.
    cbv zeta in Hs. rewrite <- E in Hr, Hh, Ht, Hs.
    split; [rewrite Hr; unfold alist_set; rewrite Hnone; reflexivity|].
    split; [intros Hi; rewrite Hr; apply alist_set_fresh; assumption|].
    split; [exact Hh|].
    split; [apply room_at_lookup; rewrite Hr, Hh, alist_get_set_eq,
              lookup_insert_eq; auto|].
    split; [exact Ht|exact Hs].
Qed.

Lemma createRoom_requested_id_witness :
  let st' := createRoom "a" (CreateObj (Some "arena-of-doom") (Some 2) None)
               "u1" "u2" init in
  rooms st' = [("ARENA-OF-D"%string, 0%nat)] /\
  room_at st' "ARENA-OF-D"
    = Some (0%nat, fresh_room "a" "ARENA-OF-D" "Anonymous" 0 120 PLAYING).
Proof.
  assert (Hcid : "arena-of-doom"%string <> EmptyString) by discriminate.
  destruct (createRoom_requested_id init "a" "arena-of-doom" (Some 2) None
              "u1" "u2" Hcid eq_refl) as (_ & _ & _ & _ & Hnew).
  destruct (Hnew eq_refl) as (_ & Hr & _ & Hat & _).
  split; [exact (Hr eq_refl)|exact Hat].
Defined.

(** X2.  [createRoom] without a requested id never fails.  The room id is
    the first six characters of a fresh uuid in upper case, which names
    no member of [Object.prototype]; when that id is listed, the same is
    done with a second uuid, and this one is not tested: a room that is
    listed under it is replaced in the list, at its place, while its room
    object and its countdown stay as they are.  A room id that is not
    listed yet is listed where JavaScript enumerates the new key: at the
    end when it is no array index, and among the array indices, in
    ascending order and before all other keys, when it is one, as for an
    id of six decimal digits; the room list that is sent is in that
    order. *)
Theorem createRoom_generated_id
    (st : state) (sk : string) (cid : option string) (dur : option Z)
    (un : option string) (uuid1 uuid2 : string) :
  truthy cid = None ->
  ascii_only uuid1 = true -> ascii_only uuid2 = true ->
  (forall l, is_Some (heap st !! l) -> (l < next_ref st)%nat) ->
  let data := CreateObj cid dur un in
  let id1 := toUpperCase (String.substring 0 6 uuid1) in
  let id2 := toUpperCase (String.substring 0 6 uuid2) in
  let rid := match alist_get id1 (rooms st) with
             | Some _ => id2
             | None => id1
             end in
  let name := default "Anonymous"%string (truthy un) in
  let st' := createRoom sk data uuid1 uuid2 st in
  let room :=
    fresh_room sk rid name (next_timer st) (duration_of data * 60) PLAYING in
  (String.length rid <= 6)%nat /\
  prototype_member rid = false /\
  room_at st' rid = Some (next_ref st, room) /\
  sent st st'
    [ (ToSocket sk, roomCreated rid);
      (ToRoom rid, playerJoined sk name (players room)
                     (duration_of data * 60));
      (ToAll, roomListUpdate (getRoomList st'));
      (ToAll, roomListUpdate (getRoomList st')) ] /\
  (alist_get rid (rooms st) = None ->
   rooms st' = alist_add rid (next_ref st) (rooms st) /\
   (array_index rid = None -> rooms st' = rooms st ++ [(rid, next_ref st)])) /\
  (forall l_old room_old,
     room_at st rid = Some (l_old, room_old) ->
     l_old <> next_ref st /\
     heap st' !! l_old = Some room_old /\
     (forall t, t ∈ timers st -> t ∈ timers st') /\
     map fst (rooms st') = map fst (rooms st)).
Proof.
  intros Hcid _ _ Hheap data id1 id2 rid name st' room.
  assert (E : st' = create_and_join sk rid (duration_of data) name st).
  { subst st'. unfold createRoom, data. rewrite Hcid.
    fold id1 id2 name. unfold rid.
    destruct (alist_get id1 (rooms st)) eqn:E1; reflexivity. }
  destruct (create_and_join_state sk rid (duration_of data) name st)
    as (Hr & Hh & _ & Ht & _).
  pose proof (create_and_join_sent sk rid (duration_of data) name st) as Hs.
  cbv zeta in Hs. rewrite <- E in Hr, Hh, Ht, Hs.
  split.
  { unfold rid. destruct (alist_get id1 (rooms st)); unfold id1, id2;
      rewrite toUpperCase_substring; apply substring_length_le. }
  split.
  { apply upper_case_plain. unfold rid.
    destruct (alist_get id1 (rooms st)); unfold id1, id2;
      apply toUpperCase_idem. }
  split; [apply room_at_lookup; rewrite Hr, Hh, alist_get_set_eq,
            lookup_insert_eq; auto|].
  split; [exact Hs|].
  split.
  { intros Hnone.
    split; [rewrite Hr; unfold alist_set; rewrite Hnone; reflexivity|].
    intros Hi. rewrite Hr. apply alist_set_fresh; assumption. }
  intros l_old room_old Hold. apply room_at_lookup in Hold as [Hl Hold].
  assert (Hne : l_old <> next_ref st).
  { assert (l_old < next_ref st)%nat by (apply Hheap; rewrite Hold; eauto).
    lia. }
  split; [exact Hne|].
  split; [rewrite Hh, lookup_insert_ne by auto; exact Hold|].
  split; [intros t Hin; rewrite Ht; apply elem_of_app; auto|].
  rewrite Hr. apply alist_set_keys. eauto.
Qed.

Lemma createRoom_generated_id_witness :
  let st' := createRoom "b" (CreateObj None (Some 2) (Some "Bea"))
               "r" "r7654321" Scenario.arena in
  room_at st' "R76543"
    = Some (1%nat, fresh_room "b" "R76543" "Bea" 1 120 PLAYING).
Proof.
  assert (Hheap : forall l, is_Some (heap Scenario.arena !! l) ->
                            (l < next_ref Scenario.arena)%nat).
  { apply wf_heap. apply (wf_run _ init wf_init). }
  destruct (createRoom_generated_id Scenario.arena "b" None (Some 2)
              (Some "Bea") "r" "r7654321" eq_refl eq_refl eq_refl Hheap)
    as (_ & _ & Hat & _).
  exact Hat.
Defined.

(** What [joinRoomInternal] does to a room that is listed. *)
Lemma joinRoomInternal_listed (st : state) (sk rid name : string) l room :
  room_at st rid = Some (l, room) ->
  let st' := joinRoomInternal sk rid name st in
  exists room',
  room_at st' rid = Some (l, room') /\
  rooms st' = rooms st /\
  players room' = <[sk := new_player sk name]> (players room) /\
  scores room' = alist_set sk 0 (scores room) /\
  alist_get sk (scores room') = Some 0 /\
  (forall k, k <> sk ->
             alist_get k (scores room') = alist_get k (scores room)) /\
  items room' = items room /\ timeLeft room' = timeLeft room /\
  r_id room' = r_id room /\
  status room' =
    (if is_waiting (status room) then PLAYING else status room) /\
  (status room = WAITING -> timerInterval room = None ->
   timerInterval room' = Some (next_timer st) /\
   timers st' = timers st ++
     [ {| t_id := next_timer st; t_due := now st + 1000;
          t_every := Some 1000; t_cb := Tick rid l |} ]) /\
  (status room <> WAITING \/ is_Some (timerInterval room) ->
   timerInterval room' = timerInterval room /\
   timers st' = timers st) /\
  sent st st'
    [ (ToRoom rid, playerJoined sk name (players room') (timeLeft room));
      (ToAll, roomListUpdate (getRoomList st')) ].
Proof.
  intros Hroom st'. subst st'. unfold joinRoomInternal. rewrite Hroom.
  apply room_at_lookup in Hroom as [Hl Hh].
  cbn [status set_scores set_players].
  destruct (status room) eqn:Hst; cbn [is_waiting andb].
  - unfold startGameLoop, room_at. cbn. rewrite Hl, lookup_insert_eq. cbn.
    destruct (timerInterval room) as [tid|] eqn:Hti; cbn.
    + rewrite lookup_insert_eq. eexists. split.
      { unfold room_at. cbn. rewrite Hl, lookup_insert_eq. reflexivity. }
      cbn.
      split; [reflexivity|]. split; [reflexivity|].
      split; [reflexivity|]. split; [apply alist_get_set_eq|].
      split; [intros k Hk; apply alist_get_set_ne; auto|].
      do 4 (split; [reflexivity|]).
      split; [intros H1 H2; try discriminate;
              split; (reflexivity || congruence)|].
      split; [intros [H|[? H]]; try congruence;
              split; (reflexivity || congruence)|].
      unfold sent. cbn. rewrite <- app_assoc. reflexivity.
    + rewrite lookup_insert_eq. eexists. split.
      { unfold room_at. cbn. rewrite Hl, lookup_insert_eq. reflexivity. }
      cbn.
      split; [reflexivity|]. split; [reflexivity|].
      split; [reflexivity|]. split; [apply alist_get_set_eq|].
      split; [intros k Hk; apply alist_get_set_ne; auto|].
      do 4 (split; [reflexivity|]).
      split; [intros H1 H2; try discriminate;
              split; (reflexivity || congruence)|].
      split; [intros [H|[? H]]; try congruence;
              split; (reflexivity || congruence)|].
      unfold sent. cbn. rewrite <- app_assoc. reflexivity.
  - cbn. rewrite lookup_insert_eq. eexists. split.
    { unfold room_at. cbn. rewrite Hl, lookup_insert_eq. reflexivity. }
    cbn.
    split; [reflexivity|]. split; [reflexivity|].
    split; [reflexivity|]. split; [apply alist_get_set_eq|].
    split; [intros k Hk; apply alist_get_set_ne; auto|].
    do 3 (split; [reflexivity|]). split; [exact Hst|].
    split; [intros H1 H2; try discriminate;
              split; (reflexivity || congruence)|].
      split; [intros [H|[? H]]; try congruence;
              split; (reflexivity || congruence)|].
      unfold sent. cbn. rewrite <- app_assoc. reflexivity.
  - cbn. rewrite lookup_insert_eq. eexists. split.
    { unfold room_at. cbn. rewrite Hl, lookup_insert_eq. reflexivity. }
    cbn.
    split; [reflexivity|]. split; [reflexivity|].
    split; [reflexivity|]. split; [apply alist_get_set_eq|].
    split; [intros k Hk; apply alist_get_set_ne; auto|].
    do 3 (split; [reflexivity|]). split; [exact Hst|].
    split; [intros H1 H2; try discriminate;
              split; (reflexivity || congruence)|].
      split; [intros [H|[? H]]; try congruence;
              split; (reflexivity || congruence)|].
      unfold sent. cbn. rewrite <- app_assoc. reflexivity.
Qed.

(** X3.  [joinRoom].  For an id that is not listed and names no member of
    [Object.prototype] the only effect is the error "Room not found", sent
    to the requester.  For a listed room the
    socket becomes a player with full health at (2.5, 2.5), and its score
    is set to 0, also when it had one; nothing else of the score map, the
    items and the time left change.  A WAITING room becomes PLAYING and
    its countdown is armed unless it has one; any other room keeps its
    status, so a FINISHED room can still be joined, and no timer is
    made.  The room is told who joined, with the players as they now are,
    and everybody gets the room list. *)
Theorem joinRoom_effects
    (st : state) (sk rid : string) (un : option string) :
  let name := default "Anonymous"%string (truthy un) in
  let st' := joinRoom sk (JoinObj rid un) st in
  (room_at st rid = None -> prototype_member rid = false ->
   st' = emit (ToSocket sk) (error "Room not found") st) /\
  (forall l room,
     room_at st rid = Some (l, room) ->
     exists room',
       room_at st' rid = Some (l, room') /\
       rooms st' = rooms st /\
       players room' = <[sk := new_player sk name]> (players room) /\
       scores room' = alist_set sk 0 (scores room) /\
       alist_get sk (scores room') = Some 0 /\
       (forall k, k <> sk ->
                  alist_get k (scores room') = alist_get k (scores room)) /\
       items room' = items room /\ timeLeft room' = timeLeft room /\
       r_id room' = r_id room /\
       status room' =
         (if is_waiting (status room) then PLAYING else status room) /\
       (status room = WAITING -> timerInterval room = None ->
        timerInterval room' = Some (next_timer st) /\
        timers st' = timers st ++
          [ {| t_id := next_timer st; t_due := now st + 1000;
               t_every := Some 1000; t_cb := Tick rid l |} ]) /\
       (status room <> WAITING \/ is_Some (timerInterval room) ->
        timerInterval room' = timerInterval room /\
        timers st' = timers st) /\
       sent st st'
         [ (ToRoom rid, playerJoined sk name (players room') (timeLeft room));
           (ToAll, roomListUpdate (getRoomList st')) ]).
Proof.
  intros name st'. subst st'. cbn [joinRoom]. fold name. split.
  - intros Hnone _. unfold joinRoomInternal. rewrite Hnone. reflexivity.
  - intros l room Hroom. apply joinRoomInternal_listed. exact Hroom.
Qed.





End Lobby.

(** ** The match server: what a room never does *)

Section Evolution.
Import Server Rooms.

Lemma room_evolves_refl r : room_evolves r r.
Proof. unfold room_evolves. repeat split; auto; lia. Qed.

Lemma room_evolves_trans r1 r2 r3 :
  room_evolves r1 r2 -> room_evolves r2 r3 -> room_evolves r1 r3.
Proof.
  intros (A1 & B1 & C1 & D1 & E1) (A2 & B2 & C2 & D2 & E2).
  split; [congruence|]. split; [lia|]. split; [lia|]. split; auto.
Qed.

Lemma evolves_refl st : evolves st st.
Proof. intros l r H. exists r. split; [exact H|apply room_evolves_refl]. Qed.

Lemma evolves_trans st1 st2 st3 :
  evolves st1 st2 -> evolves st2 st3 -> evolves st1 st3.
Proof.
  intros H12 H23 l r Hr. destruct (H12 l r Hr) as (r2 & Hr2 & E12).
  destruct (H23 l r2 Hr2) as (r3 & Hr3 & E23).
  exists r3. split; [exact Hr3|]. eapply room_evolves_trans; eauto.
Qed.

(** A step that leaves the heap alone. *)
Lemma evolves_heap st0 st st' :
  evolves st0 st -> heap st' = heap st -> evolves st0 st'.
Proof. intros H E l r Hr. rewrite E. exact (H l r Hr). Qed.

(** A room object is written back. *)
Lemma evolves_store st0 st l r r' :
  evolves st0 st -> heap st !! l = Some r -> room_evolves r r' ->
  evolves st0 (store l r' st).
Proof.
  intros H Hl Hr. eapply evolves_trans; [exact H|].
  intros l0 r0 Hr0. cbn. destruct (decide (l = l0)) as [<-|Hne].
  - rewrite lookup_insert_eq. exists r'. split; [reflexivity|]. congruence.
  - rewrite lookup_insert_ne by exact Hne. exists r0.
    split; [exact Hr0|apply room_evolves_refl].
Qed.

(** A room object is made, at a place that is free. *)
Lemma evolves_alloc st0 st r :
  evolves st0 st -> heap st !! next_ref st = None ->
  evolves st0 (snd (alloc r st)).
Proof.
  intros H Hfree. eapply evolves_trans; [exact H|].
  intros l0 r0 Hr0. cbn. exists r0. split; [|apply room_evolves_refl].
  rewrite lookup_insert_ne; [exact Hr0|]. intros <-. congruence.
Qed.

Lemma room_evolves_players f r : room_evolves r (set_players f r).
Proof. unfold room_evolves. cbn. repeat split; auto; lia. Qed.

Lemma room_evolves_items f r : room_evolves r (set_items f r).
Proof. unfold room_evolves. cbn. repeat split; auto; lia. Qed.

Lemma room_evolves_tick r : room_evolves r (set_timeLeft (timeLeft r - 1) r).
Proof. unfold room_evolves. cbn. repeat split; auto; lia. Qed.

Lemma room_evolves_status s r :
  (status_rank (status r) <= status_rank s)%nat ->
  room_evolves r (set_status s r).
Proof. intros H. unfold room_evolves. cbn. repeat split; auto; lia. Qed.

Lemma room_evolves_score k v r :
  room_evolves r (set_scores (alist_set k v (scores r)) r).
Proof.
  unfold room_evolves. cbn. repeat split; auto; try lia.
  intros k' H. destruct (String.eqb_spec k k') as [<-|Hne].
  - rewrite alist_get_set_eq. eauto.
  - rewrite alist_get_set_ne by exact Hne. exact H.
Qed.

Lemma room_evolves_interval tid r :
  timerInterval r = None -> room_evolves r (set_timerInterval (Some tid) r).
Proof.
  intros H. unfold room_evolves. cbn. repeat split; auto; try lia.
  congruence.
Qed.

Lemma evolves_startGameLoop st0 st roomId :
  evolves st0 st -> evolves st0 (startGameLoop roomId st).
Proof.
  intros F. unfold startGameLoop.
  destruct (room_at st roomId) as [[l room]|] eqn:Hroom; [|exact F].
  apply room_at_heap_lookup in Hroom.
  destruct (timerInterval room) eqn:Hti; [exact F|].
  cbn. eapply (evolves_store _ _ _ room).
  - eapply evolves_heap; [exact F|reflexivity].
  - exact Hroom.
  - apply room_evolves_interval. exact Hti.
Qed.

Lemma evolves_joinRoomInternal st0 st sk roomId un :
  evolves st0 st -> evolves st0 (joinRoomInternal sk roomId un st).
Proof.
  intros F. unfold joinRoomInternal.
  destruct (room_at st roomId) as [[l room]|] eqn:Hroom;
    [|eapply evolves_heap; [exact F|reflexivity]].
  apply room_at_heap_lookup in Hroom.
  set (room1 := set_scores _ (set_players _ room)).
  assert (F1 : evolves st0 (store l room1 st)).
  { eapply evolves_store; [exact F|exact Hroom|].
    eapply room_evolves_trans; [apply room_evolves_players|].
    apply room_evolves_score. }
  set (st3 := if is_waiting (status room1) then _ else _).
  assert (F3 : evolves st0 st3).
  { subst st3. destruct (is_waiting (status room1)) eqn:Hw; [|exact F1].
    apply evolves_startGameLoop.
    eapply (evolves_store _ _ _ room1); [exact F1|apply lookup_insert_eq|].
    apply room_evolves_status.
    destruct (status room1); [cbn; lia|discriminate|discriminate]. }
  eapply evolves_heap; [|reflexivity].
  destruct (heap st3 !! l); [|exact F3].
  eapply evolves_heap; [exact F3|reflexivity].
Qed.

Lemma evolves_create_and_join st0 st sk roomId d un :
  evolves st0 st -> heap st !! next_ref st = None ->
  evolves st0 (create_and_join sk roomId d un st).
Proof.
  intros F Hfree. unfold create_and_join.
  pose proof (evolves_alloc st0 st (new_room roomId d) F Hfree) as F1.
  destruct (alloc (new_room roomId d) st) as [l st1]. cbn [snd] in F1.
  eapply evolves_heap; [|reflexivity].
  apply evolves_joinRoomInternal.
  eapply evolves_heap; [exact F1|reflexivity].
Qed.

Lemma evolves_finishGame st0 st roomId :
  evolves st0 st -> evolves st0 (finishGame roomId st).
Proof.
  intros F. unfold finishGame.
  destruct (room_at st roomId) as [[l room]|] eqn:Hroom; [|exact F].
  apply room_at_heap_lookup in Hroom.
  destruct (winner (set_status FINISHED room)) as [[m w] n].
  eapply evolves_heap;
    [eapply (evolves_store _ _ _ room); [exact F|exact Hroom|]|].
  - apply (room_evolves_status FINISHED). destruct (status room); cbn; lia.
  - cbn. destruct (timerInterval room); reflexivity.
Qed.

Lemma evolves_tick st0 st roomId l :
  evolves st0 st -> evolves st0 (tick roomId l st).
Proof.
  intros F. unfold tick.
  destruct (alist_get roomId (rooms st)); [|exact F].
  destruct (heap st !! l) as [room|] eqn:Hh; [|exact F].
  assert (F1 : evolves st0
            (emit (ToRoom roomId) (timeUpdate (timeLeft room - 1))
               (store l (set_timeLeft (timeLeft room - 1) room) st))).
  { eapply evolves_heap; [|reflexivity].
    eapply evolves_store; [exact F|exact Hh|apply room_evolves_tick]. }
  cbn [timeLeft set_timeLeft].
  destruct (timeLeft room - 1 <=? 0); [|exact F1].
  apply evolves_finishGame. exact F1.
Qed.

Lemma evolves_respawn st0 st roomId victimId random :
  evolves st0 st -> evolves st0 (respawn roomId victimId random st).
Proof.
  intros F. unfold respawn.
  destruct (room_at st roomId) as [[l room]|] eqn:Hroom; [|exact F].
  apply room_at_heap_lookup in Hroom.
  destruct (players room !! victimId); [|exact F].
  destruct (if _ <? 0 then None else _) as [[sx sy]|]; [|exact F].
  eapply evolves_heap; [|reflexivity].
  eapply evolves_store; [exact F|exact Hroom|apply room_evolves_players].
Qed.

Lemma evolves_itemExpiry st0 st l roomId i :
  evolves st0 st -> evolves st0 (itemExpiry l roomId i st).
Proof.
  intros F. unfold itemExpiry.
  destruct (heap st !! l) as [room|] eqn:Hh; [|exact F].
  destruct (items room !! i); [|exact F].
  eapply evolves_heap; [|reflexivity].
  eapply evolves_store; [exact F|exact Hh|apply room_evolves_items].
Qed.

Lemma evolves_playerMove st0 st sk d :
  evolves st0 st -> evolves st0 (playerMove sk d st).
Proof.
  intros F. unfold playerMove.
  destruct (room_at st (m_roomId d)) as [[l room]|] eqn:Hroom; [|exact F].
  apply room_at_heap_lookup in Hroom.
  destruct (is_playing (status room)); [|exact F].
  destruct (players room !! sk); [|exact F].
  eapply evolves_heap; [|reflexivity].
  eapply evolves_store; [exact F|exact Hroom|apply room_evolves_players].
Qed.

Lemma evolves_pickupItem st0 st sk d :
  evolves st0 st -> evolves st0 (pickupItem sk d st).
Proof.
  intros F. unfold pickupItem.
  destruct (room_at st (k_roomId d)) as [[l room]|] eqn:Hroom; [|exact F].
  apply room_at_heap_lookup in Hroom.
  destruct (items room !! k_itemId d).
  2:{ destruct (prototype_member (k_itemId d)); [|exact F].
      eapply evolves_heap; [exact F|reflexivity]. }
  eapply (evolves_store _ _ _ room); [|exact Hroom|apply room_evolves_items].
  eapply evolves_heap; [exact F|reflexivity].
Qed.

Lemma evolves_disconnect st0 st sk :
  evolves st0 st -> evolves st0 (disconnect sk st).
Proof.
  intros F. unfold disconnect.
  destruct (room_of sk (heap st) (rooms st)) as [[[roomId l] room]|] eqn:Hof;
    [|exact F].
  assert (Hh : heap st !! l = Some room).
  { clear -Hof. induction (rooms st) as [|[rid l'] rs IH]; [discriminate|].
    cbn in Hof. destruct (heap st !! l') as [r'|] eqn:E; [|auto].
    destruct (players r' !! sk); [|auto]. congruence. }
  eapply evolves_heap;
    [eapply evolves_store; [exact F|exact Hh|apply room_evolves_players]|].
  destruct (size _ =? 0)%nat; [|reflexivity].
  cbn. destruct (timerInterval room); reflexivity.
Qed.

Lemma evolves_spawn_item st0 st roomId victimId suffix typeRoll :
  evolves st0 st ->
  evolves st0 (spawn_item roomId victimId suffix typeRoll st).
Proof.
  intros F.
  destruct (spawn_item_cases roomId victimId suffix typeRoll st)
    as [->|(l & r & it & Hh & _ & ->)]; [exact F|].
  eapply evolves_heap; [|reflexivity].
  eapply evolves_store; [exact F|exact Hh|apply room_evolves_items].
Qed.

Lemma evolves_playerHit st0 st d suffix typeRoll :
  evolves st0 st -> evolves st0 (playerHit d suffix typeRoll st).
Proof.
  intros F. unfold playerHit.
  destruct (room_at st (h_roomId d)) as [[l room]|] eqn:Hroom; [|exact F].
  apply room_at_heap_lookup in Hroom.
  destruct (negb (is_playing (status room))); [exact F|].
  destruct (players room !! h_victimId d) as [victim|]; [|exact F].
  apply evolves_spawn_item.
  set (room1 := set_players _ room).
  assert (F1 : evolves st0
            (emit (ToRoom (h_roomId d))
               (healthUpdate (h_victimId d)
                  (health victim - h_damage d) None)
               (store l room1 st))).
  { eapply evolves_heap; [|reflexivity].
    eapply evolves_store; [exact F|exact Hroom|apply room_evolves_players]. }
  cbn [health]. destruct (qle (health victim - h_damage d) 0); [|exact F1].
  eapply evolves_heap; [|reflexivity].
  eapply (evolves_store _ _ _ room1); [exact F1|apply lookup_insert_eq|].
  destruct (alist_get (h_shooterId d) (scores room1)) as [n|].
  - eapply room_evolves_trans; [apply room_evolves_score|].
    apply room_evolves_players.
  - apply room_evolves_players.
Qed.

Lemma evolves_fire st tid random : evolves st (fire tid random st).
Proof.
  unfold fire.
  destruct (find _ (timers st)) as [t|]; [|apply evolves_refl].
  set (st1 := set_now _ _).
  assert (F : evolves st st1)
    by (eapply evolves_heap; [apply evolves_refl|reflexivity]).
  destruct (t_cb t); cbn.
  - apply evolves_respawn, F.
  - apply evolves_itemExpiry, F.
  - apply evolves_tick, F.
Qed.

Lemma evolves_step t inp st :
  heap st !! next_ref st = None -> evolves st (step t inp st).
Proof.
  intros Hfree.
  assert (F : evolves st (set_now (Z.max (now st) t) st))
    by (eapply evolves_heap; [apply evolves_refl|reflexivity]).
  destruct inp as [sk|sk|sk data u1 u2|sk data|sk d|sk rid|sk d sfx roll
                   |sk d|sk|tid random]; cbn [step];
    try (eapply evolves_heap; [exact F|reflexivity]).
  - destruct (createRoom_cases sk data u1 u2 (set_now (Z.max (now st) t) st))
      as [->|(rid & un & ->)].
    + eapply evolves_heap; [exact F|reflexivity].
    + apply evolves_create_and_join; [exact F|exact Hfree].
  - destruct data; cbn; apply evolves_joinRoomInternal, F.
  - apply evolves_playerMove, F.
  - apply evolves_playerHit, F.
  - apply evolves_pickupItem, F.
  - apply evolves_disconnect, F.
  - apply evolves_fire.
Qed.

Lemma run_app inputs1 inputs2 st :
  run (inputs1 ++ inputs2) st = run inputs2 (run inputs1 st).
Proof. unfold run. apply fold_left_app. Qed.

(** X5.  Along every run of the server, from any state that it reaches:
    no room object is lost, and for each one the id stays, the time left
    never goes up, the status never goes back (WAITING, then PLAYING, then
    FINISHED: a finished room is never played again), the handle of the
    countdown stays once it is set, and no key ever leaves the score
    map. *)
Theorem rooms_only_evolve (before after : list (Z * input)) :
  evolves (run before init) (run (before ++ after) init).
Proof.
  rewrite run_app.
  assert (Hwf : wf (run before init)) by apply wf_run, wf_init.
  revert Hwf. generalize (run before init) as st.
  induction after as [|[t inp] after IH]; intros st Hwf.
  - apply evolves_refl.
  - cbn. eapply evolves_trans; [|apply IH, wf_step, Hwf].
    apply evolves_step.
    destruct (heap st !! next_ref st) as [r|] eqn:E; [|reflexivity].
    assert (next_ref st < next_ref st)%nat
      by (apply (wf_heap st Hwf); rewrite E; eauto).
    lia.
Qed.

End Evolution.

(** ** NetworkManager *)

Section NetworkManager.
Import Client.

Lemma in_room_none n f : roomId n = None -> in_room n f = [].
Proof. intros H. unfold in_room. rewrite H. reflexivity. Qed.

Lemma receive_app cb me joined ms1 ms2 n :
  receive cb me joined (ms1 ++ ms2) n
  = receive cb me joined ms2 (receive cb me joined ms1 n).
Proof. unfold receive. apply fold_left_app. Qed.

(** X6.  A client that asks to join a listed room and then takes the
    server's answer.  [joinRoom] notes the room id and emits the request.
    The server's [playerJoined] reaches the client, whose players are then
    the players of the room; but the message has no [roomId], and the
    listener stores what it reads there: the client's room id is undefined
    from then on, so [sendMove], [sendShoot], [sendHit] and [sendPickup]
    emit nothing. *)
Theorem join_answer_clears_roomId
    (st : Server.state) (cb : callbacks) (n : net) (sk rid name : string)
    (l : nat) (room : Server.room) :
  Server.room_at st rid = Some (l, room) ->
  socket n = true -> playerId n = Some sk ->
  name <> EmptyString ->
  let n1 := fst (joinRoom rid name n) in
  let st' := Server.joinRoom sk (Server.JoinObj rid (Some name)) st in
  snd (joinRoom rid name n) = [r_joinRoom rid name] /\
  roomId n1 = Some rid /\
  exists ms room',
    Server.sent st st' ms /\
    Server.room_at st' rid = Some (l, room') /\
    let n2 := receive cb sk [rid] ms n1 in
    players n2 = Server.players room' /\
    roomId n2 = None /\
    (forall x y angle, sendMove x y angle n2 = []) /\
    sendShoot n2 = [] /\
    (forall victimId damage, sendHit victimId damage n2 = []) /\
    (forall itemId, sendPickup itemId n2 = []).
Proof.
  intros Hroom Hsock Hid Hname n1 st'.
  split; [unfold joinRoom, emit; cbn; rewrite Hsock; reflexivity|].
  split; [reflexivity|].
  assert (E : st' = Server.joinRoomInternal sk rid name st).
  { subst st'. unfold Server.joinRoom.
    rewrite (truthy_Some name Hname). reflexivity. }
  destruct (joinRoomInternal_listed st sk rid name l room Hroom)
    as (room' & Hat & _ & Hps & _ & _ & _ & _ & _ & _ & _ & _ & _ & Hsent).
  cbv zeta in Hat, Hsent. rewrite <- E in Hat, Hsent.
  eexists _, room'. split; [exact Hsent|]. split; [exact Hat|].
  assert (Hin : bool_decide (rid ∈ [rid]) = true).
  { apply bool_decide_eq_true. apply elem_of_cons. auto. }
  assert (En : receive cb sk [rid]
                 [(Server.ToRoom rid,
                   Server.playerJoined sk name (Server.players room')
                     (Server.timeLeft room));
                  (Server.ToAll,
                   Server.roomListUpdate (Server.getRoomList st'))] n1
               = set_roomId None (set_players (Server.players room') n1)).
  { unfold receive. cbn. rewrite Hin, orb_true_r. cbn.
    rewrite Hid. rewrite bool_decide_eq_true_2 by reflexivity. reflexivity. }
  rewrite En. cbn.
  split; [reflexivity|]. split; [reflexivity|].
  repeat split; intros; apply in_room_none; reflexivity.
Qed.

Lemma join_answer_clears_roomId_witness :
  let n1 := fst (joinRoom "R" "Bea" Cases.client_b) in
  let st' := Server.joinRoom "b" (Server.JoinObj "R" (Some "Bea"))
               Scenario.arena in
  snd (joinRoom "R" "Bea" Cases.client_b) = [r_joinRoom "R" "Bea"] /\
  roomId n1 = Some "R"%string /\
  exists ms room',
    Server.sent Scenario.arena st' ms /\
    Server.room_at st' "R" = Some (0%nat, room') /\
    let n2 := receive Cases.all_set "b" ["R"%string] ms n1 in
    players n2 = Server.players room' /\
    roomId n2 = None /\
    (forall x y angle, sendMove x y angle n2 = []) /\
    sendShoot n2 = [] /\
    (forall victimId damage, sendHit victimId damage n2 = []) /\
    (forall itemId, sendPickup itemId n2 = []).
Proof.
  apply (join_answer_clears_roomId Scenario.arena Cases.all_set
           Cases.client_b "b" "R" "Bea" 0 Scenario.arena_room);
    [vm_compute; reflexivity | reflexivity | reflexivity | discriminate].
Defined.

(** X7.  The listeners of [healthUpdate], [playerMoved] and [playerLeft]
    change the one player that the message names and nobody else, and
    never the client's own ids.  A [healthUpdate] sets the health, and
    the [isDead] flag only when the message has one; a [playerMoved] sets
    position and angle.  For an id that the client does not know both
    change nothing (no player is made), yet [onHealthUpdate] is called
    all the same. *)
Theorem listeners_update_named_player
    (cb : callbacks) (n : net) (id : string) :
  (forall hp dead,
     let r := on_message cb (m_healthUpdate id hp dead) n in
     let n' := fst (fst r) in
     players n' !! id = hurt hp dead <$> players n !! id /\
     (forall k, k <> id -> players n' !! k = players n !! k) /\
     (players n !! id = None -> n' = n) /\
     playerId n' = playerId n /\ roomId n' = roomId n /\
     snd (fst r) = when (onHealthUpdate cb) (HealthUpdate id hp dead) /\
     snd r = []) /\
  (forall x y angle,
     let r := on_message cb (m_playerMoved id x y angle) n in
     let n' := fst (fst r) in
     players n' !! id = moved x y angle <$> players n !! id /\
     (forall k, k <> id -> players n' !! k = players n !! k) /\
     (players n !! id = None -> n' = n) /\
     playerId n' = playerId n /\ roomId n' = roomId n /\
     snd (fst r) = [] /\ snd r = []) /\
  (let r := on_message cb (m_playerLeft id) n in
   let n' := fst (fst r) in
   players n' !! id = None /\
   (forall k, k <> id -> players n' !! k = players n !! k) /\
   playerId n' = playerId n /\ roomId n' = roomId n /\
   snd r = []).
Proof.
  split; [|split].
  - intros hp dead r n'. subst r n'. cbn.
    destruct (players n !! id) as [p|] eqn:Hp; cbn.
    + split; [apply lookup_insert_eq|].
      split; [intros k Hk; apply lookup_insert_ne; auto|].
      split; [discriminate|]. repeat split.
    + split; [exact Hp|]. repeat split.
  - intros x y angle r n'. subst r n'. cbn.
    destruct (players n !! id) as [p|] eqn:Hp; cbn.
    + split; [apply lookup_insert_eq|].
      split; [intros k Hk; apply lookup_insert_ne; auto|].
      split; [discriminate|]. repeat split.
    + split; [exact Hp|]. repeat split.
  - cbn. split; [apply lookup_delete_eq|].
    split; [intros k Hk; apply lookup_delete_ne; auto|]. repeat split.
Qed.

Lemma hurt_twice hp1 d1 hp2 d2 p :
  hurt hp2 (Some d2) (hurt hp1 d1 p) = hurt hp2 (Some d2) p.
Proof. reflexivity. Qed.

(** X8.  What a client sees of a death and of a respawn.  A lethal
    [playerHit] leaves the victim on the server with its raw health (zero
    or negative) and [isDead] set; a client of the room that knows the
    victim and takes the messages of the hit ends with health 0 and
    [isDead] set for it, and no other player changed.  After the messages
    of the respawn the client has the victim alive, with health 100, at
    the spawn point where the server has it, and with angle 0, which the
    server does not store. *)
Theorem client_sees_death_and_respawn
    (cb : callbacks) (me : string) (joined : list string) (n : net)
    (rid v : string) (l : nat) (room : Server.room)
    (victim p : Server.player) :
  rid ∈ joined -> players n !! v = Some p ->
  Server.players room !! v = Some victim ->
  (forall st d suffix typeRoll,
     Server.room_at st rid = Some (l, room) ->
     Server.status room = Server.PLAYING ->
     Server.h_roomId d = rid -> Server.h_victimId d = v ->
     (Server.health victim - Server.h_damage d <= 0)%Q ->
     let st' := Server.playerHit d suffix typeRoll st in
     exists ms room',
       Server.sent st st' ms /\
       Server.room_at st' rid = Some (l, room') /\
       Server.players room' !! v
         = Some (Server.hit_victim victim (Server.h_damage d) true) /\
       let n' := receive cb me joined ms n in
       players n' !! v = Some (hurt 0 (Some true) p) /\
       (forall k, k <> v -> players n' !! k = players n !! k)) /\
  (forall st random,
     Server.room_at st rid = Some (l, room) ->
     (0 <= random)%Q -> (random < 1)%Q ->
     let st' := Server.respawn rid v random st in
     exists ms room' v',
       Server.sent st st' ms /\
       Server.room_at st' rid = Some (l, room') /\
       Server.players room' !! v = Some v' /\
       Server.health v' = 100%Q /\ Server.isDead v' = false /\
       Server.p_angle v' = Server.p_angle victim /\
       let n' := receive cb me joined ms n in
       players n' !! v
         = Some (moved (Server.p_x v') (Server.p_y v') 0
                   (hurt 100 (Some false) p)) /\
       (forall k, k <> v -> players n' !! k = players n !! k)).
Proof.
  intros Hin Hp Hv.
  assert (Hj : bool_decide (rid ∈ joined) = true)
    by (apply bool_decide_eq_true; exact Hin).
  split.
  - intros st d suffix typeRoll Hroom Hst Hrid Hvid Hle st'.
    rewrite <- Hrid in Hroom. rewrite <- Hvid in Hv.
    destruct (playerHit_lethal_effects st d suffix typeRoll l room
                victim Hroom Hst Hv Hle)
      as (room' & Hsent & Hat & _ & Hps & _).
    fold st' in Hsent, Hat. rewrite Hrid in Hsent, Hat. rewrite Hvid in Hsent.
    eexists _, room'. split; [exact Hsent|]. split; [exact Hat|].
    split; [rewrite Hps, Hvid; apply lookup_insert_eq|].
    unfold receive. cbn. rewrite Hj, orb_true_r. cbn.
    rewrite Hp. cbn. rewrite lookup_insert_eq. cbn.
    split; [rewrite lookup_insert_eq; reflexivity|].
    intros k Hk. rewrite !lookup_insert_ne by auto. reflexivity.
  - intros st random Hroom H0 H1 st'. subst st'. unfold Server.respawn.
    rewrite Hroom, Hv.
    pose proof (spawn_index_range random H0 H1) as Hi.
    remember (Qfloor (random * inject_Z (Z.of_nat (length Server.SAFE_SPAWNS))))
      as i eqn:Ei. clear Ei.
    destruct (Z.ltb_spec i 0) as [Hneg|_]; [lia|].
    destruct (Server.SAFE_SPAWNS !! Z.to_nat i) as [[sx sy]|] eqn:Hs.
    2:{ apply lookup_ge_None in Hs. cbn in Hs. lia. }
    apply room_at_lookup in Hroom as [Hl Hh].
    eexists _, _, _. split; [unfold Server.sent; cbn;
                             rewrite <- !app_assoc; reflexivity|].
    split; [apply room_at_lookup; cbn; rewrite lookup_insert_eq;
            auto|].
    cbn. split; [apply lookup_insert_eq|].
    do 3 (split; [reflexivity|]).
    unfold receive. cbn. rewrite Hj, orb_true_r. cbn.
    rewrite Hp. cbn.
    assert (E : <[v:=hurt 100 (Some false) p]> (players n) !! v
                = Some (hurt 100 (Some false) p)) by apply lookup_insert_eq.
    rewrite E. cbn.
    destruct (String.eqb v me || bool_decide (v ∈ joined)); cbn.
    + split; [rewrite lookup_insert_eq; reflexivity|].
      intros k Hk. rewrite !lookup_insert_ne by auto. reflexivity.
    + split; [rewrite lookup_insert_eq; reflexivity|].
      intros k Hk. rewrite !lookup_insert_ne by auto. reflexivity.
Qed.

Lemma client_sees_death_and_respawn_witness :
  let st' := Server.playerHit Scenario.kill_shot "abcde" (3 # 4)
               Scenario.arena in
  exists ms,
    Server.sent Scenario.arena st' ms /\
    players (receive Cases.all_set "a" ["R"%string] ms Cases.client_a) !! "v"
      = Some (hurt 0 (Some true) (Server.new_player "v" "Vic")).
Proof.
  assert (Hin : "R"%string ∈ ["R"%string]) by (apply elem_of_cons; auto).
  destruct (client_sees_death_and_respawn Cases.all_set "a" ["R"%string]
              Cases.client_a "R" "v" 0 Scenario.arena_room
              (Server.new_player "v" "Vic") (Server.new_player "v" "Vic")
              Hin) as [Hhit _];
    [vm_compute; reflexivity | vm_compute; reflexivity |].
  destruct (Hhit Scenario.arena Scenario.kill_shot "abcde" (3 # 4))
    as (ms & room' & Hsent & _ & _ & Hn & _);
    [vm_compute; reflexivity | reflexivity | reflexivity | reflexivity
    | vm_compute; discriminate |].
  exists ms. split; [exact Hsent|exact Hn].
Defined.

End NetworkManager.

(** ** The Game component: the frame loop *)

Section Frame.
Import GameLoop.

Lemma qmax_spec a b : (a <= qmax a b /\ b <= qmax a b)%Q /\
                      (qmax a b = a \/ qmax a b = b).
Proof.
  unfold qmax. destruct (qlt a b) eqn:E.
  - apply qlt_true in E. split; [lra|auto].
  - apply qlt_false in E. split; [lra|auto].
Qed.

Lemma qmin_spec a b : (qmin a b <= a /\ qmin a b <= b)%Q /\
                      (qmin a b = a \/ qmin a b = b).
Proof.
  unfold qmin. destruct (qlt b a) eqn:E.
  - apply qlt_true in E. split; [lra|auto].
  - apply qlt_false in E. split; [lra|auto].
Qed.

(** X9.  The end of a reload moves rounds from the reserve to the clip and
    loses none: the sum of the two stays.  With a clip that is not over
    full and a reserve that is not negative, the clip does not shrink and
    is at most [CLIP_SIZE], the reserve does not grow and is not negative,
    and the reload stops only when the clip is full or the reserve
    empty.  A reload never starts with a full clip, an empty reserve, a
    dead player, a reload under way or infinite ammo. *)
Theorem reload_moves_rounds (K : settings) (p : Player) :
  let p' := reload_done K p in
  ammo p' + ammoReserve p' = ammo p + ammoReserve p /\
  (ammo p <= CLIP_SIZE K -> 0 <= ammoReserve p ->
   ammo p <= ammo p' <= CLIP_SIZE K /\
   0 <= ammoReserve p' <= ammoReserve p /\
   (ammo p' = CLIP_SIZE K \/ ammoReserve p' = 0)) /\
  p_health p' = p_health p /\ pos p' = pos p /\
  weaponIndex p' = weaponIndex p /\
  (forall isInfiniteAmmo isReloading,
     reload_starts K isInfiniteAmmo isReloading p = true ->
     isInfiniteAmmo = false /\ isReloading = false /\
     ammo p <> CLIP_SIZE K /\ ammoReserve p <> 0 /\ (0 < p_health p)%Q).
Proof.
  cbn. split; [lia|]. split; [lia|]. do 3 (split; [reflexivity|]).
  intros inf rel. unfold reload_starts.
  destruct inf, rel; cbn; try discriminate.
  destruct (Z.eqb_spec (ammo p) (CLIP_SIZE K)); cbn; [discriminate|].
  destruct (Z.eqb_spec (ammoReserve p) 0); cbn; [discriminate|].
  destruct (qle (p_health p) 0) eqn:E; [discriminate|].
  apply qle_false in E. auto.
Qed.

Lemma rem_next i n : 0 <= i < n -> Z.rem (i + 1) n = if i + 1 =? n then 0 else i + 1.
Proof.
  intros H. destruct (Z.eqb_spec (i + 1) n) as [->|Hne].
  - apply Z.rem_same. lia.
  - apply Z.rem_small. lia.
Qed.

Lemma rem_prev i n :
  0 <= i < n -> Z.rem (i - 1 + n) n = if i =? 0 then n - 1 else i - 1.
Proof.
  intros H. rewrite Z.rem_mod_nonneg by lia.
  destruct (Z.eqb_spec i 0) as [->|Hne].
  - replace (0 - 1 + n) with (n - 1) by lia. apply Z.mod_small. lia.
  - replace (i - 1 + n) with (i - 1 + 1 * n) by lia.
    rewrite Z.mod_add by lia. apply Z.mod_small. lia.
Qed.

(** X10.  The mouse wheel walks through the weapons in a circle.  With
    the index in range, a turn down gives the next index and a turn up
    (or a wheel event without a turn) the previous one, both in range;
    after the last weapon comes the first and before the first the last;
    and a turn back undoes a turn.  While the game is paused, a reload is
    under way or the player is dead, the wheel does nothing. *)
Theorem wheel_walks_in_a_circle
    (K : settings) (p : Player) (down up : Q) :
  let n := Z.of_nat (length (WEAPONS K)) in
  0 <= weaponIndex p < n -> (0 < p_health p)%Q ->
  (0 < down)%Q -> (up <= 0)%Q ->
  let next := handleWheel K false false down p in
  let prev := handleWheel K false false up p in
  weaponIndex next = (if weaponIndex p + 1 =? n then 0
                      else weaponIndex p + 1) /\
  weaponIndex prev = (if weaponIndex p =? 0 then n - 1
                      else weaponIndex p - 1) /\
  0 <= weaponIndex next < n /\ 0 <= weaponIndex prev < n /\
  weaponIndex (handleWheel K false false up next) = weaponIndex p /\
  weaponIndex (handleWheel K false false down prev) = weaponIndex p /\
  (forall isPaused isReloading deltaY,
     isPaused || isReloading = true ->
     handleWheel K isPaused isReloading deltaY p = p) /\
  (forall deltaY q, (p_health q <= 0)%Q ->
                    handleWheel K false false deltaY q = q).
Proof.
  intros n Hi Hhp Hdown Hup next prev.
  assert (Ehp : qle (p_health p) 0 = false) by (apply qle_false; exact Hhp).
  assert (Ed : qlt 0 down = true) by (apply qlt_true; exact Hdown).
  assert (Eu : qlt 0 up = false) by (apply qlt_false; exact Hup).
  assert (En : weaponIndex next = if weaponIndex p + 1 =? n then 0
                                  else weaponIndex p + 1).
  { subst next. unfold handleWheel. cbn [orb]. rewrite Ehp, Ed. cbn.
    apply rem_next. exact Hi. }
  assert (Ep : weaponIndex prev = if weaponIndex p =? 0 then n - 1
                                  else weaponIndex p - 1).
  { subst prev. unfold handleWheel. cbn [orb]. rewrite Ehp, Eu. cbn.
    apply rem_prev. exact Hi. }
  assert (Rn : 0 <= weaponIndex next < n).
  { rewrite En. destruct (Z.eqb_spec (weaponIndex p + 1) n); lia. }
  assert (Rp : 0 <= weaponIndex prev < n).
  { rewrite Ep. destruct (Z.eqb_spec (weaponIndex p) 0); lia. }
  split; [exact En|]. split; [exact Ep|].
  split; [exact Rn|]. split; [exact Rp|].
  split; [|split; [|split]].
  - unfold handleWheel at 1. cbn [orb].
    replace (p_health next) with (p_health p)
      by (subst next; unfold handleWheel; cbn [orb]; rewrite Ehp, Ed;
          reflexivity).
    rewrite Ehp, Eu. cbn. fold n. rewrite (rem_prev _ _ Rn), En.
    destruct (Z.eqb_spec (weaponIndex p + 1) n); [cbn; lia|].
    destruct (Z.eqb_spec (weaponIndex p + 1) 0); lia.
  - unfold handleWheel at 1. cbn [orb].
    replace (p_health prev) with (p_health p)
      by (subst prev; unfold handleWheel; cbn [orb]; rewrite Ehp, Eu;
          reflexivity).
    rewrite Ehp, Ed. cbn. fold n. rewrite (rem_next _ _ Rp), Ep.
    destruct (Z.eqb_spec (weaponIndex p) 0).
    + destruct (Z.eqb_spec (n - 1 + 1) n); lia.
    + destruct (Z.eqb_spec (weaponIndex p - 1 + 1) n); lia.
  - intros isPaused isReloading deltaY H. unfold handleWheel.
    rewrite H. reflexivity.
  - intros deltaY q Hq. unfold handleWheel. cbn [orb].
    apply qle_true in Hq. rewrite Hq. reflexivity.
Qed.

Lemma wheel_walks_in_a_circle_witness :
  weaponIndex (handleWheel Cases.game_settings false false (-1)
                 Cases.hero) = 2 /\
  weaponIndex (handleWheel Cases.game_settings false false 1
                 (handleWheel Cases.game_settings false false (-1)
                    Cases.hero)) = 0.
Proof.
  destruct (wheel_walks_in_a_circle Cases.game_settings Cases.hero 1 (-1))
    as (_ & Hp & _ & _ & _ & Hback & _);
    [vm_compute; split; [discriminate|reflexivity] | reflexivity
    | reflexivity | vm_compute; discriminate |].
  split; [exact Hp|exact Hback].
Defined.

(** *** [updatePhysics] *)

Lemma fall_keeps dt p :
  pos (fall dt p) = pos p /\ dir (fall dt p) = dir p /\
  plane (fall dt p) = plane p /\ p_health (fall dt p) = p_health p /\
  ammo (fall dt p) = ammo p /\ ammoReserve (fall dt p) = ammoReserve p /\
  pitch (fall dt p) = pitch p /\ weaponIndex (fall dt p) = weaponIndex p.
Proof.
  unfold fall. destruct (_ || _); [|repeat split].
  destruct (qlt _ 0); repeat split.
Qed.

Lemma collect_keeps K it p :
  pos (collect K it p) = pos p /\ dir (collect K it p) = dir p /\
  plane (collect K it p) = plane p /\ p_z (collect K it p) = p_z p /\
  p_vz (collect K it p) = p_vz p /\ ammo (collect K it p) = ammo p /\
  pitch (collect K it p) = pitch p /\
  weaponIndex (collect K it p) = weaponIndex p.
Proof. unfold collect. destruct (_ =? _); repeat split. Qed.

(** The loop over the items leaves the player where it is. *)
Lemma items_loop_keeps k K mp now its p :
  let p' := fst (fst (items_loop k K mp now its p)) in
  pos p' = pos p /\ dir p' = dir p /\ plane p' = plane p /\
  p_z p' = p_z p /\ p_vz p' = p_vz p /\ ammo p' = ammo p /\
  pitch p' = pitch p /\ weaponIndex p' = weaponIndex p.
Proof.
  induction its as [|it rest IH]; cbn; [repeat split|].
  destruct (items_loop k K mp now rest p) as [[p1 kept] sends].
  cbn in IH. destruct (expired now it); [exact IH|].
  destruct (near k p1 it); [|exact IH].
  destruct mp; [exact IH|]. cbn.
  destruct (collect_keeps K it p1) as (A & B & C & D & E & F & G & H).
  destruct IH as (A' & B' & C' & D' & E' & F' & G' & H').
  repeat split; congruence.
Qed.

(** The player after [updatePhysics]: fallen, with the camera plane set,
    the items seen to, and moved. *)
Lemma updatePhysics_player k K m keys isZooming mp now dt s :
  let r := fst (updatePhysics k K m keys isZooming mp now dt s) in
  let p0 := fall dt (player s) in
  let scale := zoom_step k isZooming dt (currentFovScale s) in
  let p1 := with_plane {| vx := vy (dir p0) * scale;
                          vy := - vx (dir p0) * scale |} p0 in
  let p2 := fst (fst (items_loop k K mp now (items s) p1)) in
  let len := Game.sqrt k (fst (wish keys p0) * fst (wish keys p0) +
                          snd (wish keys p0) * snd (wish keys p0)) in
  currentFovScale r = scale /\
  items r = snd (fst (items_loop k K mp now (items s) p1)) /\
  snd (updatePhysics k K m keys isZooming mp now dt s)
    = snd (items_loop k K mp now (items s) p1) /\
  player r =
    (if qlt 0 len
     then with_pos
            (slide m (fst (wish keys p0) * (MOVE_SPEED K * dt / len))
                     (snd (wish keys p0) * (MOVE_SPEED K * dt / len))
                     (pos p2)) p2
     else p2).
Proof.
  cbv zeta. unfold updatePhysics.
  destruct (wish keys (fall dt (player s))) as [dx dy]. cbn [fst snd].
  destruct (sway _ dt (swayTarget s) (swayPos s)) as [target position].
  destruct (items_loop k K mp now (items s) _) as [[p2 kept] sends].
  cbn [fst snd].
  destruct (qlt 0 (Game.sqrt k (dx * dx + dy * dy))); cbn; repeat split.
Qed.

(** X11.  Gravity and the jump.  A player on or above the floor stays on
    or above it.  At rest on the floor nothing moves; in the air, or with
    a vertical speed, the speed drops by [25 * dt] and the height follows,
    and a fall below the floor ends on the floor at speed 0.  [jump]
    works from the floor only (no second jump in the air), and from rest
    on the floor a jump followed by a frame of at most a tenth of a
    second leaves the player in the air. *)
Theorem gravity_and_jump
    (k : Game.constants) (K : settings) (m : list (list Z)) (keys : Keys)
    (isZooming mp : bool) (now dt : Q) (s : loop) :
  (0 <= p_z (player s))%Q ->
  let p := player s in
  let after q :=
    player (fst (updatePhysics k K m keys isZooming mp now dt
                   (with_player q s))) in
  (0 <= p_z (after p))%Q /\
  ((p_z p == 0)%Q -> (p_vz p == 0)%Q ->
   p_z (after p) = p_z p /\ p_vz (after p) = p_vz p) /\
  ((0 < p_z p)%Q \/ ~ (p_vz p == 0)%Q ->
   let vz := (p_vz p - 25 * dt)%Q in
   let z := (p_z p + vz * dt)%Q in
   if qlt z 0 then p_z (after p) = 0%Q /\ p_vz (after p) = 0%Q
   else p_z (after p) = z /\ p_vz (after p) = vz) /\
  (~ (p_z p == 0)%Q -> jump p = p) /\
  ((p_z p == 0)%Q -> p_vz (jump p) = (17 # 2)%Q /\ p_z (jump p) = p_z p) /\
  ((p_z p == 0)%Q -> (0 < dt)%Q -> (dt <= 1 # 10)%Q ->
   (0 < p_z (after (jump p)))%Q).
Proof.
  intros Hz p after.
  assert (Hv : forall q, p_z (after q) = p_z (fall dt q) /\
                         p_vz (after q) = p_vz (fall dt q)).
  { intros q. subst after. cbv beta.
    destruct (updatePhysics_player k K m keys isZooming mp now dt
                (with_player q s)) as (_ & _ & _ & ->).
    cbn [player with_player].
    set (p1 := with_plane _ (fall dt q)).
    destruct (items_loop_keeps k K mp now (items (with_player q s)) p1)
      as (_ & _ & _ & Ez & Evz & _).
    change (items (with_player q s)) with (items s) in *.
    destruct (qlt 0 _); cbn; rewrite ?Ez, ?Evz; split; reflexivity. }
  split; [|split; [|split; [|split; [|split]]]].
  - rewrite (proj1 (Hv p)). unfold fall.
    destruct (_ || _); [|exact Hz].
    destruct (qlt _ 0) eqn:E; cbn; [lra|]. apply qlt_false in E. exact E.
  - intros E0 Ev. rewrite (proj1 (Hv p)), (proj2 (Hv p)). unfold fall.
    replace (qlt 0 (p_z p)) with false
      by (symmetry; apply qlt_false; lra).
    replace (qeq (p_vz p) 0) with true
      by (symmetry; apply qeq_true; exact Ev).
    split; reflexivity.
  - intros Hair vz z. rewrite (proj1 (Hv p)), (proj2 (Hv p)). unfold fall.
    replace (qlt 0 (p_z p) || negb (qeq (p_vz p) 0)) with true.
    + subst vz z. unfold GRAVITY.
      destruct (qlt _ 0); split; reflexivity.
    + symmetry. apply orb_true_iff. destruct Hair as [H|H].
      * left. apply qlt_true. exact H.
      * right. apply negb_true_iff. apply qeq_false. exact H.
  - intros H. unfold jump. apply qeq_false in H. rewrite H. reflexivity.
  - intros H. unfold jump. apply qeq_true in H. rewrite H.
    split; reflexivity.
  - intros E0 Hdt Hdt'. rewrite (proj1 (Hv (jump p))).
    unfold jump. replace (qeq (p_z p) 0) with true
      by (symmetry; apply qeq_true; exact E0).
    unfold fall. cbn [p_z p_vz with_jump].
    replace (qeq JUMP_FORCE 0) with false by reflexivity.
    rewrite orb_true_r. unfold GRAVITY, JUMP_FORCE.
    destruct (qlt _ 0) eqn:E; cbn.
    + apply qlt_true in E. nra.
    + nra.
Qed.

Lemma gravity_and_jump_witness :
  (0 < p_z (player (fst (updatePhysics Scenario.game_constants
                           Cases.game_settings Scenario.room5 Cases.forward
                           false false 10000 (1 # 60)
                           (with_player (jump Cases.hero)
                              Cases.hero_loop)))))%Q.
Proof.
  assert (Hz : (0 <= p_z (player Cases.hero_loop))%Q)
    by (vm_compute; discriminate).
  destruct (gravity_and_jump Scenario.game_constants Cases.game_settings
              Scenario.room5 Cases.forward false false 10000 (1 # 60)
              Cases.hero_loop Hz) as (_ & _ & _ & _ & _ & Hup).
  apply Hup; [reflexivity | reflexivity | vm_compute; discriminate].
Defined.

Lemma frame_dt_range time lastTime :
  (lastTime <= time)%Q ->
  (0 <= frame_dt time lastTime /\ frame_dt time lastTime <= 1 # 10)%Q.
Proof.
  intros H. unfold frame_dt.
  destruct (qmin_spec (1 # 10) ((time - lastTime) / 1000))
    as [[H1 H2] [E|E]]; rewrite E in *; split; try lra.
  assert (0 <= (time - lastTime) * / 1000)%Q; [|exact H0].
  apply Qmult_le_0_compat; [lra|]. apply Qinv_le_0_compat. lra.
Qed.

Lemma zoom_step_between k isZooming dt scale :
  (0 <= dt)%Q -> (dt <= 1 # 10)%Q ->
  (0 < scale)%Q -> (0 < Game.FOV k)%Q ->
  (0 < zoom_step k isZooming dt scale)%Q.
Proof.
  intros H0 H1 Hs Hf. unfold zoom_step.
  set (t := if isZooming then (33 # 100)%Q else Game.FOV k).
  assert (Ht : (0 < t)%Q) by (subst t; destruct isZooming; [reflexivity|lra]).
  nra.
Qed.

(** X12.  The camera after a frame.  The frame length that [tick]
    computes lies between 0 and a tenth of a second (time does not run
    backwards).  [updatePhysics] leaves the view direction alone, moves
    the field-of-view scale towards its target without leaving the
    positive numbers, and sets the camera plane to the direction turned
    by a quarter and scaled: the plane is perpendicular to the direction.
    So the determinant that [castSprites] inverts is the scale times the
    squared length of the direction, and its inverse is a positive
    number for every direction but the null vector. *)
Theorem camera_plane_after_a_frame
    (k : Game.constants) (K : settings) (m : list (list Z)) (keys : Keys)
    (isZooming mp : bool) (now time lastTime : Q) (s : loop) :
  (lastTime <= time)%Q ->
  (0 < currentFovScale s)%Q -> (0 < Game.FOV k)%Q ->
  ~ (vx (dir (player s)) == 0 /\ vy (dir (player s)) == 0)%Q ->
  let dt := frame_dt time lastTime in
  let r := fst (updatePhysics k K m keys isZooming mp now dt s) in
  let d := dir (player s) in
  let scale := currentFovScale r in
  (0 <= dt)%Q /\ (dt <= 1 # 10)%Q /\
  dir (player r) = d /\
  scale = zoom_step k isZooming dt (currentFovScale s) /\
  (0 < scale)%Q /\
  plane (player r) = {| vx := vy d * scale; vy := - vx d * scale |} /\
  (vx (plane (player r)) * vx d + vy (plane (player r)) * vy d == 0)%Q /\
  exists q,
    Raycaster.invDet (player r) = Fin q /\ (0 < q)%Q /\
    (q * (scale * (vx d * vx d + vy d * vy d)) == 1)%Q.
Proof.
  intros Ht Hs Hf Hd dt r d scale.
  destruct (frame_dt_range time lastTime Ht) as [H0 H1]. fold dt in H0, H1.
  destruct (updatePhysics_player k K m keys isZooming mp now dt s)
    as (Esc & _ & _ & Ep). fold r in Esc, Ep.
  set (p0 := fall dt (player s)) in *.
  set (p1 := with_plane _ p0) in *.
  destruct (fall_keeps dt (player s)) as (_ & Ed0 & _). fold p0 in Ed0.
  destruct (items_loop_keeps k K mp now (items s) p1)
    as (_ & Ed & Epl & _). cbv zeta in Ed, Epl.
  assert (Edir : dir (player r) = d).
  { rewrite Ep. destruct (qlt 0 _); cbn [dir with_pos]; rewrite Ed;
      exact Ed0. }
  assert (Eplane : plane (player r)
                   = {| vx := vy d * scale; vy := - vx d * scale |}).
  { rewrite Ep. destruct (qlt 0 _); cbn [plane with_pos]; rewrite Epl;
      subst p1; cbn [plane with_plane]; rewrite Ed0; unfold scale;
      rewrite Esc; reflexivity. }
  assert (Hpos : (0 < scale)%Q).
  { unfold scale. rewrite Esc. apply zoom_step_between; assumption. }
  split; [exact H0|]. split; [exact H1|]. split; [exact Edir|].
  split; [exact Esc|]. split; [exact Hpos|]. split; [exact Eplane|].
  split; [rewrite Eplane; cbn; ring|].
  assert (Hn : (0 < vx d * vx d + vy d * vy d)%Q).
  { destruct (Qlt_le_dec 0 (vx d * vx d + vy d * vy d)) as [|Hle];
      [assumption|].
    exfalso. apply Hd. fold d. split; nra. }
  assert (Hdet : (0 < scale * (vx d * vx d + vy d * vy d))%Q) by nra.
  unfold Raycaster.invDet. rewrite Eplane, Edir. cbn [vx vy].
  set (det := (vy d * scale * vy d - vx d * (- vx d * scale))%Q).
  assert (Edet : (det == scale * (vx d * vx d + vy d * vy d))%Q)
    by (subst det; ring).
  unfold ndiv. replace (qeq det 0) with false
    by (symmetry; apply qeq_false; lra).
  exists (1 / det)%Q. split; [reflexivity|].
  assert (Hdpos : (0 < det)%Q) by lra.
  split.
  - unfold Qdiv. rewrite Qmult_1_l. apply Qinv_lt_0_compat. exact Hdpos.
  - rewrite <- Edet. field. lra.
Qed.

Lemma camera_plane_after_a_frame_witness :
  exists q,
    Raycaster.invDet
      (player (fst (updatePhysics Scenario.game_constants
                      Cases.game_settings Scenario.room5 Cases.forward
                      true false 10000 (frame_dt 1016 1000)
                      Cases.hero_loop))) = Fin q /\ (0 < q)%Q.
Proof.
  destruct (camera_plane_after_a_frame Scenario.game_constants
              Cases.game_settings Scenario.room5 Cases.forward true false
              10000 1016 1000 Cases.hero_loop)
    as (_ & _ & _ & _ & _ & _ & _ & q & Hq & Hpos & _);
    [vm_compute; discriminate | reflexivity | reflexivity
    | vm_compute; intros [H _]; discriminate |].
  exists q. split; [exact Hq|exact Hpos].
Defined.

Lemma slide_open m sx sy v :
  is_open m (Qfloor (vx v)) (Qfloor (vy v)) = true ->
  is_open m (Qfloor (vx (slide m sx sy v))) (Qfloor (vy (slide m sx sy v)))
    = true.
Proof.
  intros H. unfold slide. cbn [vx vy].
  destruct (is_open m (Qfloor (vx v + sx)) (Qfloor (vy v))) eqn:Ex.
  - destruct (is_open m (Qfloor (vx v + sx)) (Qfloor (vy v + sy))) eqn:Ey;
      assumption.
  - destruct (is_open m (Qfloor (vx v)) (Qfloor (vy v + sy))) eqn:Ey;
      assumption.
Qed.

(** X13.  The player never walks into a wall or off the map: when the
    cell of the player is an open cell of the map before [updatePhysics],
    so it is after, whatever the keys, the speed and the length of the
    frame.  Each of the two tests lets the player step only into an open
    cell, and a step that fails leaves that coordinate as it is. *)
Theorem player_stays_in_open_cells
    (k : Game.constants) (K : settings) (m : list (list Z)) (keys : Keys)
    (isZooming mp : bool) (now dt : Q) (s : loop) :
  let cell_of p := (Qfloor (vx (pos p)), Qfloor (vy (pos p))) in
  let r := fst (updatePhysics k K m keys isZooming mp now dt s) in
  is_open m (fst (cell_of (player s))) (snd (cell_of (player s))) = true ->
  is_open m (fst (cell_of (player r))) (snd (cell_of (player r))) = true /\
  exists c, cell m (fst (cell_of (player r))) (snd (cell_of (player r)))
            = Some c /\ c = 0.
Proof.
  intros cell_of r H. cbn [cell_of fst snd] in *.
  assert (Hr : is_open m (Qfloor (vx (pos (player r))))
                 (Qfloor (vy (pos (player r)))) = true).
  { destruct (updatePhysics_player k K m keys isZooming mp now dt s)
      as (_ & _ & _ & Ep). fold r in Ep. rewrite Ep.
    set (p1 := with_plane _ _).
    destruct (items_loop_keeps k K mp now (items s) p1) as (Epos & _).
    cbv zeta in Epos.
    assert (E1 : pos p1 = pos (player s))
      by (subst p1; cbn; apply fall_keeps).
    destruct (qlt 0 _).
    - cbn [pos with_pos]. apply slide_open. rewrite Epos, E1. exact H.
    - rewrite Epos, E1. exact H. }
  split; [exact Hr|].
  unfold is_open in Hr. destruct (cell m _ _) as [c|]; [|discriminate].
  exists c. split; [reflexivity|]. apply Z.eqb_eq. exact Hr.
Qed.

Lemma player_stays_in_open_cells_witness :
  let r := fst (updatePhysics Scenario.game_constants Cases.game_settings
                  Scenario.room5 Cases.forward false false 10000 (1 # 10)
                  Cases.hero_loop) in
  is_open Scenario.room5 (Qfloor (vx (pos (player r))))
    (Qfloor (vy (pos (player r)))) = true.
Proof.
  apply (player_stays_in_open_cells Scenario.game_constants
           Cases.game_settings Scenario.room5 Cases.forward false false
           10000 (1 # 10) Cases.hero_loop).
  reflexivity.
Defined.

Lemma near_pos k p p' it : pos p' = pos p -> near k p' it = near k p it.
Proof. intros E. unfold near. rewrite E. reflexivity. Qed.

(** The loop over the items in a networked game. *)
Lemma items_loop_multiplayer k K now its p :
  items_loop k K true now its p =
  (p, filter (fun it => expired now it = false) its,
   rev (map it_id
          (filter (fun it => expired now it = false /\ near k p it = true)
             its))).
Proof.
  induction its as [|it rest IH]; [reflexivity|].
  cbn [items_loop]. rewrite IH. rewrite !filter_cons.
  destruct (expired now it) eqn:Ee.
  - rewrite decide_False by discriminate.
    rewrite decide_False by (intros [H _]; discriminate). reflexivity.
  - rewrite decide_True by reflexivity.
    destruct (near k p it) eqn:En.
    + rewrite decide_True by auto. cbn [map rev]. reflexivity.
    + rewrite decide_False by (intros [_ H]; discriminate). reflexivity.
Qed.

(** The loop over the items in a local game. *)
Lemma items_loop_local k K now its p :
  let r := items_loop k K false now its p in
  snd (fst r)
    = filter (fun it => expired now it = false /\ near k p it = false) its /\
  snd r = [] /\
  ((p_health p <= 100)%Q ->
   (p_health p <= p_health (fst (fst r)) /\
    p_health (fst (fst r)) <= 100)%Q) /\
  (0 <= CLIP_SIZE K -> ammoReserve p <= MAX_RESERVE K ->
   ammoReserve p <= ammoReserve (fst (fst r)) <= MAX_RESERVE K).
Proof.
  induction its as [|it rest IH]; cbn [items_loop].
  - cbn. repeat split; auto; try lra; lia.
  - pose proof (items_loop_keeps k K false now rest p) as Hk.
    cbv zeta in IH, Hk.
    destruct (items_loop k K false now rest p) as [[p1 kept] sends].
    cbn [fst snd] in IH, Hk. destruct Hk as (Epos & _).
    destruct IH as (Ekept & Esends & Hh & Hres).
    rewrite filter_cons. rewrite (near_pos k p p1 it Epos).
    destruct (expired now it) eqn:Ee.
    + rewrite decide_False by (intros [H _]; discriminate).
      cbn [fst snd]. auto.
    + destruct (near k p it) eqn:En.
      * rewrite decide_False by (intros [_ H]; discriminate).
        cbn [fst snd]. split; [exact Ekept|]. split; [exact Esends|].
        unfold collect. destruct (_ =? _); cbn.
        -- split; [|exact Hres]. intros H100. specialize (Hh H100).
           destruct (qmin_spec 100 (p_health p1 + 30)) as [[H1 H2] [E|E]];
             rewrite E in *; lra.
        -- split; [exact Hh|]. intros Hc Hm. specialize (Hres Hc Hm). lia.
      * rewrite decide_True by auto. cbn [fst snd].
        split; [rewrite Ekept; reflexivity|]. auto.
Qed.

(** X14.  The items of a frame.  An item that lay for more than five
    seconds is dropped.  In a networked game every other item stays, and
    for each one within reach [sendPickup] is called with its id, frame
    after frame, the last item first; the health and the reserve of the
    player are not changed.  In a
    local game an item within reach is used and removed: nothing is sent,
    a health of at most 100 grows by 30 at a time without passing 100,
    and a reserve of at most [MAX_RESERVE] grows by two clips at a time
    without passing it. *)
Theorem items_of_a_frame
    (k : Game.constants) (K : settings) (m : list (list Z)) (keys : Keys)
    (isZooming : bool) (now dt : Q) (s : loop) :
  let p := player s in
  let fresh it := expired now it = false in
  let here it := near k p it = true in
  let net := updatePhysics k K m keys isZooming true now dt s in
  let loc := updatePhysics k K m keys isZooming false now dt s in
  (items (fst net) = filter fresh (items s) /\
   snd net = rev (map it_id (filter (fun it => fresh it /\ here it)
                               (items s))) /\
   p_health (player (fst net)) = p_health p /\
   ammoReserve (player (fst net)) = ammoReserve p) /\
  (items (fst loc)
     = filter (fun it => fresh it /\ near k p it = false) (items s) /\
   snd loc = [] /\
   ((p_health p <= 100)%Q ->
    (p_health p <= p_health (player (fst loc)) /\
     p_health (player (fst loc)) <= 100)%Q) /\
   (0 <= CLIP_SIZE K -> ammoReserve p <= MAX_RESERVE K ->
    ammoReserve p <= ammoReserve (player (fst loc)) <= MAX_RESERVE K)).
Proof.
  intros p fresh here net loc.
  assert (Hp1 : forall scale,
            let p1 := with_plane scale (fall dt p) in
            pos p1 = pos p /\ p_health p1 = p_health p /\
            ammoReserve p1 = ammoReserve p).
  { intros scale. cbn. destruct (fall_keeps dt p) as (A & _ & _ & B & _ & C & _).
    auto. }
  split.
  - destruct (updatePhysics_player k K m keys isZooming true now dt s)
      as (_ & Ei & Es & Ep). fold net in Ei, Es, Ep.
    set (p1 := with_plane _ _) in *. fold p in p1.
    destruct (Hp1 {| vx := vy (dir (fall dt p)) *
                           zoom_step k isZooming dt (currentFovScale s);
                     vy := - vx (dir (fall dt p)) *
                           zoom_step k isZooming dt (currentFovScale s) |})
      as (Epos & Eh & Er). fold p1 in Epos, Eh, Er.
    rewrite (items_loop_multiplayer k K now (items s) p1) in Ei, Es, Ep.
    cbn [fst snd] in Ei, Es, Ep.
    split; [exact Ei|]. split.
    { rewrite Es. f_equal. f_equal. apply list_filter_iff. intros it.
      unfold fresh, here. rewrite (near_pos k p p1 it Epos). tauto. }
    rewrite Ep. destruct (qlt 0 _); cbn; auto.
  - destruct (updatePhysics_player k K m keys isZooming false now dt s)
      as (_ & Ei & Es & Ep). fold loc in Ei, Es, Ep.
    set (p1 := with_plane _ _) in *. fold p in p1.
    destruct (Hp1 {| vx := vy (dir (fall dt p)) *
                           zoom_step k isZooming dt (currentFovScale s);
                     vy := - vx (dir (fall dt p)) *
                           zoom_step k isZooming dt (currentFovScale s) |})
      as (Epos & Eh & Er). fold p1 in Epos, Eh, Er.
    destruct (items_loop_local k K now (items s) p1)
      as (Ekept & Esends & Hh & Hres).
    split.
    { rewrite Ei, Ekept. apply list_filter_iff. intros it. unfold fresh.
      rewrite (near_pos k p p1 it Epos). tauto. }
    split; [rewrite Es; exact Esends|].
    assert (Ehp : p_health (player (fst loc))
                  = p_health (fst (fst (items_loop k K false now
                                          (items s) p1))))
      by (rewrite Ep; destruct (qlt 0 _); reflexivity).
    assert (Eres : ammoReserve (player (fst loc))
                   = ammoReserve (fst (fst (items_loop k K false now
                                              (items s) p1))))
      by (rewrite Ep; destruct (qlt 0 _); reflexivity).
    rewrite Ehp, Eres, <- Eh, <- Er. split; [exact Hh|exact Hres].
Qed.

End Frame.

(** ** The Game component: the view, the enemies and the other players *)

Section Enemies.
Import GameLoop.

(** X15.  A move of the mouse while the pointer is locked to the canvas
    turns the direction without changing its length, for a cosine and a
    sine whose squares add up to one at the angle of the turn, and keeps
    the pitch within [SCREEN_HEIGHT / 1.5] of the horizon: the new pitch is
    the old one less the vertical movement, cut to that range; when a
    movement key is held, the target of the weapon sway moves by half the
    movement of the mouse, and otherwise it stays.  The position, the
    camera plane, the health and the ammunition stay, and so does the rest
    of the loop's state; for a dead player, a paused game or a pointer
    that is not locked to the canvas nothing changes at all. *)
Theorem mouse_turns_the_view
    (k : Game.constants) (K : settings)
    (isPaused pointerLocked isZooming : bool) (keys : Keys)
    (sensitivity movementX movementY : Q) (s : loop) :
  let s' := handleMouseMove k K isPaused pointerLocked isZooming keys
              sensitivity movementX movementY s in
  let p := player s in
  let p' := player s' in
  let rot := (- movementX * ((if isZooming then 5 # 10000 else 22 # 10000)
                             * sensitivity))%Q in
  let maxPitch := (Game.SCREEN_HEIGHT k / (3 # 2))%Q in
  let isMoving := KeyW keys || KeyS keys || KeyA keys || KeyD keys in
  (0 <= Game.SCREEN_HEIGHT k)%Q ->
  (cos K rot * cos K rot + sin K rot * sin K rot == 1)%Q ->
  (vx (dir p') * vx (dir p') + vy (dir p') * vy (dir p')
   == vx (dir p) * vx (dir p) + vy (dir p) * vy (dir p))%Q /\
  ((0 < p_health p)%Q -> isPaused = false -> pointerLocked = true ->
   dir p' = {| vx := vx (dir p) * cos K rot - vy (dir p) * sin K rot;
               vy := vx (dir p) * sin K rot + vy (dir p) * cos K rot |} /\
   (- maxPitch <= pitch p' <= maxPitch)%Q /\
   ((- maxPitch <= pitch p - movementY <= maxPitch)%Q ->
    (pitch p' == pitch p - movementY)%Q) /\
   ((maxPitch < pitch p - movementY)%Q -> (pitch p' == maxPitch)%Q) /\
   ((pitch p - movementY < - maxPitch)%Q ->
    (pitch p' == - maxPitch)%Q) /\
   (isMoving = true ->
    swayTarget s' = {| vx := vx (swayTarget s) + movementX * (1 # 2);
                       vy := vy (swayTarget s) + movementY * (1 # 2) |}) /\
   (isMoving = false -> swayTarget s' = swayTarget s)) /\
  ((p_health p <= 0)%Q \/ isPaused = true \/ pointerLocked = false ->
   s' = s) /\
  pos p' = pos p /\ plane p' = plane p /\ p_health p' = p_health p /\
  ammo p' = ammo p /\ ammoReserve p' = ammoReserve p /\
  weaponIndex p' = weaponIndex p /\
  items s' = items s /\ swayPos s' = swayPos s /\
  currentFovScale s' = currentFovScale s /\ walkCycle s' = walkCycle s /\
  recoilImpulse s' = recoilImpulse s.
Proof.
  intros s' p p' rot maxPitch isMoving Hh Hcs.
  assert (Hmax : (0 <= maxPitch)%Q).
  { unfold maxPitch. apply Qle_shift_div_l; lra. }
  assert (Hsame : s' = s ->
    (vx (dir p') * vx (dir p') + vy (dir p') * vy (dir p')
     == vx (dir p) * vx (dir p) + vy (dir p) * vy (dir p))%Q /\
    pos p' = pos p /\ plane p' = plane p /\ p_health p' = p_health p /\
    ammo p' = ammo p /\ ammoReserve p' = ammoReserve p /\
    weaponIndex p' = weaponIndex p /\
    items s' = items s /\ swayPos s' = swayPos s /\
    currentFovScale s' = currentFovScale s /\ walkCycle s' = walkCycle s /\
    recoilImpulse s' = recoilImpulse s).
  { intros E. subst p' p. rewrite E. split; [reflexivity|].
    repeat split; reflexivity. }
  unfold handleMouseMove in s'. fold p in s'.
  destruct (qle (p_health p) 0) eqn:Eh; cbn [orb] in s'.
  { apply qle_true in Eh. destruct (Hsame eq_refl) as (Hd & Hrest).
    split; [exact Hd|]. split; [intros; lra|].
    split; [reflexivity|exact Hrest]. }
  apply qle_false in Eh.
  destruct isPaused; cbn [orb] in s'.
  { destruct (Hsame eq_refl) as (Hd & Hrest).
    split; [exact Hd|]. split; [intros; discriminate|].
    split; [reflexivity|exact Hrest]. }
  destruct pointerLocked.
  2:{ destruct (Hsame eq_refl) as (Hd & Hrest).
      split; [exact Hd|]. split; [intros; discriminate|].
      split; [reflexivity|exact Hrest]. }
  clear Hsame. fold isMoving in s'. subst p' s'. cbn.
  unfold turn_view. fold rot maxPitch. cbn.
  split.
  { set (c := cos K rot) in *. set (sn := sin K rot) in *.
    set (a := vx (dir p)). set (b := vy (dir p)).
    transitivity ((a * a + b * b) * (c * c + sn * sn))%Q; [ring|].
    rewrite Hcs. ring. }
  split.
  { intros _ _ _. split; [reflexivity|].
    destruct (qmin_spec maxPitch (pitch p - movementY * 1)) as [[A1 A2] A3].
    destruct (qmax_spec (- maxPitch)
                (qmin maxPitch (pitch p - movementY * 1))) as [[B1 B2] B3].
    split.
    { split; [exact B1|]. destruct B3 as [E|E]; rewrite E; lra. }
    split; [|split; [|split; [|split]]].
    4:{ intros ->. reflexivity. }
    4:{ intros ->. reflexivity. }
    all: unfold qmax, qmin;
      destruct (qlt (pitch p - movementY * 1) maxPitch) eqn:E1;
      [apply qlt_true in E1|apply qlt_false in E1];
      (destruct (qlt (- maxPitch) _) eqn:E2;
       [apply qlt_true in E2|apply qlt_false in E2]);
      intros; lra. }
  split.
  { intros [H|[H|H]]; [lra|discriminate|discriminate]. }
  repeat split; reflexivity.
Qed.

Lemma mouse_turns_the_view_witness :
  let s' := handleMouseMove Scenario.game_constants Cases.game_settings
              false true false Cases.forward 1 100 500 Cases.hero_loop in
  let p' := player s' in
  (vx (dir p') * vx (dir p') + vy (dir p') * vy (dir p') == 1)%Q /\
  (pitch p' == - 320)%Q /\
  swayTarget s' = {| vx := vx (swayTarget Cases.hero_loop) + 100 * (1 # 2);
                     vy := vy (swayTarget Cases.hero_loop) + 500 * (1 # 2) |}.
Proof.
  pose proof (mouse_turns_the_view Scenario.game_constants
                Cases.game_settings false true false Cases.forward
                1 100 500 Cases.hero_loop) as H.
  cbv zeta in H.
  destruct H as (Hd & Hp & _).
  - vm_compute. discriminate.
  - vm_compute. reflexivity.
  - destruct Hp as (_ & _ & _ & _ & Hlow & Hsway & _).
    + vm_compute. reflexivity.
    + reflexivity.
    + reflexivity.
    + split; [|split].
      * rewrite Hd. vm_compute. reflexivity.
      * rewrite Hlow; vm_compute; reflexivity.
      * apply Hsway. reflexivity.
Defined.

(** [Math.floor(Math.random() * n)] is an index below [n]. *)
Lemma floor_index_range (random : Q) (n : Z) :
  0 < n -> (0 <= random < 1)%Q ->
  0 <= Qfloor (random * inject_Z n) < n.
Proof.
  intros Hn [H0 H1].
  assert (Hq : (0 < inject_Z n)%Q)
    by (change 0%Q with (inject_Z 0); rewrite <- Zlt_Qlt; exact Hn).
  split.
  - change 0 with (Qfloor 0). apply Qfloor_resp_le. nra.
  - destruct (Z_lt_le_dec (Qfloor (random * inject_Z n)) n) as [|Hge];
      [assumption|].
    exfalso. pose proof (Qfloor_le (random * inject_Z n)) as Hf.
    rewrite Zle_Qle in Hge. nra.
Qed.

(** X16.  [spawnEnemy] with a number drawn from [0, 1) and a spawn point
    to choose from does not throw.  It adds at most one enemy, and none
    beyond [MAX_ENEMIES], within [SPAWN_INTERVAL] of the last spawn or
    less than 5 units from the player.  The new enemy stands on a spawn
    point, idle and with a health of 100, and its id is one more than the
    counter: with the ids so far distinct and at most the counter, they
    stay so. *)
Theorem spawnEnemy_adds_one_far_enemy
    (k : Game.constants) (K : settings) (p : Player) (now random : Q)
    (s : spawner) :
  (0 <= random < 1)%Q ->
  SPAWN_POINTS K <> [] ->
  Forall (fun f => Game.e_id (body f) <= enemyIdCounter s) (enemies s) ->
  NoDup (map (fun f => Game.e_id (body f)) (enemies s)) ->
  exists s',
    spawnEnemy k K p now random s = Some s' /\
    (Z.of_nat (length (enemies s)) <= MAX_ENEMIES K ->
     Z.of_nat (length (enemies s')) <= MAX_ENEMIES K) /\
    Forall (fun f => Game.e_id (body f) <= enemyIdCounter s') (enemies s') /\
    NoDup (map (fun f => Game.e_id (body f)) (enemies s')) /\
    (s' = s \/
     exists f,
       enemies s' = enemies s ++ [f] /\
       Z.of_nat (length (enemies s)) < MAX_ENEMIES K /\
       (SPAWN_INTERVAL K <= now - lastSpawnTime s)%Q /\
       lastSpawnTime s' = now /\ lastAttackTime f = now /\
       Game.e_id (body f) = enemyIdCounter s + 1 /\
       enemyIdCounter s' = enemyIdCounter s + 1 /\
       Game.e_pos (body f) ∈ SPAWN_POINTS K /\
       (5 <= Game.sqrt k
               ((vx (Game.e_pos (body f)) - vx (pos p)) *
                (vx (Game.e_pos (body f)) - vx (pos p)) +
                (vy (Game.e_pos (body f)) - vy (pos p)) *
                (vy (Game.e_pos (body f)) - vy (pos p))))%Q /\
       Game.e_health (body f) = 100%Q /\
       Game.e_state (body f) = Game.IDLE).
Proof.
  intros [Hr0 Hr1] Hne Hids Hnd. unfold spawnEnemy.
  destruct (Z.leb_spec (MAX_ENEMIES K) (Z.of_nat (length (enemies s))))
    as [Hfull|Hroom].
  { exists s. repeat split; auto. }
  destruct (qlt (now - lastSpawnTime s) (SPAWN_INTERVAL K)) eqn:Ei.
  { exists s. repeat split; auto. }
  apply qlt_false in Ei.
  set (n := Z.of_nat (length (SPAWN_POINTS K))).
  assert (Hn : 0 < n).
  { unfold n. destruct (SPAWN_POINTS K); [congruence|cbn; lia]. }
  pose proof (floor_index_range random n Hn (conj Hr0 Hr1)) as Hi.
  remember (Qfloor (random * inject_Z n)) as i eqn:Ei'. clear Ei'.
  destruct (Z.ltb_spec i 0); [lia|].
  destruct (SPAWN_POINTS K !! Z.to_nat i) as [point|] eqn:Ept.
  2:{ apply lookup_ge_None in Ept. unfold n in Hi. lia. }
  destruct (qlt _ 5) eqn:Ed.
  { exists s. repeat split; auto. }
  apply qlt_false in Ed.
  eexists. split; [reflexivity|]. cbn [enemies enemyIdCounter lastSpawnTime].
  split.
  { intros _. rewrite length_app. cbn. lia. }
  split.
  { apply Forall_app. split.
    - eapply Forall_impl; [exact Hids|]. cbn. intros; lia.
    - constructor; [cbn; lia|constructor]. }
  split.
  { rewrite map_app. cbn. apply NoDup_app. split; [exact Hnd|]. split.
    - intros x Hx Hx'. apply list_elem_of_singleton in Hx'. subst x.
      apply list_elem_of_fmap in Hx. destruct Hx as (f & Ef & Hf).
      rewrite Forall_forall in Hids. specialize (Hids f Hf). cbn in Hids.
      lia.
    - apply NoDup_singleton. }
  right. eexists. split; [reflexivity|]. cbn.
  repeat split; auto; try lia.
  destruct point. cbn. eapply list_elem_of_lookup_2. exact Ept.
Qed.

Lemma spawnEnemy_adds_one_far_enemy_witness :
  exists s',
    spawnEnemy Scenario.game_constants Cases.game_settings Cases.hero
      5000 (3 # 4) {| enemies := []; enemyIdCounter := 0;
                      lastSpawnTime := 0 |} = Some s' /\
    Z.of_nat (length (enemies s')) <= 2.
Proof.
  destruct (spawnEnemy_adds_one_far_enemy Scenario.game_constants
              Cases.game_settings Cases.hero 5000 (3 # 4)
              {| enemies := []; enemyIdCounter := 0; lastSpawnTime := 0 |})
    as (s' & E & Hc & _).
  - vm_compute. split; [discriminate|reflexivity].
  - discriminate.
  - constructor.
  - constructor.
  - exists s'. split; [exact E|]. apply Hc. vm_compute. discriminate.
Defined.

(** One enemy of [updateAI]. *)
Lemma ai_step_spec k m d p dt now rnd done hp i f :
  exists f' hp' i',
    ai_step k m d p dt now rnd (done, hp, i) f = (done ++ [f'], hp', i') /\
    Game.e_id (body f') = Game.e_id (body f) /\
    Game.e_health (body f') = Game.e_health (body f) /\
    Game.e_networkId (body f') = Game.e_networkId (body f) /\
    (is_open m (Qfloor (vx (Game.e_pos (body f))))
               (Qfloor (vy (Game.e_pos (body f)))) = true ->
     is_open m (Qfloor (vx (Game.e_pos (body f'))))
               (Qfloor (vy (Game.e_pos (body f')))) = true) /\
    (is_chase (Game.e_state (body f')) = false -> f' = f) /\
    (hp - qmax 10 (damageRanged d) <= hp' <= hp)%Q /\
    (hp' = hp /\ (lastAttackTime f' = lastAttackTime f \/
                  lastAttackTime f' = now) \/
     (1000 < now - lastAttackTime f)%Q /\ lastAttackTime f' = now).
Proof.
  assert (Hd : (0 <= damageRanged d <= qmax 10 (damageRanged d)
                /\ 10 <= qmax 10 (damageRanged d))%Q).
  { destruct (qmax_spec 10 (damageRanged d)) as [[A B] _].
    destruct d; cbn in *; repeat split; lra. }
  assert (Hcool : (1000 < shootCooldown d)%Q) by (destruct d; cbn; lra).
  unfold ai_step.
  set (e0 := body f).
  set (dx := (vx (pos p) - vx (Game.e_pos e0))%Q).
  set (dy := (vy (pos p) - vy (Game.e_pos e0))%Q).
  set (dist := Game.sqrt k (dx * dx + dy * dy)).
  set (canSee := Game.hasLineOfSight (Game.e_pos e0) (pos p) m).
  set (e1 := if is_idle (Game.e_state e0) && qlt dist 12 && canSee
             then with_state Game.CHASE e0 else e0).
  assert (He1 : Game.e_id e1 = Game.e_id e0 /\
                Game.e_health e1 = Game.e_health e0 /\
                Game.e_networkId e1 = Game.e_networkId e0 /\
                Game.e_pos e1 = Game.e_pos e0).
  { unfold e1. destruct (_ && _ && _); auto. }
  destruct He1 as (I1 & I2 & I3 & I4).
  destruct (is_chase (Game.e_state e1)) eqn:Ec.
  2:{ assert (E : e1 = e0).
      { unfold e1 in *. destruct (_ && _ && _); [discriminate|reflexivity]. }
      exists f, hp, i. rewrite E. split.
      { destruct f; reflexivity. }
      repeat split; auto; try lra. }
  set (e2 := if qlt 1 dist
             then with_epos (slide m (dx / dist * ((5 # 2) * dt))
                               (dy / dist * ((5 # 2) * dt))
                               (Game.e_pos e1)) e1
             else e1).
  assert (He2 : Game.e_id e2 = Game.e_id e0 /\
                Game.e_health e2 = Game.e_health e0 /\
                Game.e_networkId e2 = Game.e_networkId e0 /\
                is_chase (Game.e_state e2) = true /\
                (is_open m (Qfloor (vx (Game.e_pos e0)))
                           (Qfloor (vy (Game.e_pos e0))) = true ->
                 is_open m (Qfloor (vx (Game.e_pos e2)))
                           (Qfloor (vy (Game.e_pos e2))) = true)).
  { unfold e2. destruct (qlt 1 dist); [|rewrite I4; auto 10].
    unfold with_epos.
    cbn [Game.e_id Game.e_health Game.e_networkId Game.e_state Game.e_pos].
    rewrite I4. repeat split; auto. apply slide_open. }
  destruct He2 as (J1 & J2 & J3 & J4 & J5).
  destruct (qlt 1000 (now - lastAttackTime f)) eqn:Et; cbn [andb].
  - apply qlt_true in Et.
    destruct (qlt (rnd i) (2 # 100)).
    + eexists _, _, _. split; [reflexivity|]. cbn [body lastAttackTime].
      repeat split; auto; try congruence;
        destruct (qlt (rnd (S i)) (4 # 10)); try lra; auto.
    + destruct (qlt dist 9 && canSee).
      * destruct (qlt (shootCooldown d) (now - lastAttackTime f)) eqn:Es.
        -- eexists _, _, _. split; [reflexivity|]. cbn [body lastAttackTime].
           repeat split; auto; try congruence; try lra.
        -- eexists _, _, _. split; [reflexivity|]. cbn [body lastAttackTime].
           repeat split; auto; try congruence; try lra.
      * eexists _, _, _. split; [reflexivity|]. cbn [body lastAttackTime].
        repeat split; auto; try congruence; try lra.
  - apply qlt_false in Et.
    destruct (qlt dist 9 && canSee).
    + destruct (qlt (shootCooldown d) (now - lastAttackTime f)) eqn:Es.
      * apply qlt_true in Es. lra.
      * eexists _, _, _. split; [reflexivity|]. cbn [body lastAttackTime].
        repeat split; auto; try congruence; try lra.
    + eexists _, _, _. split; [reflexivity|]. cbn [body lastAttackTime].
      repeat split; auto; try congruence; try lra.
Qed.

Lemma ai_fold_spec k m d p dt now rnd l :
  forall done hp i,
  exists done' hp' i',
    fold_left (ai_step k m d p dt now rnd) l (done, hp, i)
      = (done ++ done', hp', i') /\
    Forall2 (ai_moves m now) l done' /\
    (hp - qmax 10 (damageRanged d) * inject_Z (Z.of_nat (length l))
       <= hp' <= hp)%Q /\
    (Forall (fun f => (now - lastAttackTime f <= 1000)%Q) l -> hp' = hp).
Proof.
  induction l as [|f l IH]; intros done hp i; cbn [fold_left].
  - exists [], hp, i. rewrite app_nil_r. split; [reflexivity|].
    split; [constructor|]. split; [|auto].
    cbn [length]. change (inject_Z (Z.of_nat 0)) with 0%Q. lra.
  - destruct (ai_step_spec k m d p dt now rnd done hp i f)
      as (f' & hp1 & i1 & E & A1 & A2 & A3 & A4 & A5 & A6 & A7).
    rewrite E.
    destruct (IH (done ++ [f']) hp1 i1) as (done' & hp' & i' & E' & F & B & C).
    exists (f' :: done'), hp', i'. split.
    { rewrite E', <- app_assoc. reflexivity. }
    split.
    { constructor; [|exact F]. unfold ai_moves.
      repeat split; auto. destruct A7 as [[_ H]|[_ H]]; auto. }
    split.
    { assert (Hn : (inject_Z (Z.of_nat (length (f :: l)))
                    == inject_Z (Z.of_nat (length l)) + 1)%Q).
      { cbn [length]. rewrite Nat2Z.inj_succ, <- Z.add_1_r, inject_Z_plus.
        reflexivity. }
      rewrite Hn. lra. }
    intros Hall. apply Forall_cons in Hall. destruct Hall as [Hf Hl].
    rewrite (C Hl). destruct A7 as [[H _]|[H _]]; [exact H|lra].
Qed.

(** X17.  [updateAI] keeps the enemies whose health is positive, in their
    order, each with its id, its health and its network id.  An enemy
    that stands in an open cell of the map stays in one; an enemy that is
    not chasing after the call is as it was; the time of its last attack
    stays or becomes the current time.  The player's health never grows
    and falls by at most the greater of 10 and the ranged damage of the
    difficulty for each enemy kept; it stays when no enemy kept attacked
    more than a second ago. *)
Theorem updateAI_keeps_the_living
    (k : Game.constants) (m : list (list Z)) (d : Difficulty) (p : Player)
    (dt now : Q) (rnd : nat -> Q) (es : list foe) :
  let alive := filter (fun f => qlt 0 (Game.e_health (body f)) = true) es in
  let r := updateAI k m d p dt now rnd es in
  Forall2 (ai_moves m now) alive (fst r) /\
  (p_health p
     - qmax 10 (damageRanged d) * inject_Z (Z.of_nat (length alive))
   <= snd r <= p_health p)%Q /\
  (Forall (fun f => (now - lastAttackTime f <= 1000)%Q) alive ->
   snd r = p_health p).
Proof.
  intros alive r.
  unfold r, updateAI. fold alive.
  destruct (ai_fold_spec k m d p dt now rnd alive [] (p_health p) 0%nat)
    as (done' & hp' & i' & E & F & B & C).
  rewrite E. cbn. auto.
Qed.

Lemma network_enemies_spec K myId allPlayers e :
  e ∈ network_enemies K myId allPlayers ->
  exists np, np ∈ allPlayers /\ Some (Server.p_id np) <> myId /\
    Game.e_networkId e = Some (Server.p_id np) /\
    Game.e_health e = Server.health np /\
    Game.e_pos e = {| vx := Server.p_x np; vy := Server.p_y np |}.
Proof.
  unfold network_enemies. intros H. apply list_elem_of_omap in H.
  destruct H as (np & Hin & H). exists np.
  destruct (bool_decide (Some (Server.p_id np) = myId)) eqn:E;
    [discriminate|].
  apply bool_decide_eq_false in E. injection H as <-. cbn. auto.
Qed.

(** X18.  In a networked game, where the enemies are the players that
    [tick] takes from the network manager, a shot never resolves against
    the shooter's own entry nor against a player whose health is not
    positive.  The player hit is one of those known; with a socket id
    that is not empty the hit is not applied locally but claimed with
    [sendHit], and the request that leaves, if the manager is in a room,
    names the shooter, that player as the victim and the damage of the
    hit. *)
Theorem shoot_claims_hits_on_other_players
    (k : Game.constants) (K : settings) (env : Game.shoot_env)
    (fuel : nat) (n : Client.net) (allPlayers : list Server.player)
    (ammo' : Z) (decal : Game.Decal) (h : Game.hit) :
  Game.isMultiplayer env = true ->
  Game.enemies env = network_enemies K (Client.playerId n) allPlayers ->
  Game.shoot fuel k env = Some (Game.Shot ammo' decal (Some h)) ->
  exists np,
    np ∈ allPlayers /\
    Some (Server.p_id np) <> Client.playerId n /\
    (0 < Server.health np)%Q /\
    Game.e_pos (Game.target h)
      = {| vx := Server.p_x np; vy := Server.p_y np |} /\
    (Server.p_id np <> EmptyString ->
     Game.effect h = Game.SendHit (Server.p_id np) (Game.dmg h) /\
     forall req, req ∈ Client.sendHit (Server.p_id np) (Game.dmg h) n ->
       exists rid, req = Client.r_playerHit rid (Client.playerId n)
                           (Server.p_id np) (Game.dmg h)).
Proof.
  intros Hmp Hen Hs. unfold Game.shoot in Hs.
  destruct (_ || _); [discriminate|].
  destruct (qlt _ _); [discriminate|].
  destruct (_ && _); [discriminate|].
  destruct (Game.wall_walk _ _ _ _) as [r|]; [|discriminate].
  injection Hs as _ _ Hh.
  match type of Hh with
  | context [Game.take_aim k env ?w] => set (wd := w) in Hh
  end.
  pose proof (take_aim_spec k env wd (Game.enemies env)) as Ha.
  fold (Game.take_aim k env wd) in Ha.
  unfold Game.resolve_hit in Hh. unfold Game.aim_of in Ha.
  destruct (Game.closestEnemy (Game.take_aim k env wd)) as [tg|] eqn:Etg;
    [|discriminate].
  destruct Ha as (Hin & Hc & _).
  apply candidate_true in Hc. destruct Hc as (Hpos & _).
  rewrite Hen in Hin. apply network_enemies_spec in Hin.
  destruct Hin as (np & Hnp & Hme & Hid & Hhp & Hxy).
  exists np. split; [exact Hnp|]. split; [exact Hme|].
  split; [rewrite <- Hhp; exact Hpos|].
  rewrite Hmp, Hid in Hh. injection Hh as <-. cbn.
  split; [exact Hxy|]. intros Hne.
  destruct (String.eqb_spec (Server.p_id np) EmptyString) as [E|_];
    [contradiction|].
  split; [reflexivity|].
  intros req Hreq. unfold Client.sendHit, Client.in_room in Hreq.
  destruct (Server.truthy (Client.roomId n)) as [rid|];
    [|apply elem_of_nil in Hreq; contradiction].
  exists rid. unfold Client.emit in Hreq.
  destruct (Client.socket n);
    [|apply elem_of_nil in Hreq; contradiction].
  apply list_elem_of_singleton in Hreq. exact Hreq.
Qed.

Lemma shoot_claims_hits_on_other_players_witness :
  exists h ammo' decal,
    Game.shoot 10 Scenario.game_constants Cases.net_duel
      = Some (Game.Shot ammo' decal (Some h)) /\
    Game.effect h = Game.SendHit "v" (Game.dmg h).
Proof.
  destruct (Game.shoot 10 Scenario.game_constants Cases.net_duel)
    as [[|ammo' decal [h|]]|] eqn:E;
    try (vm_compute in E; discriminate).
  exists h, ammo', decal. split; [reflexivity|].
  destruct (shoot_claims_hits_on_other_players Scenario.game_constants
              Cases.game_settings Cases.net_duel 10 Cases.client_a
              Cases.rivals ammo' decal h eq_refl eq_refl E)
    as (np & Hin & _ & Hhp & Hxy & Heff).
  assert (Ev : Server.p_id np = "v").
  { unfold Cases.rivals in Hin.
    repeat (apply elem_of_cons in Hin; destruct Hin as [->|Hin]);
      [| |reflexivity|apply elem_of_nil in Hin; contradiction].
    - vm_compute in E. injection E as _ _ <-. discriminate.
    - vm_compute in Hhp. discriminate. }
  rewrite Ev in Heff. apply Heff. discriminate.
Defined.

End Enemies.

(** ** Raycaster.ts: the order of the sprites and the wall slice *)

Section Painter.
Import Raycaster.

Lemma insert_far_sorted player sp l :
  StronglySorted (fun a b => (sprite_dist player b <= sprite_dist player a)%Q)
    l ->
  StronglySorted (fun a b => (sprite_dist player b <= sprite_dist player a)%Q)
    (insert_far player sp l).
Proof.
  induction 1 as [|y l Hl IH Hy]; cbn.
  - repeat constructor.
  - destruct (qlt _ _) eqn:E.
    + apply qlt_true in E. constructor; [exact IH|].
      rewrite insert_far_perm. constructor; [lra|exact Hy].
    + apply qlt_false in E. constructor; [constructor; assumption|].
      constructor; [exact E|].
      eapply Forall_impl; [exact Hy|]. cbn. intros z Hz. lra.
Qed.

Lemma insert_far_class player d sp l :
  filter (fun s => Qeq_bool (sprite_dist player s) d = true)
    (insert_far player sp l)
  = filter (fun s => Qeq_bool (sprite_dist player s) d = true) (sp :: l).
Proof.
  induction l as [|y l IH]; cbn [insert_far]; [reflexivity|].
  destruct (qlt _ _) eqn:E; [|reflexivity].
  apply qlt_true in E.
  rewrite (filter_cons _ y), IH, !(filter_cons _ sp), (filter_cons _ y).
  destruct (decide (Qeq_bool (sprite_dist player sp) d = true)) as [Hs|Hs];
    destruct (decide (Qeq_bool (sprite_dist player y) d = true)) as [Hy|Hy];
    try reflexivity.
  apply Qeq_bool_iff in Hs, Hy. lra.
Qed.

(** X19.  [castSprites] paints from far to near.  The order in which it
    goes through the sprites has every sprite of its argument once, no
    sprite comes before one that is farther from the player, and sprites
    at the same distance keep the order in which they were given; the
    [drawImage] calls come sprite by sprite in that order. *)
Theorem sprites_painted_far_to_near
    (zBuffer : list num) (player : Player) (sprites : list Sprite)
    (textures : gmap Z (list Texture)) (w h : Z) (zoom : Q) :
  let order := spriteOrder player sprites in
  order ≡ₚ sprites /\
  StronglySorted (fun a b => (sprite_dist player b <= sprite_dist player a)%Q)
    order /\
  (forall d,
     filter (fun s => Qeq_bool (sprite_dist player s) d = true) order
     = filter (fun s => Qeq_bool (sprite_dist player s) d = true) sprites) /\
  castSprites zBuffer player sprites textures w h zoom
  = concat (map (sprite_draws zBuffer player textures w h zoom) order).
Proof.
  intros order. split; [apply spriteOrder_perm|]. split; [|split].
  - unfold order, spriteOrder.
    induction sprites as [|sp l IH]; cbn; [constructor|].
    apply insert_far_sorted, IH.
  - intros d. unfold order, spriteOrder.
    induction sprites as [|sp l IH]; cbn [foldr]; [reflexivity|].
    rewrite insert_far_class, !(filter_cons _ sp), IH. reflexivity.
  - unfold castSprites. fold order. rewrite flat_map_concat_map.
    reflexivity.
Qed.

Lemma frac_range (wx : num) (q : Q) :
  wx = Fin q ->
  exists f, nsub wx (nfloor wx) = Fin f /\ (0 <= f < 1)%Q.
Proof.
  intros ->. cbn. eexists. split; [reflexivity|].
  pose proof (Qfloor_le q). pose proof (Qlt_floor q).
  rewrite inject_Z_plus in *. change (inject_Z 1) with 1%Q in *. lra.
Qed.

Lemma texel_range (f : Q) (W : Z) :
  (0 <= f < 1)%Q -> 1 <= W -> 0 <= Qfloor (f * inject_Z W) <= W - 1.
Proof.
  intros [H0 H1] HW.
  assert (Hq : (1 <= inject_Z W)%Q)
    by (change 1%Q with (inject_Z 1); rewrite <- Zle_Qle; exact HW).
  split.
  - change 0 with (Qfloor 0). apply Qfloor_resp_le. nra.
  - destruct (Z_lt_le_dec (Qfloor (f * inject_Z W)) W) as [|Hge]; [lia|].
    exfalso. pose proof (Qfloor_le (f * inject_Z W)) as Hf.
    rewrite Zle_Qle in Hge. nra.
Qed.

(** X20.  The slice that [castWalls] draws for a column whose ray is not
    the zero vector.  The distance written to the z-buffer is a number
    that is not negative; [wallX] lies in [0, 1); the texture column is a
    whole number from 0 to [width - 1], mirrored or not, for a texture at
    least one pixel wide.  With a distance above zero the slice spans
    [h * zoom / distance] pixels from [drawStart] to [drawEnd], whatever
    the pitch and the height of the jump. *)
Theorem castWalls_slice_geometry
    (fuel : nat) (player : Player) (m : list (list Z))
    (textures : gmap Z (list Texture)) (w h : Z) (time zoom : Q) (x : Z)
    (ws : wall_slice) (texture : Texture) :
  let s := setup_ray player w x in
  castWalls_column fuel player m textures w h time zoom x = Some ws ->
  wall_texture textures (ws_wallType ws) time = Some texture ->
  ~ (rayDirX s == 0 /\ rayDirY s == 0)%Q ->
  1 <= t_width texture ->
  exists q f t,
    ws_perpWallDist ws = Fin q /\ (0 <= q)%Q /\
    ws_wallX ws = Fin f /\ (0 <= f < 1)%Q /\
    ws_texX ws = Fin (inject_Z t) /\ 0 <= t <= t_width texture - 1 /\
    ((0 < q)%Q ->
     exists a b, ws_drawStart ws = Fin a /\ ws_drawEnd ws = Fin b /\
                 (b - a == inject_Z h * zoom / q)%Q).
Proof.
  intros s. unfold castWalls_column. fold s.
  destruct (dda_loop fuel m s (start s)) as [[r wallType]|] eqn:Hloop;
    [|discriminate].
  destruct (wall_texture textures wallType time) as [texture'|] eqn:Htex;
    [|discriminate].
  intros [= <-]. cbn. rewrite Htex. intros [= <-] Hnz HW.
  destruct (setup_ray_axes player w x)
    as (Ex & Ey & ix & iy & Hax & Hay & Hx0 & Hy0 & _).
  fold s in Ex, Ey, Hax, Hay.
  assert (Hninf : ~ (deltaDistX s = PInf /\ deltaDistY s = PInf)) by tauto.
  pose proof (dda_loop_inv m s ix iy Hninf _ _ _ _ Hax Hay Hloop) as Hl.
  destruct (last_ok_perp s r ix iy Hl) as (q & Hq & Hside).
  assert (Hq0 : (0 <= q)%Q) by (destruct Hside as [[_ H]|[_ H]]; lra).
  assert (Hwx : exists f, wallX_of player s r = Fin f /\ (0 <= f < 1)%Q).
  { unfold wallX_of. rewrite Hq. destruct (side r =? 0); cbn [nmul nadd];
      eapply frac_range; reflexivity. }
  destruct Hwx as (f & Hf & Hfr).
  pose proof (texel_range f (t_width texture') Hfr HW) as Ht.
  set (t0 := Qfloor (f * inject_Z (t_width texture'))) in *.
  assert (Hmir : mirror (t_width texture') (Fin (inject_Z t0))
                 = Fin (inject_Z (t_width texture' - t0 - 1))).
  { unfold mirror, ofZ. cbn. f_equal.
    unfold Z.sub. rewrite !inject_Z_plus, !inject_Z_opp. reflexivity. }
  pose proof (dda_loop_side _ _ _ _ _ _ Hloop) as Hsd.
  assert (Htx : exists t,
            texX_of (t_width texture') (side r) (rayDirX s) (rayDirY s)
              (wallX_of player s r) = Fin (inject_Z t) /\
            0 <= t <= t_width texture' - 1).
  { unfold texX_of. rewrite Hf. cbn [nmul ofZ nfloor]. fold t0.
    destruct Hsd as [-> | ->]; cbn [Z.eqb andb];
      repeat match goal with
             | |- context [qlt ?a ?b] => destruct (qlt a b)
             end; cbn [andb]; rewrite ?Hmir; eexists; split;
      try reflexivity; lia. }
  destruct Htx as (t & Et & Htr).
  exists q, f, t. rewrite Hq.
  split; [reflexivity|]. split; [exact Hq0|]. split; [exact Hf|].
  split; [exact Hfr|]. split; [exact Et|]. split; [exact Htr|].
  intros Hpos. unfold ofZ. cbn [ndiv].
  assert (Eq0 : qeq q 0 = false).
  { destruct (qeq q 0) eqn:E; [|reflexivity]. apply qeq_true in E. lra. }
  rewrite Eq0. cbn. eexists _, _. split; [reflexivity|].
  split; [reflexivity|]. field. lra.
Qed.

Lemma castWalls_slice_geometry_witness :
  exists ws,
    castWalls_column 6 Scenario.cam_up Scenario.ring3
      Scenario.wall_textures 4 4 0 1 2 = Some ws /\
    exists t, ws_texX ws = Fin (inject_Z t) /\ 0 <= t <= 63.
Proof.
  destruct (castWalls_column 6 Scenario.cam_up Scenario.ring3
              Scenario.wall_textures 4 4 0 1 2) as [ws|] eqn:E;
    [|vm_compute in E; discriminate].
  exists ws. split; [reflexivity|].
  destruct (castWalls_slice_geometry 6 Scenario.cam_up Scenario.ring3
              Scenario.wall_textures 4 4 0 1 2 ws
              {| t_width := 64; t_height := 64 |} E)
    as (q & f & t & _ & _ & _ & _ & Et & Ht & _).
  - vm_compute in E. injection E as <-. vm_compute. reflexivity.
  - vm_compute. intros [_ H]. discriminate.
  - vm_compute. discriminate.
  - exists t. split; [exact Et|exact Ht].
Defined.

End Painter.

(** ** Raycaster.ts: the floor and the ceiling *)

Section Floor.
Import FloorCast.

Lemma toInt32_small z : - 2 ^ 31 <= z < 2 ^ 31 -> toInt32 z = z.
Proof.
  unfold toInt32. change (2 ^ 31) with 2147483648.
  change (2 ^ 32) with 4294967296. intros H.
  Z.div_mod_to_equations. lia.
Qed.

Lemma land_le a b : 0 <= b -> Z.land a b <= b.
Proof.
  intros Hb. pose proof (Z.sub_land_same_l b a) as H.
  assert (0 <= Z.land b (Z.lnot a)) by (apply Z.land_nonneg; auto).
  rewrite (Z.land_comm a b). lia.
Qed.

Lemma lor_disjoint hi lo k :
  0 <= k -> 0 <= lo < 2 ^ k -> Z.lor (hi * 2 ^ k) lo = hi * 2 ^ k + lo.
Proof.
  intros Hk Hlo. pose proof (Z.add_lor_land (hi * 2 ^ k) lo) as H.
  assert (E : Z.land (hi * 2 ^ k) lo = 0).
  { apply Z.bits_inj'. intros n Hn. rewrite Z.land_spec, Z.bits_0.
    destruct (Z.lt_ge_cases n k) as [Hlt|Hge].
    - rewrite Z.mul_pow2_bits_low by exact Hlt. reflexivity.
    - rewrite <- (Z.mod_small lo (2 ^ k)) by exact Hlo.
      rewrite Z.mod_pow2_bits_high by lia. apply andb_false_r. }
  lia.
Qed.

Lemma land_high C : Z.land C (toInt32 4278190080) = C / 2 ^ 24 * 2 ^ 24.
Proof.
  change (toInt32 4278190080) with (Z.lnot (Z.ones 24)).
  rewrite <- Z.ldiff_land, Z.ldiff_ones_r by lia.
  rewrite Z.shiftl_mul_pow2, Z.shiftr_div_pow2 by lia. reflexivity.
Qed.

Lemma truncate_nonneg q : (0 <= q)%Q -> truncate q = Qfloor q.
Proof.
  destruct q as [n d]. unfold Qle, truncate. cbn. intros H.
  apply Z.quot_div_nonneg; lia.
Qed.

(** A channel of a colour after the fog. *)
Lemma dimmed_range (v : Z) (f : Q) :
  0 <= v <= 255 -> (0 <= f <= 1)%Q ->
  toInt32 (truncate (inject_Z v * f)) = Qfloor (inject_Z v * f) /\
  0 <= Qfloor (inject_Z v * f) <= v.
Proof.
  intros Hv Hf.
  assert (Hq : (0 <= inject_Z v <= 255)%Q).
  { change 0%Q with (inject_Z 0). change 255%Q with (inject_Z 255).
    rewrite <- !Zle_Qle. exact Hv. }
  assert (H0 : 0 <= Qfloor (inject_Z v * f)).
  { change 0 with (Qfloor 0). apply Qfloor_resp_le. nra. }
  assert (H1 : Qfloor (inject_Z v * f) <= v).
  { rewrite <- (Qfloor_Z v) at 2. apply Qfloor_resp_le. nra. }
  rewrite truncate_nonneg by nra.
  split; [|lia]. apply toInt32_small. change (2 ^ 31) with 2147483648. lia.
Qed.

(** [Math.floor(size * fraction)] is below [size]. *)
Lemma scaled_fraction (size : Z) (at_ : Q) :
  1 <= size ->
  0 <= Qfloor (inject_Z size * (at_ - inject_Z (Qfloor at_))) <= size - 1.
Proof.
  intros Hs.
  assert (Hq : (1 <= inject_Z size)%Q)
    by (change 1%Q with (inject_Z 1); rewrite <- Zle_Qle; exact Hs).
  pose proof (Qfloor_le at_) as Hlo. pose proof (Qlt_floor at_) as Hhi.
  rewrite inject_Z_plus in Hhi. change (inject_Z 1) with 1%Q in Hhi.
  set (f := (at_ - inject_Z (Qfloor at_))%Q) in *.
  assert (Hf : (0 <= f < 1)%Q) by (unfold f; lra).
  split.
  - change 0 with (Qfloor 0). apply Qfloor_resp_le. nra.
  - destruct (Z_lt_le_dec (Qfloor (inject_Z size * f)) size) as [|Hge];
      [lia|].
    exfalso. pose proof (Qfloor_le (inject_Z size * f)) as Hfl.
    rewrite Zle_Qle in Hge. nra.
Qed.

Lemma texCoord_range (size : Z) (at_ : Q) :
  1 <= size < 2 ^ 31 ->
  0 <= texCoord size at_ <= size - 1 /\
  ((exists k, 0 <= k /\ size = 2 ^ k) ->
   texCoord size at_
   = Qfloor (inject_Z size * (at_ - inject_Z (Qfloor at_)))).
Proof.
  intros Hs. pose proof (scaled_fraction size at_ (proj1 Hs)) as Ht.
  unfold texCoord.
  set (t := Qfloor (inject_Z size * (at_ - inject_Z (Qfloor at_)))) in *.
  rewrite !toInt32_small by lia.
  split.
  - split; [apply Z.land_nonneg; lia|apply land_le; lia].
  - intros (k & Hk & ->).
    replace (2 ^ k - 1) with (Z.ones k) by (rewrite Z.ones_equiv; lia).
    rewrite Z.land_ones by exact Hk. apply Z.mod_small. lia.
Qed.

(** X21.  The texel that [castFloorAndCeiling] reads, for a floor texture
    between 1 and 2^31 - 1 pixels wide and high.  Each of the two
    coordinates lies within the texture, so the index lies within its
    [width * height] pixels, wherever the floor point is.  For a size
    that is a power of two the mask changes nothing and a coordinate is
    the fraction of the floor coordinate times the size, rounded down.
    With [width * height] pixels in the texture the read finds one. *)
Theorem floor_texel_inside_texture
    (floorTexture : Bitmap) (floorX floorY : Q) :
  1 <= bm_width floorTexture < 2 ^ 31 ->
  1 <= bm_height floorTexture < 2 ^ 31 ->
  let W := bm_width floorTexture in
  let H := bm_height floorTexture in
  let frac (q : Q) := (q - inject_Z (Qfloor q))%Q in
  0 <= texIndex floorTexture floorX floorY < W * H /\
  texIndex floorTexture floorX floorY / W = texCoord H floorY /\
  texIndex floorTexture floorX floorY mod W = texCoord W floorX /\
  ((exists k, 0 <= k /\ W = 2 ^ k) ->
   texCoord W floorX = Qfloor (inject_Z W * frac floorX)) /\
  ((exists k, 0 <= k /\ H = 2 ^ k) ->
   texCoord H floorY = Qfloor (inject_Z H * frac floorY)) /\
  (length (bm_data floorTexture) = Z.to_nat (W * H) ->
   exists c, bm_data floorTexture
               !! Z.to_nat (texIndex floorTexture floorX floorY) = Some c /\
             texel floorTexture (texIndex floorTexture floorX floorY) = c).
Proof.
  intros HW HH W H frac.
  destruct (texCoord_range W floorX HW) as [Hx Hxp].
  destruct (texCoord_range H floorY HH) as [Hy Hyp].
  unfold texIndex. fold W H.
  set (tx := texCoord W floorX) in *. set (ty := texCoord H floorY) in *.
  assert (Hidx : 0 <= ty * W + tx < W * H) by nia.
  split; [exact Hidx|].
  split; [rewrite Z.div_add_l by lia; rewrite Z.div_small by lia; lia|].
  split; [rewrite Z.add_comm, Z.mod_add by lia; apply Z.mod_small; lia|].
  split; [exact Hxp|]. split; [exact Hyp|].
  intros Hlen.
  destruct (lookup_lt_is_Some_2 (bm_data floorTexture)
              (Z.to_nat (ty * W + tx))) as [c Hc]; [lia|].
  exists c. split; [exact Hc|]. unfold texel.
  destruct (Z.ltb_spec (ty * W + tx) 0); [lia|]. rewrite Hc. reflexivity.
Qed.

Lemma floor_texel_inside_texture_witness :
  0 <= texIndex {| bm_data := [1; 2; 3; 4; 5; 6; 7; 8];
                   bm_width := 4; bm_height := 2 |} (5 # 2) (- 1 # 4)
    < 4 * 2.
Proof.
  apply (floor_texel_inside_texture
           {| bm_data := [1; 2; 3; 4; 5; 6; 7; 8];
              bm_width := 4; bm_height := 2 |} (5 # 2) (- 1 # 4));
    vm_compute; split; (discriminate || reflexivity).
Defined.

(** X22.  The fog of the floor and the ceiling, for a colour of the
    texture and a fog amount of at most 1, which is what the row gives.
    What is stored is a 32-bit colour with the alpha byte of the texel.
    With a fog amount above zero each of the three colour bytes is the
    byte of the texel times [1 - 0.7 * fogAmount], rounded down, so no
    byte grows; otherwise the colour of the texel is stored as it is. *)
Theorem fog_keeps_alpha_and_darkens (amount : Q) (color : Z) :
  0 <= color < 2 ^ 32 -> (amount <= 1)%Q ->
  let stored := toUint32 (fog amount color) in
  let byte k v := (v / 2 ^ k) mod 256 in
  0 <= stored < 2 ^ 32 /\
  stored / 2 ^ 24 = color / 2 ^ 24 /\
  (forall k, k = 0 \/ k = 8 \/ k = 16 ->
     0 <= byte k stored <= byte k color /\
     ((0 < amount)%Q ->
      byte k stored
      = Qfloor (inject_Z (byte k color) * (1 - amount * (7 # 10))))) /\
  ((amount <= 0)%Q -> stored = color).
Proof.
  intros Hc Ha stored byte. unfold stored, fog, toUint32.
  destruct (qlt 0 amount) eqn:E.
  2:{ apply qlt_false in E. rewrite Z.mod_small by exact Hc.
      split; [exact Hc|]. split; [reflexivity|]. split; [|reflexivity].
      intros k Hk. split; [|intros; lra].
      unfold byte. destruct Hk as [-> | [-> | ->]];
        match goal with |- context [2 ^ ?n] =>
          let v := eval compute in (2 ^ n) in change (2 ^ n) with v end;
        Z.div_mod_to_equations; lia. }
  apply qlt_true in E.
  set (f := (1 - amount * (7 # 10))%Q).
  assert (Hf : (0 <= f <= 1)%Q) by (unfold f; lra).
  set (C := toInt32 color).
  rewrite land_high. fold C.
  assert (Hch : forall k, k = 0 \/ k = 8 \/ k = 16 ->
            Z.land (Z.shiftr C k) 255 = byte k color /\
            0 <= byte k color <= 255).
  { intros k Hk.
    change (Z.land (Z.shiftr C k) 255)
      with (Z.land (Z.shiftr C k) (Z.ones 8)).
    rewrite Z.land_ones, Z.shiftr_div_pow2 by lia.
    unfold byte, C, toInt32. change (2 ^ 8) with 256.
    change (2 ^ 31) with 2147483648. change (2 ^ 32) with 4294967296.
    destruct Hk as [-> | [-> | ->]];
      match goal with |- context [2 ^ ?n] =>
        let v := eval compute in (2 ^ n) in change (2 ^ n) with v end;
      Z.div_mod_to_equations; lia. }
  destruct (Hch 0) as [E0 R0]; [auto|].
  destruct (Hch 8) as [E8 R8]; [auto|].
  destruct (Hch 16) as [E16 R16]; [auto|].
  rewrite Z.shiftr_0_r in E0. rewrite E0, E8, E16.
  destruct (dimmed_range (byte 0 color) f R0 Hf) as [T0 D0].
  destruct (dimmed_range (byte 8 color) f R8 Hf) as [T8 D8].
  destruct (dimmed_range (byte 16 color) f R16 Hf) as [T16 D16].
  rewrite T0, T8, T16.
  set (r := Qfloor (inject_Z (byte 0 color) * f)) in *.
  set (g := Qfloor (inject_Z (byte 8 color) * f)) in *.
  set (b := Qfloor (inject_Z (byte 16 color) * f)) in *.
  rewrite !Z.shiftl_mul_pow2 by lia.
  change (2 ^ 16) with 65536 in *. change (2 ^ 8) with 256 in *.
  rewrite !toInt32_small by (change (2 ^ 31) with 2147483648; lia).
  set (A := C / 2 ^ 24).
  assert (EA : A mod 256 = color / 2 ^ 24).
  { unfold A, C, toInt32. change (2 ^ 24) with 16777216.
    change (2 ^ 31) with 2147483648. change (2 ^ 32) with 4294967296 in *.
    Z.div_mod_to_equations. lia. }
  assert (EV : Z.lor (Z.lor (Z.lor (A * 2 ^ 24) (b * 65536)) (g * 256)) r
               = A * 16777216 + b * 65536 + g * 256 + r).
  { rewrite (lor_disjoint A (b * 65536) 24) by
      (change (2 ^ 24) with 16777216; lia).
    change (2 ^ 24) with 16777216.
    replace (A * 16777216 + b * 65536) with ((A * 256 + b) * 2 ^ 16)
      by (change (2 ^ 16) with 65536; lia).
    rewrite (lor_disjoint _ (g * 256) 16) by
      (change (2 ^ 16) with 65536; lia).
    change (2 ^ 16) with 65536.
    replace ((A * 256 + b) * 65536 + g * 256)
      with (((A * 256 + b) * 256 + g) * 2 ^ 8)
      by (change (2 ^ 8) with 256; lia).
    rewrite (lor_disjoint _ r 8) by (change (2 ^ 8) with 256; lia).
    change (2 ^ 8) with 256. lia. }
  rewrite EV. clear EV.
  change (2 ^ 32) with 4294967296 in *. change (2 ^ 24) with 16777216 in *.
  split; [Z.div_mod_to_equations; lia|].
  split; [Z.div_mod_to_equations; lia|].
  split; [|intros; lra].
  intros k Hk.
  destruct Hk as [-> | [-> | ->]].
  - assert (Es : byte 0 ((A * 16777216 + b * 65536 + g * 256 + r)
                         mod 4294967296) = r)
      by (unfold byte; change (2 ^ 0) with 1; Z.div_mod_to_equations; lia).
    rewrite Es. split; [exact D0|intros _; reflexivity].
  - assert (Es : byte 8 ((A * 16777216 + b * 65536 + g * 256 + r)
                         mod 4294967296) = g)
      by (unfold byte; change (2 ^ 8) with 256; Z.div_mod_to_equations;
          lia).
    rewrite Es. split; [exact D8|intros _; reflexivity].
  - assert (Es : byte 16 ((A * 16777216 + b * 65536 + g * 256 + r)
                          mod 4294967296) = b)
      by (unfold byte; change (2 ^ 16) with 65536; Z.div_mod_to_equations;
          lia).
    rewrite Es. split; [exact D16|intros _; reflexivity].
Qed.

Lemma fog_keeps_alpha_and_darkens_witness :
  toUint32 (fog 1 4294967295) / 2 ^ 24 = 255 /\
  (toUint32 (fog 1 4294967295) / 2 ^ 8) mod 256 = 76.
Proof.
  destruct (fog_keeps_alpha_and_darkens 1 4294967295)
    as (_ & Ha & Hb & _).
  - vm_compute. split; [discriminate|reflexivity].
  - vm_compute. discriminate.
  - split; [exact Ha|]. destruct (Hb 8) as [_ E]; [auto|].
    rewrite E by reflexivity. reflexivity.
Defined.

Lemma store_length i c buffer : length (store i c buffer) = length buffer.
Proof.
  unfold store. destruct (i <? 0); [reflexivity|apply length_insert].
Qed.

Lemma texCoord_proper size a a' :
  (a == a')%Q -> texCoord size a = texCoord size a'.
Proof.
  intros E. unfold texCoord. rewrite (Qfloor_comp a a' E).
  f_equal. f_equal. apply Qfloor_comp. rewrite E. reflexivity.
Qed.

Lemma pixel_proper ft ct fl amount a b a' b' :
  (a == a')%Q -> (b == b')%Q ->
  pixel ft ct fl amount a b = pixel ft ct fl amount a' b'.
Proof.
  intros Ea Eb. unfold pixel, texIndex.
  rewrite (texCoord_proper _ a a' Ea), (texCoord_proper _ b b' Eb).
  reflexivity.
Qed.

(** The loop over the columns of row [y], from column [x0]. *)
Lemma cast_columns_spec ft ct fl amount sx sy w y :
  0 <= y * w ->
  forall n x0 fx fy buffer,
    0 <= x0 ->
    let buffer' := cast_columns n ft ct fl amount sx sy w y x0 fx fy buffer in
    length buffer' = length buffer /\
    (forall x, x0 <= x < x0 + Z.of_nat n ->
       (Z.to_nat (y * w + x) < length buffer)%nat ->
       buffer' !! Z.to_nat (y * w + x)
       = Some (toUint32 (pixel ft ct fl amount
                           (fx + inject_Z (x - x0) * sx)
                           (fy + inject_Z (x - x0) * sy)))) /\
    (forall j, (forall x, x0 <= x < x0 + Z.of_nat n ->
                          j <> Z.to_nat (y * w + x)) ->
       buffer' !! j = buffer !! j).
Proof.
  intros Hy. induction n as [|n IH]; intros x0 fx fy buffer Hx0;
    cbn [cast_columns].
  - split; [reflexivity|]. split; [intros; lia|reflexivity].
  - set (b1 := store (y * w + x0) (pixel ft ct fl amount fx fy) buffer).
    destruct (IH (x0 + 1) (fx + sx)%Q (fy + sy)%Q b1) as (L & In & Out);
      [lia|].
    assert (L1 : length b1 = length buffer) by apply store_length.
    split; [rewrite L; exact L1|]. split.
    + intros x Hx Hlt.
      destruct (Z.eq_dec x x0) as [->|Hne].
      * rewrite Out by (intros x' Hx'; lia).
        unfold b1, store. destruct (Z.ltb_spec (y * w + x0) 0); [lia|].
        rewrite list_lookup_insert_eq by exact Hlt.
        f_equal. f_equal. apply pixel_proper.
        -- rewrite Z.sub_diag. change (inject_Z 0) with 0%Q. ring.
        -- rewrite Z.sub_diag. change (inject_Z 0) with 0%Q. ring.
      * rewrite In by lia.
        f_equal. f_equal.
        assert (E : (inject_Z (x - x0) == inject_Z (x - (x0 + 1)) + 1)%Q).
        { replace (x - x0) with (x - (x0 + 1) + 1) by lia.
          rewrite inject_Z_plus. reflexivity. }
        apply pixel_proper; rewrite E; ring.
    + intros j Hj. rewrite Out by (intros x Hx; apply Hj; lia).
      unfold b1, store. destruct (Z.ltb_spec (y * w + x0) 0); [reflexivity|].
      apply list_lookup_insert_ne. intros <-. apply (Hj x0); [lia|reflexivity].
Qed.

Lemma cast_row_spec ft ct player w h zoom y buffer :
  0 <= w -> 0 <= y ->
  let buffer' := cast_row ft ct player w h zoom y buffer in
  length buffer' = length buffer /\
  (forall x, 0 <= x < w -> (Z.to_nat (y * w + x) < length buffer)%nat ->
     buffer' !! Z.to_nat (y * w + x)
     = row_pixels ft ct player w h zoom y x
         (buffer !! Z.to_nat (y * w + x))) /\
  (forall j, (forall x, 0 <= x < w -> j <> Z.to_nat (y * w + x)) ->
     buffer' !! j = buffer !! j).
Proof.
  intros Hw Hy. unfold cast_row, row_pixels.
  destruct (row_of player w h zoom y) as [r|]; [|auto].
  destruct (cast_columns_spec ft ct (isFloor r) (fogAmount r) (floorStepX r)
              (floorStepY r) w y ltac:(nia) (Z.to_nat w) 0 (floorX0 r)
              (floorY0 r) buffer ltac:(lia)) as (L & In & Out).
  split; [exact L|]. split.
  - intros x Hx Hlt. rewrite In by lia. rewrite Z.sub_0_r. reflexivity.
  - intros j Hj. apply Out. intros x Hx. apply Hj. lia.
Qed.

Lemma cast_rows_spec ft ct player w h zoom :
  0 <= w ->
  forall n y0 buffer,
    0 <= y0 ->
    let buffer' := cast_rows n ft ct player w h zoom y0 buffer in
    length buffer' = length buffer /\
    (forall x y, 0 <= x < w -> y0 <= y < y0 + Z.of_nat n ->
       (Z.to_nat (y * w + x) < length buffer)%nat ->
       buffer' !! Z.to_nat (y * w + x)
       = row_pixels ft ct player w h zoom y x
           (buffer !! Z.to_nat (y * w + x))) /\
    (forall j, (forall x y, 0 <= x < w -> y0 <= y < y0 + Z.of_nat n ->
                            j <> Z.to_nat (y * w + x)) ->
       buffer' !! j = buffer !! j).
Proof.
  intros Hw. induction n as [|n IH]; intros y0 buffer Hy0; cbn [cast_rows].
  - split; [reflexivity|]. split; [intros; lia|reflexivity].
  - destruct (cast_row_spec ft ct player w h zoom y0 buffer Hw Hy0)
      as (L1 & In1 & Out1).
    set (b1 := cast_row ft ct player w h zoom y0 buffer) in *.
    destruct (IH (y0 + 1) b1) as (L & In & Out); [lia|].
    split; [rewrite L; exact L1|]. split.
    + intros x y Hx Hyr Hlt.
      destruct (Z.eq_dec y y0) as [->|Hne].
      * rewrite Out by (intros x' y' Hx' Hy'; nia).
        apply In1; assumption.
      * rewrite In by (rewrite ?L1; auto; lia).
        rewrite Out1 by (intros x' Hx'; nia). reflexivity.
    + intros j Hj. rewrite Out by (intros x y Hx Hyr; apply Hj; lia).
      apply Out1. intros x Hx. apply Hj; lia.
Qed.

(** X23.  A call of [castFloorAndCeiling] with a floor and a ceiling
    texture, on a buffer of [w * h] pixels.  It returns, and the buffer
    keeps its length.  After it every pixel of a row holds the colour of
    the floor below the horizon [h / 2 + pitch] and of the ceiling above
    it, read at the floor point of the first column moved on by the floor
    step once for each column before; the fog amount of a row is at most
    1.  Only the row that lies on the horizon, if there is one, is left
    as it was. *)
Theorem floor_and_ceiling_fill_the_rows
    (FLOOR CEILING : Z) (textures : gmap Z (list Bitmap))
    (floorTexture ceilingTexture : Bitmap) (fs cs : list Bitmap)
    (player : Player) (w h : Z) (zoom : Q) (buffer : list Z) :
  textures !! FLOOR = Some (floorTexture :: fs) ->
  textures !! CEILING = Some (ceilingTexture :: cs) ->
  0 <= w -> 0 <= h -> length buffer = Z.to_nat (w * h) ->
  exists buffer',
    castFloorAndCeiling FLOOR CEILING textures player w h zoom buffer
      = Some buffer' /\
    length buffer' = length buffer /\
    forall x y, 0 <= x < w -> 0 <= y < h ->
      let horizon := (inject_Z h / 2 + pitch player)%Q in
      match row_of player w h zoom y with
      | None =>
        (inject_Z y == horizon)%Q /\
        buffer' !! Z.to_nat (y * w + x) = buffer !! Z.to_nat (y * w + x)
      | Some r =>
        ~ (inject_Z y == horizon)%Q /\
        (isFloor r = true <-> (horizon < inject_Z y)%Q) /\
        (fogAmount r <= 1)%Q /\
        buffer' !! Z.to_nat (y * w + x)
        = Some (toUint32
                  (pixel floorTexture ceilingTexture (isFloor r)
                     (fogAmount r)
                     (floorX0 r + inject_Z x * floorStepX r)
                     (floorY0 r + inject_Z x * floorStepY r)))
      end.
Proof.
  intros Hf Hc Hw Hh Hlen. unfold castFloorAndCeiling. rewrite Hf, Hc.
  cbn [head].
  destruct (cast_rows_spec floorTexture ceilingTexture player w h zoom Hw
              (Z.to_nat h) 0 buffer ltac:(lia)) as (L & In & _).
  eexists. split; [reflexivity|]. split; [exact L|].
  intros x y Hx Hy. set (horizon := (inject_Z h / 2 + pitch player)%Q).
  assert (Hlt : (Z.to_nat (y * w + x) < length buffer)%nat)
    by (rewrite Hlen; nia).
  specialize (In x y Hx ltac:(lia) Hlt). unfold row_pixels in In.
  unfold row_of in *. fold horizon in In |- *.
  destruct (qlt horizon (inject_Z y)) eqn:Efl.
  - apply qlt_true in Efl.
    destruct (qeq _ 0) eqn:Ep.
    + apply qeq_true in Ep. unfold horizon in *. lra.
    + cbn [isFloor fogAmount floorX0 floorY0 floorStepX floorStepY] in *.
      split; [unfold horizon in *; lra|]. split; [tauto|].
      split; [|exact In].
      destruct (qlt _ 1) eqn:E1; [apply qlt_true in E1|]; lra.
  - apply qlt_false in Efl.
    destruct (qeq _ 0) eqn:Ep.
    + apply qeq_true in Ep. split; [unfold horizon; lra|exact In].
    + apply qeq_false in Ep.
      cbn [isFloor fogAmount floorX0 floorY0 floorStepX floorStepY] in *.
      split; [unfold horizon in *; intros E; apply Ep; lra|].
      split; [split; [discriminate|intros; lra]|].
      split; [|exact In].
      destruct (qlt _ 1) eqn:E1; [apply qlt_true in E1|]; lra.
Qed.

Lemma floor_and_ceiling_fill_the_rows_witness :
  exists buffer',
    castFloorAndCeiling 8 9
      {[ 8 := [ {| bm_data := [4278190335; 4278255360];
                   bm_width := 2; bm_height := 1 |} ];
         9 := [ {| bm_data := [4294901760; 4294967295];
                   bm_width := 2; bm_height := 1 |} ] ]}
      Scenario.cam_centre 2 2 1 [0; 0; 0; 0] = Some buffer' /\
    length buffer' = 4%nat.
Proof.
  destruct (floor_and_ceiling_fill_the_rows 8 9
              {[ 8 := [ {| bm_data := [4278190335; 4278255360];
                           bm_width := 2; bm_height := 1 |} ];
                 9 := [ {| bm_data := [4294901760; 4294967295];
                           bm_width := 2; bm_height := 1 |} ] ]}
              {| bm_data := [4278190335; 4278255360];
                 bm_width := 2; bm_height := 1 |}
              {| bm_data := [4294901760; 4294967295];
                 bm_width := 2; bm_height := 1 |}
              [] [] Scenario.cam_centre 2 2 1 [0; 0; 0; 0])
    as (buffer' & E & L & _);
    [reflexivity|reflexivity|lia|lia|reflexivity|].
  exists buffer'. split; [exact E|exact L].
Defined.

End Floor.

(** ** server/index.js: what holds in every state *)

Section Reachable.
Import Server.

(** X24.  In every state that the server reaches from its start,
    whatever the messages, the timers and their order: no two pending
    timers have the same handle; only the countdown of a room is an
    interval, and the [timerInterval] of a room names no pending timer
    other than a countdown; the expiry of an item is due 5000 ms after
    the instant that its id begins with; no score is negative, and a
    room that is being played has a score board that is not empty. *)
Theorem reachable_states_are_sound (inputs : list (Z * input)) :
  let st := run inputs init in
  NoDup (map t_id (timers st)) /\
  (forall t, t ∈ timers st -> is_tick (t_cb t) = false ->
             t_every t = None) /\
  (forall l r tid t,
     heap st !! l = Some r -> timerInterval r = Some tid ->
     t ∈ timers st -> t_id t = tid -> is_tick (t_cb t) = true) /\
  (forall t l roomId itemId,
     t ∈ timers st -> t_cb t = ItemExpiry l roomId itemId ->
     exists T suffix, itemId = pretty T +:+ suffix /\ t_due t = T + 5000) /\
  (forall l r, heap st !! l = Some r ->
     (status r = PLAYING -> scores r <> []) /\
     forall pid score, (pid, score) ∈ scores r -> 0 <= score).
Proof.
  intros st. pose proof (wf_run inputs init wf_init) as H. fold st in H.
  split; [apply (wf_timer_nodup st H)|].
  split; [apply (wf_oneshot st H)|].
  split.
  { intros l r tid t Hr Hi Ht Hid.
    destruct (wf_interval st H l r tid Hr Hi) as [_ Hk]. auto. }
  split; [apply (wf_expiry_due st H)|].
  intros l r Hr. destruct (wf_scores st H l r Hr) as [Hp Hs].
  split; [exact Hp|]. intros pid score Hin. apply (Hs (pid, score) Hin).
Qed.

End Reachable.

(** ** The Game component: the line of sight *)

Section Sight.
Import Game.

Lemma is_blocking_proper m x y x' y' :
  (x == x')%Q -> (y == y')%Q ->
  is_blocking m (Qfloor x) (Qfloor y) = is_blocking m (Qfloor x') (Qfloor y').
Proof.
  intros Ex Ey. rewrite (Qfloor_comp x x' Ex), (Qfloor_comp y y' Ey).
  reflexivity.
Qed.

Lemma los_loop_spec m dx dy n :
  forall cx cy,
    los_loop n m dx dy cx cy = true <->
    forall i, 1 <= i <= Z.of_nat n ->
      is_blocking m (Qfloor (cx + inject_Z i * dx))
                    (Qfloor (cy + inject_Z i * dy)) = false.
Proof.
  induction n as [|n IH]; intros cx cy; cbn [los_loop].
  - split; [intros _ i Hi; lia|reflexivity].
  - destruct (is_blocking m (Qfloor (cx + dx)) (Qfloor (cy + dy))) eqn:E.
    + split; [discriminate|]. intros H. specialize (H 1 ltac:(lia)).
      rewrite (is_blocking_proper m _ _ (cx + dx) (cy + dy)) in H
        by (change (inject_Z 1) with 1%Q; ring).
      congruence.
    + rewrite IH. split.
      * intros H i Hi. destruct (Z.eq_dec i 1) as [->|Hne].
        -- rewrite (is_blocking_proper m _ _ (cx + dx) (cy + dy))
             by (change (inject_Z 1) with 1%Q; ring).
           exact E.
        -- specialize (H (i - 1) ltac:(lia)).
           rewrite <- H. apply is_blocking_proper;
             unfold Z.sub; rewrite inject_Z_plus;
             change (inject_Z (- (1))) with (- (1))%Q; ring.
      * intros H i Hi. specialize (H (i + 1) ltac:(lia)).
        rewrite <- H. apply is_blocking_proper;
          rewrite inject_Z_plus; change (inject_Z 1) with 1%Q; ring.
Qed.

Lemma between_floor (a b t : Q) (c : Z) :
  Qfloor a = c -> Qfloor b = c -> (0 <= t <= 1)%Q ->
  Qfloor (a + t * (b - a)) = c.
Proof.
  intros Ha Hb Ht.
  pose proof (Qfloor_le a) as La. pose proof (Qlt_floor a) as Ua.
  pose proof (Qfloor_le b) as Lb. pose proof (Qlt_floor b) as Ub.
  rewrite Ha in La, Ua. rewrite Hb in Lb, Ub.
  rewrite inject_Z_plus in Ua, Ub. change (inject_Z 1) with 1%Q in Ua, Ub.
  set (x := (a + t * (b - a))%Q).
  assert (Hx : (inject_Z c <= x < inject_Z c + 1)%Q).
  { assert (E : (x == (1 - t) * a + t * b)%Q) by (unfold x; ring).
    assert (P1 : (0 <= (1 - t) * (a - inject_Z c))%Q)
      by (apply Qmult_le_0_compat; lra).
    assert (P2 : (0 <= t * (b - inject_Z c))%Q)
      by (apply Qmult_le_0_compat; lra).
    assert (P3 : (0 <= (1 - t) * (inject_Z c + 1 - a))%Q)
      by (apply Qmult_le_0_compat; lra).
    assert (P4 : (0 <= t * (inject_Z c + 1 - b))%Q)
      by (apply Qmult_le_0_compat; lra).
    split; [lra|].
    destruct (Qlt_le_dec 0 t) as [Hpos|Hzero].
    - assert (P5 : (0 < t * (inject_Z c + 1 - b))%Q)
        by (apply Qmult_lt_0_compat; lra).
      lra.
    - assert (Et : (t == 0)%Q) by lra.
      rewrite E, Et. lra. }
  pose proof (Qfloor_le x) as Lx. pose proof (Qlt_floor x) as Ux.
  rewrite inject_Z_plus in Ux. change (inject_Z 1) with 1%Q in Ux.
  assert (H1 : (inject_Z (Qfloor x) < inject_Z (c + 1))%Q)
    by (rewrite inject_Z_plus; change (inject_Z 1) with 1%Q; lra).
  assert (H2 : (inject_Z c < inject_Z (Qfloor x + 1))%Q)
    by (rewrite inject_Z_plus; change (inject_Z 1) with 1%Q; lra).
  rewrite <- Zlt_Qlt in H1, H2. lia.
Qed.

(** X25.  [hasLineOfSight] looks at 25 points of the segment from [p1]
    to [p2]: the points at [i / 25] of the way, for [i] from 1 to 25.  It
    answers yes exactly when none of them lies in a cell of the map whose
    value is above zero.  The last point is [p2], so a target in a wall
    cell is never seen; the point [p1] itself is not looked at; points off
    the map do not block, and two points in one open cell see each
    other. *)
Theorem hasLineOfSight_samples (p1 p2 : Vector2) (m : list (list Z)) :
  let sample (i : Z) : Vector2 :=
    {| vx := vx p1 + (inject_Z i / 25) * (vx p2 - vx p1);
       vy := vy p1 + (inject_Z i / 25) * (vy p2 - vy p1) |} in
  let blocked (v : Vector2) := is_blocking m (Qfloor (vx v)) (Qfloor (vy v)) in
  (hasLineOfSight p1 p2 m = true <->
   forall i, 1 <= i <= 25 -> blocked (sample i) = false) /\
  (blocked p2 = true -> hasLineOfSight p1 p2 m = false) /\
  ((forall i, 1 <= i <= 25 ->
      cell m (Qfloor (vx (sample i))) (Qfloor (vy (sample i))) = None) ->
   hasLineOfSight p1 p2 m = true) /\
  (Qfloor (vx p1) = Qfloor (vx p2) -> Qfloor (vy p1) = Qfloor (vy p2) ->
   hasLineOfSight p1 p2 m = negb (blocked p2)).
Proof.
  intros sample blocked.
  assert (Hiff : hasLineOfSight p1 p2 m = true <->
                 forall i, 1 <= i <= 25 -> blocked (sample i) = false).
  { unfold hasLineOfSight. rewrite los_loop_spec.
    change (Z.of_nat 25) with 25.
    split; intros H i Hi; specialize (H i Hi);
      (rewrite <- H || (rewrite <- H; symmetry));
      unfold blocked, sample; cbn [vx vy];
      apply is_blocking_proper; field. }
  assert (Hlast : blocked (sample 25) = blocked p2).
  { unfold blocked, sample. cbn [vx vy]. apply is_blocking_proper;
      change (inject_Z 25) with 25%Q; field. }
  split; [exact Hiff|]. split; [|split].
  - intros Hb. destruct (hasLineOfSight p1 p2 m) eqn:E; [|reflexivity].
    pose proof (proj1 Hiff eq_refl 25 ltac:(lia)) as H25. congruence.
  - intros Hout. apply Hiff. intros i Hi. unfold blocked, is_blocking.
    rewrite (Hout i Hi). reflexivity.
  - intros Ex Ey.
    assert (Hsame : forall i, 1 <= i <= 25 -> blocked (sample i) = blocked p2).
    { intros i Hi. unfold blocked, sample. cbn [vx vy].
      assert (Ht : (0 <= inject_Z i / 25 <= 1)%Q).
      { assert (H1 : (inject_Z 1 <= inject_Z i)%Q)
          by (rewrite <- Zle_Qle; lia).
        assert (H2 : (inject_Z i <= inject_Z 25)%Q)
          by (rewrite <- Zle_Qle; lia).
        change (inject_Z 1) with 1%Q in H1.
        change (inject_Z 25) with 25%Q in H2.
        split; [apply Qle_shift_div_l; lra|apply Qle_shift_div_r; lra]. }
      rewrite (between_floor (vx p1) (vx p2) _ (Qfloor (vx p2)) Ex eq_refl Ht).
      rewrite (between_floor (vy p1) (vy p2) _ (Qfloor (vy p2)) Ey eq_refl Ht).
      reflexivity. }
    destruct (blocked p2) eqn:Eb; cbn [negb].
    + destruct (hasLineOfSight p1 p2 m) eqn:E; [|reflexivity].
      pose proof (proj1 Hiff eq_refl 25 ltac:(lia)) as H25.
      rewrite Hsame in H25 by lia. congruence.
    + apply Hiff. exact Hsame.
Qed.

End Sight.
